(** * parallel_vectorize: the thread dispatcher and the work-stealing worker

    A shallow embedding of [src/parallel_vectorize.py].  The Python file is a
    code generator: [ParallelUFunc.body] emits the dispatcher, [UFuncCore.body]
    emits the worker that every thread runs.  What is modelled here is the
    emitted program:

    - machine integers ([C.intp], [C.int]) are [Z] with the wrap-around of
      their width written out;
    - the stack arrays [workqueues] and [contexts] are slot-indexed stores
      whose initial contents are arbitrary (they are allocated, not cleared);
    - the dispatcher is a function from the initial stores to the populated
      ones, followed by the end-of-run check;
    - the workers are a labelled transition system: one label per emitted
      operation on shared memory, one step function per thread, and a
      scheduler that picks any spawned thread at every step. *)

From Stdlib Require Import ZArith List Bool Lia Permutation.
Import ListNotations.
Open Scope Z_scope.

Set Implicit Arguments.

(** ** Machine integers *)

(** [wrap w z]: the signed [w]-bit integer that the bit pattern of [z] denotes. *)
Definition wrap (w z : Z) : Z := (z + 2 ^ (w - 1)) mod 2 ^ w - 2 ^ (w - 1).

(** [C.intp]: the pointer-sized signed integer (64 bits). *)
Definition intp (z : Z) : Z := wrap 64 z.
(** [C.int]: the 32-bit signed integer. *)
Definition int (z : Z) : Z := wrap 32 z.

Definition intp_max : Z := 2 ^ 63 - 1.
Definition int_max : Z := 2 ^ 31 - 1.

(** ** Slot-indexed stores

    [workqueues[i]] and [contexts[i]] are pointer arithmetic on a stack array:
    the index is not checked.  A store maps every slot index to its contents;
    the slots [0 .. ThreadCount-1] are the array. *)

Definition upd {A : Type} (m : Z -> A) (k : Z) (v : A) : Z -> A :=
  fun j => if Z.eqb j k then v else m j.

(** [for_range n]: the emitted loop [for (i = 0; i < n; ++i)]. *)
Definition for_range {A : Type} (n : Z) (f : Z -> A -> A) (a : A) : A :=
  fold_left (fun acc k => f (Z.of_nat k) acc) (seq 0 (Z.to_nat n)) a.

(** ** The structures *)

(** [WorkQueue]: the half-open range [next, last) and its spin lock. *)
Record WorkQueue : Type := mkWorkQueue {
  next : Z;   (* next index of work item *)
  last : Z;   (* last index of work item (exclusive) *)
  lock : Z    (* for locking the workqueue *)
}.

Definition set_next (q : WorkQueue) (v : Z) : WorkQueue :=
  mkWorkQueue v (last q) (lock q).
Definition set_last (q : WorkQueue) (v : Z) : WorkQueue :=
  mkWorkQueue (next q) v (lock q).
Definition set_lock (q : WorkQueue) (v : Z) : WorkQueue :=
  mkWorkQueue (next q) (last q) v.

(** [ContextCommon]: what all threads of one call share.  [args] and [steps]
    are C arrays reached through a pointer, hence total on indices; [func] is
    the kernel; [workqueues] points to the queue store of the call. *)
Record ContextCommon : Type := mkContextCommon {
  args : Z -> Z;
  dimensions : Z -> Z;
  steps : Z -> Z;
  func : list Z -> Z;
  num_thread : Z
}.

(** [Context]: per-thread.  Its [common] pointer is the same in every
    populated slot and is followed implicitly. *)
Record Context : Type := mkContext {
  id : Z;
  completed : Z
}.

Definition set_id (c : Context) (v : Z) : Context := mkContext v (completed c).
Definition set_completed (c : Context) (v : Z) : Context := mkContext (id c) v.

(** ** WorkQueue.Lock and WorkQueue.Unlock *)

(** [atomic_cmpxchg q old new]: the value observed in [q.lock], and the queue
    after the exchange. *)
Definition atomic_cmpxchg (q : WorkQueue) (old new : Z) : Z * WorkQueue :=
  (lock q, if lock q =? old then set_lock q new else q).

(** One iteration of the loop of [Lock]: [None] when the loop condition
    [res != unlocked] holds and the thread has to try again. *)
Definition Lock (q : WorkQueue) : option WorkQueue :=
  let unlocked := 0 in
  let locked := 1 in
  let (res, q') := atomic_cmpxchg q unlocked locked in
  if negb (res =? unlocked) then None else Some q'.

(** [Unlock]: [None] is the [unreachable] of the source ("This shall kill the
    program"). *)
Definition Unlock (q : WorkQueue) : option WorkQueue :=
  let unlocked := 0 in
  let locked := 1 in
  let (res, q') := atomic_cmpxchg q locked unlocked in
  if negb (res =? locked) then None else Some q'.

(** ** ParallelUFunc: the dispatcher *)

Definition _populate_workqueues (workqueues : Z -> WorkQueue)
           (N ChunkSize num_thread : Z) : Z -> WorkQueue :=
  let ONE := 1 in
  let workqueues :=
    for_range num_thread (fun i wqs =>
      let wqs := upd wqs i (set_next (wqs i) (intp (intp i * ChunkSize))) in
      let wqs := upd wqs i (set_last (wqs i)
                                     (intp (intp (int (i + ONE)) * ChunkSize))) in
      upd wqs i (set_lock (wqs i) 0)) workqueues in
  let k := int (num_thread - ONE) in
  upd workqueues k (set_last (workqueues k) N).

Definition _populate_context (contexts : Z -> Context) (num_thread : Z)
  : Z -> Context :=
  for_range num_thread (fun i ctxs =>
    let ctxs := upd ctxs i (set_id (ctxs i) i) in
    upd ctxs i (set_completed (ctxs i) 0)) contexts.

(** The frame of [body] when it reaches [_dispatch_worker]. *)
Record Frame : Type := mkFrame {
  f_common : ContextCommon;
  f_workqueues : Z -> WorkQueue;
  f_contexts : Z -> Context;
  f_num_thread : Z;
  f_ChunkSize : Z
}.

(** [body], lines 119-154.  [wq0] and [ctx0] are what the stack holds where the
    two arrays are allocated.  [common.num_thread] is assigned from
    [num_thread] before the chunk size is determined. *)
Definition body_setup (ThreadCount : Z) (func : list Z -> Z)
           (args dimensions steps : Z -> Z)
           (wq0 : Z -> WorkQueue) (ctx0 : Z -> Context) : Frame :=
  let num_thread := int ThreadCount in
  let common := mkContextCommon args dimensions steps func (int num_thread) in
  let N := dimensions 0 in
  let ChunkSize := intp (Z.quot N (intp num_thread)) in
  let '(ChunkSize, num_thread) :=
    if ChunkSize =? 0 then (1, int N) else (ChunkSize, num_thread) in
  let workqueues := _populate_workqueues wq0 N ChunkSize num_thread in
  let contexts := _populate_context ctx0 num_thread in
  mkFrame common workqueues contexts num_thread ChunkSize.

(** The debug check, lines 161-174: [for t in range(ThreadCount)] is unrolled
    by the generator over all [ThreadCount] slots. *)
Definition total_completed (ThreadCount : Z) (contexts : Z -> Context) : Z :=
  for_range ThreadCount (fun t total => intp (total + completed (contexts t))) 0.

Inductive Outcome : Type :=
| Returned      (* self.ret() *)
| Unreachable.  (* self.unreachable() *)

Definition race_check (ThreadCount : Z) (contexts : Z -> Context) (N : Z)
  : Outcome :=
  if total_completed ThreadCount contexts =? N then Returned else Unreachable.

(** ** UFuncCore: the worker *)

(** Program points of [ufunc_worker]: one per emitted operation on shared
    memory, named after the statement about to be executed. *)
Inductive Label : Type :=
(* _do_workqueue *)
| DrainLock        (* workqueue.Lock() *)
| DrainItem        (* item = var_copy(workqueue.next) *)
| DrainNext        (* workqueue.next += 1 *)
| DrainLast        (* last = var_copy(workqueue.last) *)
| DrainUnlock      (* workqueue.Unlock() *)
| DrainTest        (* if item >= last: break *)
| DrainWork        (* self._do_work(common, item, tid) *)
| DrainCompleted   (* completed += 1 *)
(* _do_work_stealing *)
| StealCond        (* loop condition: steal_continue != STEAL_STOP *)
| StealFor         (* for_range(common.num_thread) and the test i != tid *)
(* _do_work_stealing_check *)
| StealLock        (* otherqueue.Lock() *)
| StealTest        (* if otherqueue.next < otherqueue.last *)
| StealDec         (* otherqueue.last -= ONE *)
| StealItem        (* item = var_copy(otherqueue.last) *)
| StealUnlock      (* otherqueue.Unlock(), then branch *)
| StealWork        (* self._do_work(common, item, tid) *)
| StealCompleted   (* completed += 1 *)
| StealMark        (* steal_continue.assign(STEAL_CONTINUE) *)
| StealUnlockEmpty (* otherqueue.Unlock(), otherwise branch *)
| Ret.             (* self.ret() *)

(** The local variables of one worker. *)
Record Thread : Type := mkThread {
  pc : Label;
  l_item : Z;             (* item *)
  l_last : Z;             (* last, the copy taken in _do_workqueue *)
  l_steal_continue : Z;   (* steal_continue *)
  l_i : Z                 (* i of _do_work_stealing_innerloop *)
}.

Definition goto (l : Label) (th : Thread) : Thread :=
  mkThread l (l_item th) (l_last th) (l_steal_continue th) (l_i th).
Definition set_item (th : Thread) (v : Z) : Thread :=
  mkThread (pc th) v (l_last th) (l_steal_continue th) (l_i th).
Definition set_l_last (th : Thread) (v : Z) : Thread :=
  mkThread (pc th) (l_item th) v (l_steal_continue th) (l_i th).
Definition set_steal_continue (th : Thread) (v : Z) : Thread :=
  mkThread (pc th) (l_item th) (l_last th) v (l_i th).
Definition set_i (th : Thread) (v : Z) : Thread :=
  mkThread (pc th) (l_item th) (l_last th) (l_steal_continue th) v.

(** The state of one dispatch call while its workers run.  [calls] records
    every entry into [_do_work] as [(tid, item)], most recent first; [dead] is
    set once an [unreachable] has been executed. *)
Record State : Type := mkState {
  wqs : Z -> WorkQueue;
  ctxs : Z -> Context;
  thr : Z -> Thread;
  calls : list (Z * Z);
  dead : bool
}.

Definition with_wq (k : Z) (q : WorkQueue) (s : State) : State :=
  mkState (upd (wqs s) k q) (ctxs s) (thr s) (calls s) (dead s).
Definition with_ctx (k : Z) (c : Context) (s : State) : State :=
  mkState (wqs s) (upd (ctxs s) k c) (thr s) (calls s) (dead s).
Definition with_thr (k : Z) (th : Thread) (s : State) : State :=
  mkState (wqs s) (ctxs s) (upd (thr s) k th) (calls s) (dead s).
Definition with_call (c : Z * Z) (s : State) : State :=
  mkState (wqs s) (ctxs s) (thr s) (c :: calls s) (dead s).
Definition kill (s : State) : State :=
  mkState (wqs s) (ctxs s) (thr s) (calls s) true.

(** [thread_step common t s]: the next operation of the worker started on
    [contexts[t]].  [tid], [completed] and [common.num_thread] are struct
    members and are read from memory where they are used. *)
Definition thread_step (common : ContextCommon) (t : Z) (s : State) : State :=
  let th := thr s t in
  let context := ctxs s t in
  let tid := id context in
  match pc th with
  (* _do_workqueue, on workqueue = common.workqueues[tid] *)
  | DrainLock =>
      match Lock (wqs s tid) with
      | Some q => with_thr t (goto DrainItem th) (with_wq tid q s)
      | None => s
      end
  | DrainItem =>
      with_thr t (goto DrainNext (set_item th (next (wqs s tid)))) s
  | DrainNext =>
      let q := wqs s tid in
      with_thr t (goto DrainLast th)
               (with_wq tid (set_next q (intp (next q + 1))) s)
  | DrainLast =>
      with_thr t (goto DrainUnlock (set_l_last th (last (wqs s tid)))) s
  | DrainUnlock =>
      match Unlock (wqs s tid) with
      | Some q => with_thr t (goto DrainTest th) (with_wq tid q s)
      | None => kill s
      end
  | DrainTest =>
      if l_item th >=? l_last th
      then (* break; _do_work_stealing starts with steal_continue = 1 *)
        with_thr t (goto StealCond (set_steal_continue th 1)) s
      else with_thr t (goto DrainWork th) s
  | DrainWork =>
      with_thr t (goto DrainCompleted th) (with_call (tid, l_item th) s)
  | DrainCompleted =>
      with_thr t (goto DrainLock th)
               (with_ctx t (set_completed context
                                          (intp (completed context + 1))) s)
  (* _do_work_stealing *)
  | StealCond =>
      if negb (l_steal_continue th =? 0)
      then with_thr t (goto StealFor (set_i (set_steal_continue th 0) 0)) s
      else with_thr t (goto Ret th) s
  | StealFor =>
      if l_i th <? num_thread common
      then if negb (l_i th =? tid)
           then with_thr t (goto StealLock th) s
           else with_thr t (set_i th (int (l_i th + 1))) s
      else with_thr t (goto StealCond th) s
  (* _do_work_stealing_check, on otherqueue = common.workqueues[i] *)
  | StealLock =>
      match Lock (wqs s (l_i th)) with
      | Some q => with_thr t (goto StealTest th) (with_wq (l_i th) q s)
      | None => s
      end
  | StealTest =>
      let q := wqs s (l_i th) in
      if next q <? last q
      then with_thr t (goto StealDec th) s
      else with_thr t (goto StealUnlockEmpty th) s
  | StealDec =>
      let q := wqs s (l_i th) in
      with_thr t (goto StealItem th)
               (with_wq (l_i th) (set_last q (intp (last q - 1))) s)
  | StealItem =>
      with_thr t (goto StealUnlock (set_item th (last (wqs s (l_i th))))) s
  | StealUnlock =>
      match Unlock (wqs s (l_i th)) with
      | Some q => with_thr t (goto StealWork th) (with_wq (l_i th) q s)
      | None => kill s
      end
  | StealWork =>
      with_thr t (goto StealCompleted th) (with_call (tid, l_item th) s)
  | StealCompleted =>
      with_thr t (goto StealMark th)
               (with_ctx t (set_completed context
                                          (intp (completed context + 1))) s)
  | StealMark =>
      with_thr t (goto StealFor (set_i (set_steal_continue th 1)
                                       (int (l_i th + 1)))) s
  | StealUnlockEmpty =>
      match Unlock (wqs s (l_i th)) with
      | Some q => with_thr t (goto StealFor (set_i th (int (l_i th + 1))))
                           (with_wq (l_i th) q s)
      | None => kill s
      end
  | Ret => s
  end.

(** ** _dispatch_worker: create the threads, join them *)

(** Every created thread starts at the head of [_do_workqueue]. *)
Definition entry : Thread := mkThread DrainLock 0 0 0 0.

Definition spawn (f : Frame) : State :=
  mkState (f_workqueues f) (f_contexts f) (fun _ => entry) [] false.

(** [_dispatch_worker]: the slots of [contexts] handed to [pthread_create],
    in creation order. *)
Definition _dispatch_worker (num_thread : Z) : list Z :=
  for_range num_thread (fun i threads => threads ++ [i]) [].

(** One step of the call: any created thread runs its next operation; a
    killed program does not run. *)
Inductive step (common : ContextCommon) (n : Z) (s : State) : State -> Prop :=
| step_thread : forall t,
    In t (_dispatch_worker n) -> dead s = false ->
    step common n s (thread_step common t s).

Inductive exec (common : ContextCommon) (n : Z) (s : State) : State -> Prop :=
| exec_refl : exec common n s s
| exec_step : forall s1 s2,
    exec common n s s1 -> step common n s1 s2 -> exec common n s s2.

(** [pthread_join] of every created thread has returned. *)
Definition joined (n : Z) (s : State) : Prop :=
  forall t, In t (_dispatch_worker n) -> pc (thr s t) = Ret.

(** Running a schedule: the list of the threads that step, in order. *)
Definition run (common : ContextCommon) (sched : list Z) (s : State) : State :=
  fold_left (fun s t => if dead s then s else thread_step common t s) sched s.

(** The states of a call of the dispatcher specialised to [ThreadCount]. *)
Definition reachable (ThreadCount : Z) (func : list Z -> Z)
           (args dimensions steps : Z -> Z)
           (wq0 : Z -> WorkQueue) (ctx0 : Z -> Context) (s : State) : Prop :=
  let f := body_setup ThreadCount func args dimensions steps wq0 ctx0 in
  exec (f_common f) (f_num_thread f) (spawn f) s.

(** [body] as a whole: the call ends in state [s] with outcome [o] when the
    program was killed in [s], or when all threads were joined in [s] and the
    debug check decided [o]. *)
Definition body (ThreadCount : Z) (func : list Z -> Z)
           (args dimensions steps : Z -> Z)
           (wq0 : Z -> WorkQueue) (ctx0 : Z -> Context)
           (s : State) (o : Outcome) : Prop :=
  let f := body_setup ThreadCount func args dimensions steps wq0 ctx0 in
  reachable ThreadCount func args dimensions steps wq0 ctx0 s /\
  (dead s = true /\ o = Unreachable \/
   dead s = false /\ joined (f_num_thread f) s /\
   o = race_check ThreadCount (ctxs s) (dimensions 0)).

(** ** UFuncCoreGeneric._do_work: the kernel invoker *)

(** Data memory: every address holds one scalar. *)
Definition Heap : Type := Z -> Z.

(** [get_offset B S]: [B[item * S].reference()], byte indexing from the base
    pointer [B] by an [intp] product. *)
Definition get_offset (item B S : Z) : Z := B + intp (item * S).

(** [_do_work] for a kernel of [nargs] arguments ([len(self.ARGTYS)]). *)
Definition _do_work (nargs : nat) (common : ContextCommon) (item : Z)
           (h : Heap) : Heap :=
  let indata :=
    map (fun i => h (get_offset item (args common (Z.of_nat i))
                                (steps common (Z.of_nat i))))
        (seq 0 nargs) in
  let out_index := Z.of_nat nargs in
  let outptr := get_offset item (args common out_index)
                           (steps common out_index) in
  let res := func common indata in
  upd h outptr res.

(** ** Ownership of the queue locks *)

(** The queue whose lock the worker on slot [t] has taken and not yet
    released: between the successful exchange of [Lock] and the exchange of
    [Unlock]. *)
Definition holding (t : Z) (th : Thread) : option Z :=
  match pc th with
  | DrainItem | DrainNext | DrainLast | DrainUnlock => Some t
  | StealTest | StealDec | StealItem | StealUnlock | StealUnlockEmpty =>
      Some (l_i th)
  | _ => None
  end.

(** The index a worker has claimed and not yet handed to the kernel. *)
Definition pending (W : Z -> WorkQueue) (t : Z) (th : Thread) : option Z :=
  match pc th with
  | DrainLast | DrainUnlock =>
      if l_item th <? last (W t) then Some (l_item th) else None
  | DrainTest => if l_item th <? l_last th then Some (l_item th) else None
  | DrainWork => Some (l_item th)
  | StealItem => Some (last (W (l_i th)))
  | StealUnlock | StealWork => Some (l_item th)
  | _ => None
  end.

(** The worker has left [_do_workqueue]. *)
Definition drained (th : Thread) : bool :=
  match pc th with
  | DrainLock | DrainItem | DrainNext | DrainLast | DrainUnlock | DrainTest
  | DrainWork | DrainCompleted => false
  | _ => true
  end.

(** The indices handed to the kernel so far, most recent first. *)
Definition items (s : State) : list Z := map snd (calls s).

(** [range N]: the indices [0 .. N-1]. *)
Definition range (N : Z) : list Z := map Z.of_nat (seq 0 (Z.to_nat N)).

(** ** The chunk plan *)

(** The range [plan_lo q, plan_hi q) planned for queue [q] of [n] queues. *)
Definition plan_lo (ChunkSize q : Z) : Z := q * ChunkSize.
Definition plan_hi (ChunkSize n N q : Z) : Z :=
  if q =? n - 1 then N else (q + 1) * ChunkSize.

(** The calls made by thread [t]. *)
Definition calls_of (t : Z) (s : State) : list (Z * Z) :=
  filter (fun c => fst c =? t) (calls s).

(** 1 while the thread has called the kernel and not yet counted the call. *)
Definition counting (th : Thread) : Z :=
  match pc th with
  | DrainCompleted | StealCompleted => 1
  | _ => 0
  end.

(** ** Invariants of the worker phase *)

Section InvariantDefinitions.

Variable common : ContextCommon.
(** [n] queues were populated and [n] threads created. *)
Variable n : Z.
(** The range planned for each populated queue. *)
Variables lo hi : Z -> Z.

Definition built (q : Z) : Prop := 0 <= q < n.

Definition queue_ok (q : Z) (w : WorkQueue) : Prop :=
  lo q <= next w /\ lo q <= last w /\ last w <= hi q /\
  next w <= last w + 1 /\ (lock w = 0 \/ lock w = 1).

(** What each program point knows about the thread's own queue and about the
    queue it is stealing from. *)
Definition thread_ok (W : Z -> WorkQueue) (t : Z) (th : Thread) : Prop :=
  let own := W t in
  let other := W (l_i th) in
  match pc th with
  | DrainLock | DrainItem | DrainCompleted => next own <= last own
  | DrainNext => l_item th = next own /\ next own <= last own
  | DrainLast => l_item th + 1 = next own
  | DrainUnlock => l_item th + 1 = next own /\ l_last th = last own
  | DrainTest =>
      l_item th + 1 = next own /\
      (l_item th < l_last th /\ l_item th < last own \/
       l_item th >= l_last th /\ l_item th = last own)
  | DrainWork => l_item th + 1 = next own /\ l_item th < last own
  | StealCond | Ret => next own = last own + 1
  | StealFor => next own = last own + 1 /\ 0 <= l_i th
  | StealDec =>
      next own = last own + 1 /\ 0 <= l_i th < num_thread common /\
      (built (l_i th) -> next other < last other)
  | StealItem =>
      next own = last own + 1 /\ 0 <= l_i th < num_thread common /\
      (built (l_i th) -> next other <= last other /\ last other < hi (l_i th))
  | _ => next own = last own + 1 /\ 0 <= l_i th < num_thread common
  end.

Record Inv (s : State) : Prop := mkInv {
  inv_alive : dead s = false;
  inv_id : forall t, built t -> id (ctxs s t) = t;
  inv_queue : forall q, built q -> queue_ok q (wqs s q);
  inv_held : forall t q, built t -> holding t (thr s t) = Some q ->
                         lock (wqs s q) = 1;
  inv_mutex : forall t u q, built t -> built u ->
      holding t (thr s t) = Some q -> holding u (thr s u) = Some q -> t = u;
  inv_owner : forall q, built q -> lock (wqs s q) = 1 ->
      exists t, built t /\ holding t (thr s t) = Some q;
  inv_thread : forall t, built t -> thread_ok (wqs s) t (thr s t)
}.

(** [claimed W x]: index [x] has left the range of the queue it was planned
    into, at the head (below [next]) or at the tail (from [last] on). *)
Definition claimed (W : Z -> WorkQueue) (x : Z) : Prop :=
  exists q, built q /\ lo q <= x < hi q /\
            (x < next (W q) /\ x < last (W q) \/ last (W q) <= x).

(** Every claimed index is with exactly one thread or in the call log. *)
Record Acct (s : State) : Prop := mkAcct {
  acct_benign : forall i, n <= i < num_thread common ->
                          last (wqs s i) <= next (wqs s i);
  acct_target : forall t, built t -> pc (thr s t) = StealDec ->
                          built (l_i (thr s t));
  acct_nodup : NoDup (items s);
  acct_called : forall x, In x (items s) -> claimed (wqs s) x;
  acct_pending : forall t x, built t ->
      pending (wqs s) t (thr s t) = Some x ->
      claimed (wqs s) x /\ ~ In x (items s);
  acct_unique : forall t u x, built t -> built u ->
      pending (wqs s) t (thr s t) = Some x ->
      pending (wqs s) u (thr s u) = Some x -> t = u;
  acct_covered : forall x, claimed (wqs s) x ->
      In x (items s) \/
      exists t, built t /\ pending (wqs s) t (thr s t) = Some x
}.

(** [completed] of a thread is the number of its calls, less the one it is
    about to count; the contexts that were not populated are as the stack
    left them ([C0]); every call carries the id of a created thread. *)
Definition Cnt (C0 : Z -> Context) (s : State) : Prop :=
  (forall t, built t ->
     completed (ctxs s t) =
     intp (Z.of_nat (length (calls_of t s)) - counting (thr s t))) /\
  (forall i, ~ built i -> ctxs s i = C0 i) /\
  (forall c, In c (calls s) -> built (fst c)).

End InvariantDefinitions.

(** Where thread [t] stands in the sweep it started in state [s0]: with
    [steal_continue = 0] and no call of its own since, or with
    [steal_continue = 1] (or about to set it) and a call of its own since. *)
Definition sweep_state (t : Z) (s0 s : State) : Prop :=
  match pc (thr s t) with
  | StealFor | StealLock | StealTest | StealDec | StealItem | StealUnlock
  | StealWork | StealUnlockEmpty | StealCond =>
      l_steal_continue (thr s t) = 0 /\ calls_of t s = calls_of t s0 \/
      l_steal_continue (thr s t) = 1 /\
      (length (calls_of t s0) < length (calls_of t s))%nat
  | StealCompleted | StealMark =>
      (length (calls_of t s0) < length (calls_of t s))%nat
  | _ => False
  end.

(** [sum_upto k g]: the sum of [g 0 .. g (k-1)]. *)
Fixpoint sum_upto (k : nat) (g : Z -> Z) : Z :=
  match k with
  | O => 0
  | S k => sum_upto k g + g (Z.of_nat k)
  end.

(** Slots of the queue array that were not populated hold no work: what the
    stack must have held there for a stealing sweep to pass over them. *)
Definition benign (ThreadCount N : Z) (wq0 : Z -> WorkQueue) : Prop :=
  forall i, N <= i < ThreadCount -> last (wq0 i) <= next (wq0 i).

(** The queue an [Unlock] at the thread's program point releases. *)
Definition unlock_target (tid : Z) (th : Thread) : option Z :=
  match pc th with
  | DrainUnlock => Some tid
  | StealUnlock | StealUnlockEmpty => Some (l_i th)
  | _ => None
  end.

(** [solo common t k s]: thread [t] runs [k] operations in a row. *)
Definition solo (common : ContextCommon) (t : Z) (k : nat) (s : State) : State :=
  run common (repeat t k) s.

(** A schedule names created threads only. *)
Definition schedule_ok (n : Z) (sched : list Z) : bool :=
  forallb (fun t => (0 <=? t) && (t <? n)) sched.

(** ** Inputs of the examples *)

Definition zero_queues : Z -> WorkQueue := fun _ => mkWorkQueue 0 0 0.
Definition zero_contexts : Z -> Context := fun _ => mkContext 0 0.
(** [dimensions] with [dimensions[0] = N]. *)
Definition dims (N : Z) : Z -> Z := fun _ => N.
Definition no_args : Z -> Z := fun _ => 0.
Definition kernel0 : list Z -> Z := fun _ => 0.

(** Stack contents in which slot 1 of [workqueues] looks like a free queue
    holding the index 0. *)
Definition stale_queues : Z -> WorkQueue :=
  fun i => if i =? 1 then mkWorkQueue 0 1 0 else mkWorkQueue 0 0 0.

(** Stack contents in which every [completed] field reads 7. *)
Definition stale_contexts : Z -> Context := fun _ => mkContext 0 7.

(** Stack contents in which every queue field reads 5. *)
Definition stale_fives : Z -> WorkQueue := fun _ => mkWorkQueue 5 5 5.

(** A kernel of two arguments and a call whose second argument is broadcast
    (stride 0): the arrays are at 100, 200, 300. *)
Definition sum_kernel (l : list Z) : Z := fold_right Z.add 0 l.
Definition broadcast_common : ContextCommon :=
  mkContextCommon (fun k => 100 * (k + 1)) (dims 4)
                  (fun k => if k =? 1 then 0 else 8) sum_kernel 2.

(** A call of one thread on one index, stopped where the thread is about to
    release its own queue, with the lock word overwritten by 7. *)
Definition corrupted_lock : State :=
  let f := body_setup 1 kernel0 no_args (dims 1) no_args
                      zero_queues zero_contexts in
  let s := solo (f_common f) 0 4 (spawn f) in
  with_wq 0 (set_lock (wqs s 0) 7) s.

(** A call on 4 indices with 2 threads, and some of its states: thread 0 is
    about to enter the kernel on index 0; thread 0 has drained its queue
    [0, 2) and is about to decrement [last] of queue 1. *)
Definition call_4_2 : Frame :=
  body_setup 2 kernel0 no_args (dims 4) no_args zero_queues zero_contexts.
Definition about_to_work : State := solo (f_common call_4_2) 0 6 (spawn call_4_2).
Definition about_to_steal : State := solo (f_common call_4_2) 0 27 (spawn call_4_2).
(** Thread 0 has drained its queue and is at the condition of the stealing
    loop; queue 1 still holds [2, 4). *)
Definition about_to_sweep : State := solo (f_common call_4_2) 0 22 (spawn call_4_2).

(** Slots of the context array that were not populated read 0 in
    [completed]. *)
Definition clean (ThreadCount N : Z) (ctx0 : Z -> Context) : Prop :=
  forall t, N <= t < ThreadCount -> completed (ctx0 t) = 0.

(** A schedule of three threads in which thread 0 runs five operations for
    each one of threads 1 and 2, so that it drains its queue first and steals
    from both. *)
Definition uneven_schedule : list Z :=
  concat (repeat (0 :: 0 :: 0 :: 1 :: 0 :: 0 :: 2 :: nil) 60).

(** Thread 0 of the call on 4 indices with 2 threads is about to release its
    own queue for the first time. *)
Definition about_to_unlock : State := solo (f_common call_4_2) 0 4 (spawn call_4_2).

(** ** Progress of the workers *)

(** The thread started on slot [t] is idle in [s]: it has returned, or it is
    in the loop of [Lock] and the lock word it would exchange is not 0. *)
Definition idle (s : State) (t : Z) : bool :=
  let th := thr s t in
  match pc th with
  | Ret => true
  | DrainLock => negb (lock (wqs s (id (ctxs s t))) =? 0)
  | StealLock => negb (lock (wqs s (l_i th)) =? 0)
  | _ => false
  end.

(** The lock words of the queue slots that were not populated read 0: what
    the stack must have held there for a sweep to get past them. *)
Definition unlocked (ThreadCount N : Z) (wq0 : Z -> WorkQueue) : Prop :=
  forall i, N <= i < ThreadCount -> lock (wq0 i) = 0.

(** The lock word of an unpopulated slot that the sweeps visit is 0 unless a
    created thread holds it. *)
Definition Spare (common : ContextCommon) (n : Z) (s : State) : Prop :=
  forall q, n <= q < num_thread common ->
    lock (wqs s q) = 0 \/
    exists t, built n t /\ holding t (thr s t) = Some q.

(** [sweep_left T i]: the operations a sweep of [T] slots that is at slot [i]
    still executes when it finds nothing to steal. *)
Definition sweep_left (T i : Z) : Z := 4 * Z.max 0 (T - i) + 1.

(** [after_sweep T c]: the operations from the loop condition of
    [_do_work_stealing] with [steal_continue = c] to the return, when
    nothing is stolen. *)
Definition after_sweep (T c : Z) : Z :=
  if c =? 0 then 1 else sweep_left T 0 + 2.

(** What one claimed index pays for: an iteration of the drain loop, or the
    rest of a steal and the sweep that the steal makes the thief repeat. *)
Definition claim_cost (T : Z) : Z := sweep_left T 0 + 15.

(** [steps_left T th]: a bound on the operations (other than failed lock
    attempts) that a thread executes before it claims its next index or
    returns. *)
Definition steps_left (T : Z) (th : Thread) : Z :=
  let W := sweep_left T (l_i th) in
  let A := after_sweep T (l_steal_continue th) in
  let A1 := after_sweep T 1 in
  let W1 := sweep_left T (l_i th + 1) in
  match pc th with
  | DrainLock => A1 + 2
  | DrainItem => A1 + 1
  | DrainNext => A1
  | DrainLast => A1 + claim_cost T - 1
  | DrainUnlock => A1 + claim_cost T - 2
  | DrainTest => A1 + claim_cost T - 3
  | DrainWork => A1 + claim_cost T - 4
  | DrainCompleted => A1 + claim_cost T - 5
  | StealCond => A
  | StealFor => W + A
  | StealLock => W + A - 1
  | StealTest => W + A - 2
  | StealDec => W + A - 3
  | StealUnlockEmpty => W + A - 3
  | StealItem => W1 + A1 + 5
  | StealUnlock => W1 + A1 + 4
  | StealWork => W1 + A1 + 3
  | StealCompleted => W1 + A1 + 2
  | StealMark => W1 + A1 + 1
  | Ret => 0
  end.

(** The indices the populated queues can still give out: one per remaining
    index, and one for the owner's last, failing pass through the drain
    loop. *)
Definition unclaimed (n : Z) (W : Z -> WorkQueue) : Z :=
  sum_upto (Z.to_nat n) (fun q => last (W q) + 1 - next (W q)).

(** [rank]: a bound on the operations that the [n] created threads still
    execute, failed lock attempts apart. *)
Definition rank (common : ContextCommon) (n : Z) (s : State) : Z :=
  sum_upto (Z.to_nat n) (fun t => steps_left (num_thread common) (thr s t)) +
  claim_cost (num_thread common) * unclaimed n (wqs s).

(** [work common sched s]: the number of steps of the schedule that are taken
    by a thread that is not idle. *)
Fixpoint work (common : ContextCommon) (sched : list Z) (s : State) : nat :=
  match sched with
  | [] => 0%nat
  | t :: sched' =>
      ((if dead s || idle s t then 0 else 1) +
       work common sched' (if dead s then s else thread_step common t s))%nat
  end.

(** A scheduler that runs the first created thread that is not idle, as long
    as there is one. *)
Definition pick (workers : list Z) (s : State) : option Z :=
  find (fun t => negb (idle s t)) workers.

Fixpoint greedy (common : ContextCommon) (workers : list Z) (fuel : nat)
         (s : State) : list Z :=
  match fuel with
  | O => []
  | S fuel' =>
      match pick workers s with
      | Some t => t :: greedy common workers fuel' (thread_step common t s)
      | None => []
      end
  end.

(** ** The memory a call leaves *)

(** Byte memory.  An element of a type of [size] bytes at address [a]
    occupies the addresses [a, a + size); a typed load reads these bytes and
    a typed store writes them, the value being the bit pattern of the
    element, least significant byte first. *)
Definition Bytes : Type := Z -> Z.

Definition byte_at (v : Z) (k : nat) : Z := (v / 256 ^ Z.of_nat k) mod 256.

Definition load (m : Bytes) (a : Z) (size : nat) : Z :=
  fold_right (fun k v => m (a + Z.of_nat k) * 256 ^ Z.of_nat k + v) 0
             (seq 0 size).

Definition store (m : Bytes) (a : Z) (size : nat) (v : Z) : Bytes :=
  fold_left (fun m k => upd m (a + Z.of_nat k) (byte_at v k)) (seq 0 size) m.

(** [_do_work] on byte memory.  [ARGTYS] and [RETTY] are given by the sizes
    of the argument types and of the return type: [ptr.load()] reads
    [sizeof(argty)] bytes at [args[i] + item * steps[i]] and
    [outptr.store(res)] writes [sizeof(RETTY)] bytes. *)
Definition _do_work_sized (ARGTYS : list nat) (RETTY : nat)
           (common : ContextCommon) (item : Z) (m : Bytes) : Bytes :=
  let indata :=
    map (fun ia =>
           let i := Z.of_nat (fst ia) in
           load m (get_offset item (args common i) (steps common i)) (snd ia))
        (combine (seq 0 (length ARGTYS)) ARGTYS) in
  let out_index := Z.of_nat (length ARGTYS) in
  let outptr := get_offset item (args common out_index)
                           (steps common out_index) in
  let res := func common indata in
  store m outptr RETTY res.

(** [replay ARGTYS RETTY common cs m]: the kernel invocations of the call
    log [cs] (most recent first) applied to the memory [m] in the order in
    which they were entered. *)
Definition replay (ARGTYS : list nat) (RETTY : nat) (common : ContextCommon)
           (cs : list (Z * Z)) (m : Bytes) : Bytes :=
  fold_right (fun c m => _do_work_sized ARGTYS RETTY common (snd c) m) m cs.

(** The loop that the dispatcher replaces: [_do_work] on 0, 1, ..., N-1. *)
Definition sequential (ARGTYS : list nat) (RETTY : nat)
           (common : ContextCommon) (N : Z) (m : Bytes) : Bytes :=
  for_range N (fun i m => _do_work_sized ARGTYS RETTY common i m) m.

(** Two elements, of [sa] bytes at [a] and of [sb] bytes at [b], do not
    overlap. *)
Definition apart (a : Z) (sa : nat) (b : Z) (sb : nat) : Prop :=
  a + Z.of_nat sa <= b \/ b + Z.of_nat sb <= a.

(** The address of element [i] of argument [k]. *)
Definition element (common : ContextCommon) (k i : Z) : Z :=
  get_offset i (args common k) (steps common k).

(** A schedule in which two threads alternate. *)
Definition lockstep_schedule : list Z := concat (repeat (0 :: 1 :: nil) 40).

(** The call of [sum_kernel] on 4 indices with 2 threads, on the arrays of
    [broadcast_common], run to the end in lockstep. *)
Definition broadcast_call : Frame :=
  body_setup 2 sum_kernel (args broadcast_common) (dims 4)
             (steps broadcast_common) zero_queues zero_contexts.
Definition broadcast_end : State :=
  run (f_common broadcast_call) lockstep_schedule (spawn broadcast_call).

(** A memory in which every byte reads 1. *)
Definition ones : Bytes := fun _ => 1.

(** ** _CudaStagingCaller: the kernel one CUDA thread runs

    The arrays behind the pointer arguments are stores indexed without
    check; [inputs] are the arrays of [args[:-2]], [output] and [ct] those of
    [args[-2:]].  The three intrinsics return 32-bit integers, and the index
    is computed in 32 bits. *)
Definition _CudaStagingCaller_body (worker : list Z -> Z)
           (inputs : list (Z -> Z)) (ct : Z) (tid_x ntid_x ctaid_x : Z)
           (output : Z -> Z) : Z -> Z :=
  let tid := tid_x in
  let blkdim := ntid_x in
  let blkid := ctaid_x in
  let i := int (tid + int (blkdim * blkid)) in
  if i >=? ct then output   (* stop condition *)
  else
    let res := worker (map (fun x => x i) inputs) in
    upd output i res.

(** The threads of a launch with [block = (threadct, 1, 1)] and
    [grid = (blockct, 1)], as pairs (block index, thread index). *)
Definition grid (threadct blockct : Z) : list (Z * Z) :=
  flat_map (fun b => map (fun t => (b, t)) (range threadct)) (range blockct).

(** A launch: every thread of [order] runs the kernel, one after the other. *)
Definition launch (worker : list Z -> Z) (inputs : list (Z -> Z)) (ct : Z)
           (threadct : Z) (order : list (Z * Z)) (output : Z -> Z) : Z -> Z :=
  fold_left (fun out bt =>
               _CudaStagingCaller_body worker inputs ct (snd bt) threadct
                                       (fst bt) out)
            order output.

(** ** CudaVectorize.build_ufunc: the launch of [_ufunc_hack] *)

From Stdlib Require Import SpecFloat.

(** Python floats are IEEE 754 binary64 numbers: 53 bits of precision,
    exponents up to 1024.  [float(z)] rounds the integer to the nearest
    float, [/] is the correctly rounded division. *)
Definition float (z : Z) : spec_float := binary_normalize 53 1024 z 0 false.
Definition fdiv (x y : spec_float) : spec_float := SFdiv 53 1024 x y.

(** [int(ceil(x))]: the least integer not below [x]; [None] where Python
    raises (infinities and NaN). *)
Definition int_ceil (x : spec_float) : option Z :=
  match x with
  | S754_zero _ => Some 0
  | S754_finite s m e =>
      let v := cond_Zopp s (Zpos m) in
      Some (if 0 <=? e then v * 2 ^ e else - ((- v) / 2 ^ (- e)))
  | _ => None
  end.

(** The block and grid sizes [(threadct, blockct)] that [_ufunc_hack]
    chooses for [N] elements. *)
Definition launch_geometry (MAX_THREAD N : Z) : option (Z * Z) :=
  if N >? MAX_THREAD
  then match int_ceil (fdiv (float N) (float MAX_THREAD)) with
       | Some blockct => Some (MAX_THREAD, blockct)
       | None => None
       end
  else Some (N, 1).

(** The kernel entry that the loop
    [for kernel, retty, argtys in kernel_list: if argtys == tys: break]
    leaves in its variables: [cur] is what they hold before the loop. *)
Fixpoint select_kernel {K R D : Type} (eqb : list D -> list D -> bool)
         (kernel_list : list (K * R * list D)) (tys : list D)
         (cur : option (K * R * list D)) : option (K * R * list D) :=
  match kernel_list with
  | [] => cur
  | k :: rest =>
      if eqb (snd k) tys then Some k
      else select_kernel eqb rest tys (Some k)
  end.

(** * The Python-level builders

    [parallel_vectorize_from_func], [ParallelVectorize] and the dictionary
    behind [_llvm_ty_to_numpy].  Python exceptions are the left summand of
    the result; the calls into llvm-py, llvm_cbuilder, NumPy and the
    execution engine are the variables of the section. *)

From Stdlib Require String Ascii.
Import String.StringSyntax.
Delimit Scope string_scope with string.

Module Vectorize.

(** The exceptions of the builder's own statements, and [LibraryError] for
    an exception that leaves a call into the libraries, with its name. *)
Inductive Exn : Type :=
| TypeError
| KeyError (key : String.string)
| AssertionError
| IndexError
| UnboundLocalError (name : String.string)
| LibraryError (name : String.string).

Definition bind {A B : Type} (m : Exn + A) (f : A -> Exn + B) : Exn + B :=
  match m with
  | inl e => inl e
  | inr a => f a
  end.

Notation "'do' x <- m ; k" := (bind m (fun x => k))
  (at level 10, x name, m at level 100, k at level 200).

(** Python 2's [map]: the function is applied from left to right, and the
    first exception ends the call. *)
Fixpoint map_exn {A B : Type} (f : A -> Exn + B) (l : list A)
  : Exn + list B :=
  match l with
  | [] => inr []
  | a :: l' => do b <- f a; do bs <- map_exn f l'; inr (b :: bs)
  end.

Inductive NumpyType : Type :=
| np_int8 | np_int16 | np_int32 | np_int64 | np_float32 | np_float64.

(** An LLVM type is represented by its [str], which is all the code looks
    at, apart from the comparison with [C.void], the one type whose [str]
    is [void]. *)
Definition LType : Type := String.string.

Definition _llvm_ty_str_to_numpy : list (LType * NumpyType) :=
  [ ("i8"%string,     np_int8);
    ("i16"%string,    np_int16);
    ("i32"%string,    np_int32);
    ("i64"%string,    np_int64);
    ("float"%string,  np_float32);
    ("double"%string, np_float64) ].

(** [d[key]] on a dictionary given by its items. *)
Fixpoint getitem {A : Type} (d : list (String.string * A))
         (key : String.string) : Exn + A :=
  match d with
  | [] => inl (KeyError key)
  | (k, v) :: d' => if String.eqb k key then inr v else getitem d' key
  end.

Definition _llvm_ty_to_numpy (ty : LType) : Exn + NumpyType :=
  getitem _llvm_ty_str_to_numpy ty.

(** [llvm.core.FunctionType]. *)
Record FunctionType : Type := {
  args : list LType;
  return_type : LType
}.

Definition void : LType := "void"%string.

(** What [parallel_vectorize_from_func] returns: the specialized
    definition(s) when no engine is given, and otherwise what
    [fromfunc(ptrlist, tyslist, inct, outct, datlist)] is called with. *)
Inductive Result (SPUF : Type) : Type :=
| LLVMDefinition (spuf : SPUF)
| LLVMDefinitions (spuflist : list SPUF)
| fromfunc (ptrlist : list Z) (tyslist : list (list Z)) (inct outct : Z)
           (datlist : list (option Z)).

Arguments LLVMDefinition {SPUF} spuf.
Arguments LLVMDefinitions {SPUF} spuflist.
Arguments fromfunc {SPUF} ptrlist tyslist inct outct datlist.

(** An iterable object: [elements] is what iterating over it yields, in
    order, and [subscript i] is what [lfunclist[i]] evaluates to.  A list or
    a tuple is [pylist]; for a set or a generator every subscript raises
    [TypeError]. *)
Record Iterable (LFunc : Type) : Type := {
  elements : list LFunc;
  subscript : nat -> Exn + LFunc
}.

Definition pylist {LFunc : Type} (l : list LFunc) : Iterable LFunc :=
  {| elements := l;
     subscript := fun i => match nth_error l i with
                           | Some lfunc => inr lfunc
                           | None => inl IndexError
                           end |}.

Definition unindexable {LFunc : Type} (l : list LFunc) : Iterable LFunc :=
  {| elements := l; subscript := fun _ => inl TypeError |}.

(** The first argument: one function, or an iterable of them. *)
Inductive Functions (LFunc : Type) : Type :=
| single (lfunc : LFunc)
| iterable (lfunclist : Iterable LFunc).

Arguments single {LFunc} lfunc.
Arguments iterable {LFunc} lfunclist.

(** [try: iter(lfunclist) except TypeError: lfunclist = [lfunclist]]. *)
Definition listify {LFunc : Type} (lfunclist : Functions LFunc)
  : Iterable LFunc :=
  match lfunclist with
  | single lfunc => pylist [lfunc]
  | iterable l => l
  end.

(** [fns] are [lfunclist[i]], [lfunclist[i + 1]], ... *)
Definition indexed {LFunc : Type} (lfunclist : Iterable LFunc) (i : nat)
           (fns : list LFunc) : Prop :=
  forall k lfunc, nth_error fns k = Some lfunc ->
                  subscript lfunclist (i + k) = inr lfunc.

(** The local variables of the second loop.  [inct] and [outct] are
    unbound until the first iteration has bound them. *)
Record Locals : Type := {
  inct : option Z;
  outct : option Z;
  ptrlist : list Z;
  tyslist : list (list Z);
  datlist : list (option Z)
}.

Definition getlocal (name : String.string) (v : option Z) : Exn + Z :=
  match v with
  | Some z => inr z
  | None => inl (UnboundLocalError name)
  end.

Section Builders.

(** [llvm.core.Function], with [lfunc.type.pointee]. *)
Variable LFunc : Type.
Variable pointee : LFunc -> FunctionType.

(** [SpecializedParallelUFunc(...)(lfunc.module)]: the specialized ufunc
    definition of a function, or the name of the exception that building it
    raises. *)
Variable SPUF : Type.
Variable def_spuf : LFunc -> String.string + SPUF.

Definition build_spuf (lfunc : LFunc) : Exn + SPUF :=
  match def_spuf lfunc with
  | inl name => inl (LibraryError name)
  | inr spuf => inr spuf
  end.

(** [llvm.ee.ExecutionEngine], with [engine.get_pointer_to_function]. *)
Variable Engine : Type.
Variable get_pointer_to_function : Engine -> SPUF -> Z.

(** [np.dtype(t).num]. *)
Variable num : NumpyType -> Z.

Definition get_typenum (T : LType) : Exn + Z :=
  do t <- _llvm_ty_to_numpy T; inr (num t).

(** [tys] holds the type numbers of the argument types of [fntype] followed
    by that of its return type, each the [num] of an entry of the
    dictionary. *)
Definition typenums (fntype : FunctionType) (tys : list Z) : Prop :=
  Forall2 (fun T z => exists t, In (T, t) _llvm_ty_str_to_numpy /\ z = num t)
          (args fntype ++ [return_type fntype]) tys.

(** The loop [for i, spuf in enumerate(spuflist)], from index [i] on. *)
Fixpoint ufunc_loop (lfunclist : Iterable LFunc) (engine : Engine) (i : nat)
         (spuflist : list SPUF) (st : Locals) : Exn + Locals :=
  match spuflist with
  | [] => inr st
  | spuf :: rest =>
      do lfunc <- subscript lfunclist i;
      let fntype := pointee lfunc in
      let fptr := get_pointer_to_function engine spuf in
      let argct := Z.of_nat (length (args fntype)) in
      do st1 <- (if Nat.eqb i 0 (* for the first *)
                 then inr {| inct := Some argct; outct := Some 1;
                             ptrlist := ptrlist st; tyslist := tyslist st;
                             datlist := datlist st |}
                 else do n <- getlocal "inct"%string (inct st);
                      if negb (argct =? n) then inl TypeError else inr st);
      do _ <- (if String.eqb (return_type fntype) void
               then inl AssertionError else inr tt);
      do tys <- map_exn get_typenum (args fntype ++ [return_type fntype]);
      ufunc_loop lfunclist engine (S i) rest
                 {| inct := inct st1; outct := outct st1;
                    ptrlist := ptrlist st1 ++ [fptr];
                    tyslist := tyslist st1 ++ [tys];
                    datlist := datlist st1 ++ [None] |}
  end.

Definition parallel_vectorize_from_func (lfunclist : Functions LFunc)
           (engine : option Engine) : Exn + Result SPUF :=
  let lfunclist := listify lfunclist in
  do spuflist <- map_exn build_spuf (elements lfunclist);
  match engine with
  | None =>
      (* No engine given, just return the llvm definitions *)
      match spuflist with
      | [spuf] => inr (LLVMDefinition spuf)
      | _ => inr (LLVMDefinitions spuflist)
      end
  | Some engine =>
      do st <- ufunc_loop lfunclist engine 0 spuflist
                 {| inct := None; outct := None;
                    ptrlist := []; tyslist := []; datlist := [] |};
      do inct <- getlocal "inct"%string (inct st);
      do outct <- getlocal "outct"%string (outct st);
      inr (fromfunc (ptrlist st) (tyslist st) inct outct (datlist st))
  end.

(** ** ParallelVectorize *)

(** [numbapro.translate.Translate]: [Translate(pyfunc, *args, **kwargs)]
    followed by [t.translate()], taken to succeed, with [t.lfunc] and
    [t._get_ee()]. *)
Variable PyFunc : Type.
Variable Signature : Type.
Variable Translate : Type.
Variable translate : PyFunc -> Signature -> Translate.
Variable lfunc : Translate -> LFunc.
Variable _get_ee : Translate -> Engine.

Record ParallelVectorize : Type := {
  pyfunc : PyFunc;
  translates : list Translate
}.

Definition __init__ (func : PyFunc) : ParallelVectorize :=
  {| pyfunc := func; translates := [] |}.

Definition add (self : ParallelVectorize) (sig : Signature)
  : ParallelVectorize :=
  let t := translate (pyfunc self) sig in
  {| pyfunc := pyfunc self; translates := translates self ++ [t] |}.

Definition _get_lfunc_list (self : ParallelVectorize) : list LFunc :=
  map lfunc (translates self).

Definition build_ufunc (self : ParallelVectorize) : Exn + Result SPUF :=
  match translates self with
  | [] => inl AssertionError   (* No translation *)
  | t0 :: _ =>
      let lfunclist := _get_lfunc_list self in
      let engine := _get_ee t0 in
      parallel_vectorize_from_func (iterable (pylist lfunclist))
                                   (Some engine)
  end.

End Builders.

(** ** An instance: functions given by their types

    The type numbers are those of NumPy on 64-bit Linux; building the
    specialized ufunc of a function that returns [void] raises
    [AttributeError]; the pointer of a function is a number made from its
    return type, and the engine is trivial. *)
Definition linux_num (t : NumpyType) : Z :=
  match t with
  | np_int8 => 1
  | np_int16 => 3
  | np_int32 => 5
  | np_int64 => 7
  | np_float32 => 11
  | np_float64 => 12
  end.

Definition binary (T : LType) : FunctionType :=
  {| args := [T; T]; return_type := T |}.

Definition unary (T : LType) : FunctionType :=
  {| args := [T]; return_type := T |}.

Definition sample_def_spuf (lfunc : FunctionType)
  : String.string + FunctionType :=
  if String.eqb (return_type lfunc) void
  then inl "AttributeError"%string else inr lfunc.

Definition sample_pointer (_ : unit) (spuf : FunctionType) : Z :=
  Z.of_nat (String.length (return_type spuf)).

Definition sample_from_func (lfunclist : Iterable FunctionType)
  : Exn + Result FunctionType :=
  parallel_vectorize_from_func
    (fun f : FunctionType => f) sample_def_spuf sample_pointer
    linux_num (iterable lfunclist) (Some tt).

End Vectorize.

Arguments intp : simpl never.
Arguments int : simpl never.

Lemma intp_id z : - 2 ^ 63 <= z <= intp_max -> intp z = z.
Proof.
  unfold intp, intp_max, wrap. intros H.
  rewrite Z.mod_small; lia.
Qed.

Lemma int_id z : - 2 ^ 31 <= z <= int_max -> int z = z.
Proof.
  unfold int, int_max, wrap. intros H.
  rewrite Z.mod_small; lia.
Qed.

Lemma upd_eq {A} (m : Z -> A) k v : upd m k v k = v.
Proof. unfold upd. now rewrite Z.eqb_refl. Qed.

Lemma upd_neq {A} (m : Z -> A) k v j : j <> k -> upd m k v j = m j.
Proof. unfold upd. intros H. destruct (Z.eqb_spec j k); congruence. Qed.

(** Case analysis on the slot an updated store is read at. *)
Ltac upd_cases :=
  repeat match goal with
  | |- context [upd ?m ?k ?v ?j] =>
      let E := fresh "E" in
      destruct (Z.eq_dec j k) as [E|E];
      [ try rewrite E in *; rewrite ?upd_eq in *
      | rewrite ?(upd_neq m v E) in * ]
  | H : context [upd ?m ?k ?v ?j] |- _ =>
      let E := fresh "E" in
      destruct (Z.eq_dec j k) as [E|E];
      [ try rewrite E in *; rewrite ?upd_eq in *
      | rewrite ?(upd_neq m v E) in * ]
  end.

(** * Loops over slots *)

Lemma for_range_succ {A : Type} (k : nat) (f : Z -> A -> A) (a : A) :
  for_range (Z.of_nat (S k)) f a =
  f (Z.of_nat k) (for_range (Z.of_nat k) f a).
Proof.
  unfold for_range. rewrite !Nat2Z.id, seq_S, fold_left_app. reflexivity.
Qed.

Lemma for_range_none {A : Type} (n : Z) (f : Z -> A -> A) (a : A) :
  n <= 0 -> for_range n f a = a.
Proof.
  intros H. unfold for_range.
  replace (Z.to_nat n) with 0%nat by lia. reflexivity.
Qed.

Lemma for_range_slots {A : Type} (f : Z -> (Z -> A) -> Z -> A)
      (g : Z -> A -> A) (n : Z) (m : Z -> A) (j : Z) :
  (forall i m j, f i m j = if j =? i then g i (m i) else m j) ->
  for_range n f m j = if (0 <=? j) && (j <? n) then g j (m j) else m j.
Proof.
  intros Hf. destruct (Z_le_gt_dec n 0) as [Hn|Hn].
  - rewrite for_range_none by assumption.
    destruct (Z.leb_spec 0 j), (Z.ltb_spec j n); simpl; try reflexivity; lia.
  - rewrite <- (Z2Nat.id n) by lia. induction (Z.to_nat n) as [|k IH].
    + rewrite for_range_none by lia.
      destruct (Z.leb_spec 0 j), (Z.ltb_spec j (Z.of_nat 0)); simpl;
        try reflexivity; lia.
    + rewrite for_range_succ, Hf, IH.
      destruct (Z.eqb_spec j (Z.of_nat k)) as [->|Hne].
      * rewrite IH.
        destruct (Z.leb_spec 0 (Z.of_nat k)),
                 (Z.ltb_spec (Z.of_nat k) (Z.of_nat k)),
                 (Z.ltb_spec (Z.of_nat k) (Z.of_nat (S k)));
          simpl; try reflexivity; lia.
      * destruct (Z.leb_spec 0 j), (Z.ltb_spec j (Z.of_nat k)),
                 (Z.ltb_spec j (Z.of_nat (S k))); simpl; try reflexivity; lia.
Qed.

Lemma dispatch_worker_In (n t : Z) :
  In t (_dispatch_worker n) <-> 0 <= t < n.
Proof.
  unfold _dispatch_worker. destruct (Z_le_gt_dec n 0) as [Hn|Hn].
  - rewrite for_range_none by assumption. simpl. lia.
  - rewrite <- (Z2Nat.id n) by lia. induction (Z.to_nat n) as [|k IH].
    + rewrite for_range_none by lia. simpl. lia.
    + rewrite for_range_succ, in_app_iff, IH. simpl. lia.
Qed.

(** * The worker phase: invariants *)

Section Invariant.

Variable common : ContextCommon.
Variables n N : Z.
Variables lo hi : Z -> Z.

Local Abbreviation built := (built n).
Local Abbreviation queue_ok := (queue_ok lo hi).
Local Abbreviation thread_ok := (thread_ok common n hi).
Local Abbreviation Inv := (Inv common n lo hi).
Local Abbreviation claimed := (claimed n lo hi).
Local Abbreviation Acct := (Acct common n lo hi).

Hypothesis HN : N < intp_max.
Hypothesis Hlo : forall q, built q -> 0 <= lo q.
Hypothesis Hhi : forall q, built q -> hi q <= N.
Hypothesis Hnt : num_thread common <= int_max.

Lemma thread_ok_frame W W' u th :
  next (W' u) = next (W u) -> last (W' u) = last (W u) ->
  (forall q, holding u th = Some q ->
             next (W' q) = next (W q) /\ last (W' q) = last (W q)) ->
  thread_ok W u th -> thread_ok W' u th.
Proof.
  unfold thread_ok, holding. intros Hn Hl Hh.
  destruct (pc th); simpl; rewrite ?Hn, ?Hl; auto;
    destruct (Hh _ eq_refl) as [-> ->]; auto.
Qed.

Lemma thread_ok_stolen W u th :
  holding u th <> Some u -> next (W u) < last (W u) ->
  thread_ok W u th ->
  thread_ok (upd W u (set_last (W u) (last (W u) - 1))) u th.
Proof.
  unfold thread_ok, holding. intros Hh Hlt.
  destruct (pc th); simpl; rewrite ?upd_eq; simpl; try congruence; try lia.
Qed.


Ltac split_inv I :=
  destruct I as [Halive Hid Hqueue Hheld Hmutex Howner Hthread].

(** A step that touches no queue and keeps the lock the thread holds. *)
Lemma inv_local s t th' C' cs' :
  Inv s -> built t ->
  (forall u, id (C' u) = id (ctxs s u)) ->
  holding t th' = holding t (thr s t) ->
  thread_ok (wqs s) t th' ->
  Inv (mkState (wqs s) C' (upd (thr s) t th') cs' (dead s)).
Proof.
  intros I Ht HC Hh Hok. split_inv I. constructor; simpl.
  - assumption.
  - intros u Hu. rewrite HC. auto.
  - assumption.
  - intros u q Hu. upd_cases; rewrite ?Hh; eauto.
  - intros u v q Hu Hv. upd_cases; rewrite ?Hh; eauto.
  - intros q Hq Hl. destruct (Howner q Hq Hl) as [u [Hu Hhu]].
    exists u. split; [assumption|]. upd_cases; rewrite ?Hh; auto.
  - intros u Hu. upd_cases; auto.
Qed.

Lemma thread_ok_lock W q v u th :
  thread_ok W u th -> thread_ok (upd W q (set_lock (W q) v)) u th.
Proof.
  apply thread_ok_frame; [| |intros q' _]; upd_cases; auto.
Qed.

Lemma queue_ok_lock q w v :
  v = 0 \/ v = 1 -> queue_ok q w -> queue_ok q (set_lock w v).
Proof. unfold queue_ok; simpl. tauto. Qed.

Lemma inv_acquire s t q th' :
  Inv s -> built t ->
  holding t (thr s t) = None -> lock (wqs s q) = 0 ->
  holding t th' = Some q ->
  thread_ok (wqs s) t th' ->
  Inv (mkState (upd (wqs s) q (set_lock (wqs s q) 1)) (ctxs s)
               (upd (thr s) t th') (calls s) (dead s)).
Proof.
  intros I Ht Hnone Hfree Hh Hok. split_inv I. constructor; simpl.
  - assumption.
  - assumption.
  - intros q' Hq'. upd_cases; auto using queue_ok_lock.
  - intros u q' Hu Hq'. upd_cases; simpl; try congruence; eauto;
      try (apply Hheld in Hq'; [congruence | assumption]).
  - intros u v q' Hu Hv Hu' Hv'. upd_cases; try congruence; eauto;
      try (apply Hheld in Hv'; [congruence | assumption]);
      try (apply Hheld in Hu'; [congruence | assumption]).
  - intros q' Hq' Hl. destruct (Z.eq_dec q' q) as [->|E].
    + exists t. split; [assumption|]. now rewrite upd_eq.
    + rewrite upd_neq in Hl by assumption.
      destruct (Howner q' Hq' Hl) as [u [Hu Hhu]].
      exists u. split; [assumption|]. upd_cases; congruence.
  - intros u Hu. apply thread_ok_lock. upd_cases; auto.
Qed.

Lemma inv_release s t q th' :
  Inv s -> built t ->
  holding t (thr s t) = Some q ->
  holding t th' = None ->
  thread_ok (wqs s) t th' ->
  Inv (mkState (upd (wqs s) q (set_lock (wqs s q) 0)) (ctxs s)
               (upd (thr s) t th') (calls s) (dead s)).
Proof.
  intros I Ht Hq Hh Hok. split_inv I. constructor; simpl.
  - assumption.
  - assumption.
  - intros q' Hq'. upd_cases; auto using queue_ok_lock.
  - intros u q' Hu Hq'. upd_cases; simpl; try congruence; eauto;
      try (assert (u = t) by eauto; contradiction).
  - intros u v q' Hu Hv Hu' Hv'. upd_cases; try congruence; eauto.
  - intros q' Hq' Hl. destruct (Z.eq_dec q' q) as [->|E].
    + rewrite upd_eq in Hl. discriminate.
    + rewrite upd_neq in Hl by assumption.
      destruct (Howner q' Hq' Hl) as [u [Hu Hhu]].
      exists u. split; [assumption|]. upd_cases; congruence.
  - intros u Hu. apply thread_ok_lock. upd_cases; auto.
Qed.

(** A write to the range of queue [q] by the thread that holds its lock. *)
Lemma inv_write s t q w' th' :
  Inv s -> built t ->
  holding t (thr s t) = Some q ->
  holding t th' = Some q ->
  lock w' = lock (wqs s q) ->
  (built q -> queue_ok q w') ->
  thread_ok (upd (wqs s) q w') t th' ->
  (forall u, built u -> u <> t -> thread_ok (upd (wqs s) q w') u (thr s u)) ->
  Inv (mkState (upd (wqs s) q w') (ctxs s) (upd (thr s) t th') (calls s)
               (dead s)).
Proof.
  intros I Ht Hq Hh Hl Hqok Hok Hothers. split_inv I. constructor; simpl.
  - assumption.
  - assumption.
  - intros q' Hq'. upd_cases; auto.
  - intros u q' Hu Hq'. upd_cases; rewrite ?Hl; eauto; congruence.
  - intros u v q' Hu Hv Hu' Hv'. upd_cases; eauto;
      try (apply (Hmutex t v q'); auto; congruence);
      try (apply (Hmutex u t q'); auto; congruence).
  - intros q' Hq' Hl'.
    assert (Hl'' : lock (wqs s q') = 1) by (upd_cases; congruence).
    destruct (Howner q' Hq' Hl'') as [u [Hu Hhu]].
    exists u. split; [assumption|]. upd_cases; congruence.
  - intros u Hu. destruct (Z.eq_dec u t) as [->|E].
    + now rewrite upd_eq.
    + rewrite (upd_neq (thr s)) by assumption. auto.
Qed.


Lemma thread_ok_others s t q w' :
  Inv s -> built t -> holding t (thr s t) = Some q ->
  (forall u, built u -> u <> t -> q = u ->
             thread_ok (upd (wqs s) q w') u (thr s u)) ->
  forall u, built u -> u <> t -> thread_ok (upd (wqs s) q w') u (thr s u).
Proof.
  intros I Ht Hq Hown u Hu Hne.
  destruct (Z.eq_dec q u) as [E|E]; [auto|].
  apply thread_ok_frame with (W := wqs s).
  - now rewrite upd_neq by congruence.
  - now rewrite upd_neq by congruence.
  - intros q' Hq'. rewrite upd_neq; [auto|].
    intros ->. apply Hne. symmetry. eapply (inv_mutex I); eauto.
  - apply (inv_thread I); assumption.
Qed.

Ltac side :=
  match goal with
  | |- holding _ _ = _ => unfold holding; simpl; congruence
  | |- thread_ok _ _ _ => unfold thread_ok; simpl; rewrite ?upd_eq; simpl; lia
  | |- forall u, id _ = id _ => reflexivity
  | |- _ => idtac
  end.

Lemma thread_step_inv s t : Inv s -> built t -> Inv (thread_step common t s).
Proof.
  intros I Ht.
  pose proof (inv_id I Ht) as Hid.
  pose proof (inv_thread I Ht) as Hth.
  pose proof (inv_queue I Ht) as (Q1 & Q0 & Q2 & Q3 & Q4).
  pose proof (Hlo Ht) as Hlo_t. pose proof (Hhi Ht) as Hhi_t.
  pose proof (fun q => inv_held I (t:=t) (q:=q) Ht) as Hheld.
  unfold thread_step. rewrite Hid.
  unfold thread_ok in Hth. unfold holding in Hheld.
  destruct (thr s t) as [l item lst sc i] eqn:Hthr; simpl in *.
  destruct l; unfold with_thr, with_wq, with_ctx, with_call; simpl in *.
  - (* DrainLock *)
    unfold Lock, atomic_cmpxchg.
    destruct (Z.eqb_spec (lock (wqs s t)) 0) as [E|E]; simpl; [|assumption].
    apply inv_acquire; auto; rewrite ?Hthr; side.
  - (* DrainItem *)
    apply inv_local; auto; rewrite ?Hthr; side.
  - (* DrainNext *)
    rewrite intp_id by lia.
    apply inv_write; auto; rewrite ?Hthr; side.
    + intros _. unfold queue_ok; simpl. lia.
    + apply thread_ok_others; auto; rewrite ?Hthr; side.
      intros u _ Hne E. congruence.
  - (* DrainLast *)
    apply inv_local; auto; rewrite ?Hthr; side.
  - (* DrainUnlock *)
    unfold Unlock, atomic_cmpxchg. rewrite (Hheld t eq_refl). simpl.
    apply inv_release; auto; rewrite ?Hthr; side.
  - (* DrainTest *)
    destruct (Z.geb_spec item lst); apply inv_local; auto; rewrite ?Hthr; side.
  - (* DrainWork *)
    apply inv_local; auto; rewrite ?Hthr; side.
  - (* DrainCompleted *)
    apply inv_local; auto; rewrite ?Hthr; side.
    intros u. upd_cases; reflexivity.
  - (* StealCond *)
    destruct (Z.eqb_spec sc 0); simpl; apply inv_local; auto; rewrite ?Hthr; side.
  - (* StealFor *)
    destruct (Z.ltb_spec i (num_thread common)); [|apply inv_local; auto; rewrite ?Hthr; side].
    destruct (Z.eqb_spec i t); simpl; apply inv_local; auto; rewrite ?Hthr; side.
    unfold thread_ok; simpl. rewrite int_id by lia. lia.
  - (* StealLock *)
    unfold Lock, atomic_cmpxchg.
    destruct (Z.eqb_spec (lock (wqs s i)) 0) as [E|E]; simpl; [|assumption].
    apply inv_acquire; auto; rewrite ?Hthr; side.
  - (* StealTest *)
    destruct (Z.ltb_spec (next (wqs s i)) (last (wqs s i)));
      apply inv_local; auto; rewrite ?Hthr; side.
  - (* StealDec *)
    destruct Hth as (Hown & Hi & Hlt).
    assert (Hw : built i -> intp (last (wqs s i) - 1) = last (wqs s i) - 1).
    { intros Hb. specialize (Hlt Hb).
      destruct (inv_queue I Hb) as (A & A' & B & C & D).
      pose proof (Hlo Hb). pose proof (Hhi Hb). apply intp_id. lia. }
    apply inv_write; auto; rewrite ?Hthr; side.
    + intros Hb. rewrite (Hw Hb). specialize (Hlt Hb).
      destruct (inv_queue I Hb) as (A & A' & B & C & D).
      unfold queue_ok; simpl. lia.
    + unfold thread_ok; simpl.
      destruct (Z.eq_dec t i) as [<-|E].
      * specialize (Hlt Ht). lia.
      * rewrite (upd_neq (wqs s)) by congruence. rewrite upd_eq. simpl.
        split; [lia|split; [lia|]]. intros Hb. rewrite (Hw Hb).
        specialize (Hlt Hb). destruct (inv_queue I Hb) as (A & A' & B & C & D).
        lia.
    + apply thread_ok_others; auto; rewrite ?Hthr; side.
      intros u Hu Hne ->. rewrite (Hw Hu).
      apply thread_ok_stolen; auto.
      * intros Hh. apply Hne. eapply (inv_mutex I); eauto.
        rewrite Hthr. reflexivity.
      * apply (inv_thread I); assumption.
  - (* StealItem *)
    apply inv_local; auto; rewrite ?Hthr; side.
  - (* StealUnlock *)
    unfold Unlock, atomic_cmpxchg. rewrite (Hheld i eq_refl). simpl.
    apply inv_release; auto; rewrite ?Hthr; side.
  - (* StealWork *)
    apply inv_local; auto; rewrite ?Hthr; side.
  - (* StealCompleted *)
    apply inv_local; auto; rewrite ?Hthr; side.
    intros u. upd_cases; reflexivity.
  - (* StealMark *)
    apply inv_local; auto; rewrite ?Hthr; side.
    unfold thread_ok; simpl. rewrite int_id by lia. lia.
  - (* StealUnlockEmpty *)
    unfold Unlock, atomic_cmpxchg. rewrite (Hheld i eq_refl). simpl.
    apply inv_release; auto; rewrite ?Hthr; side.
    unfold thread_ok; simpl. rewrite int_id by lia. lia.
  - (* Ret *)
    assumption.
Qed.

Lemma exec_inv s0 s : Inv s0 -> exec common n s0 s -> Inv s.
Proof.
  intros I0 Hex. induction Hex as [|s1 s2 _ IH Hstep]; [assumption|].
  destruct Hstep as [t Ht _]. apply dispatch_worker_In in Ht.
  now apply thread_step_inv.
Qed.


(** *** Accounting of the claimed indices *)

Hypothesis Hdisj : forall q q', built q -> built q' -> q < q' -> hi q <= lo q'.

Lemma pending_frame W W' u th :
  (forall q, holding u th = Some q -> last (W' q) = last (W q)) ->
  pending W' u th = pending W u th.
Proof.
  unfold pending, holding. intros H.
  destruct (pc th); auto; rewrite (H _ eq_refl); reflexivity.
Qed.

Lemma claimed_ext W W' x :
  (forall q, built q -> next (W' q) = next (W q) /\ last (W' q) = last (W q)) ->
  claimed W x -> claimed W' x.
Proof.
  intros H (q & Hq & Hr & Hc). exists q.
  destruct (H q Hq) as [-> ->]. auto.
Qed.

Ltac split_acct A :=
  destruct A as [Hbenign Htarget Hnodup Hcalled Hpending Hunique Hcovered].

(** A step that claims nothing and calls nothing. *)
Lemma acct_same s t W' C' th' :
  Acct s -> built t ->
  (forall i, n <= i < num_thread common -> last (W' i) <= next (W' i)) ->
  (forall x, claimed W' x <-> claimed (wqs s) x) ->
  (forall u, built u -> u <> t ->
             pending W' u (thr s u) = pending (wqs s) u (thr s u)) ->
  pending W' t th' = pending (wqs s) t (thr s t) ->
  (pc th' = StealDec -> built (l_i th')) ->
  Acct (mkState W' C' (upd (thr s) t th') (calls s) (dead s)).
Proof.
  intros A Ht HB HC HP' Hp Htg. split_acct A.
  assert (HP : forall u, built u ->
                         pending W' u (upd (thr s) t th' u) =
                         pending (wqs s) u (thr s u)).
  { intros u Hu. upd_cases; auto. }
  constructor; unfold items in *; simpl.
  - assumption.
  - intros u Hu. upd_cases; auto.
  - assumption.
  - intros x Hx. apply HC. auto.
  - intros u x Hu. rewrite HP, HC by assumption. eauto.
  - intros u v x Hu Hv. rewrite !HP by assumption. eauto.
  - intros x Hx. apply HC in Hx. destruct (Hcovered x Hx) as [|[u [Hu Hpu]]].
    + now left.
    + right. exists u. rewrite HP by assumption. auto.
Qed.

Lemma acct_quiet s t W' C' th' :
  Acct s -> built t ->
  (forall q, next (W' q) = next (wqs s q) /\ last (W' q) = last (wqs s q)) ->
  pending W' t th' = pending (wqs s) t (thr s t) ->
  (pc th' = StealDec -> built (l_i th')) ->
  Acct (mkState W' C' (upd (thr s) t th') (calls s) (dead s)).
Proof.
  intros A Ht HW Hp Htg. apply acct_same; auto.
  - intros i Hi. destruct (HW i) as [-> ->]. now apply (acct_benign A).
  - intros x. split; apply claimed_ext; intros q _;
      destruct (HW q) as [-> ->]; auto.
  - intros u _ _. apply pending_frame. intros q _. apply HW.
Qed.

(** A step that claims index [y]. *)
Lemma acct_claim s t W' th' y :
  Acct s -> built t ->
  (forall i, n <= i < num_thread common -> W' i = wqs s i) ->
  (forall u, built u -> u <> t ->
             pending W' u (thr s u) = pending (wqs s) u (thr s u)) ->
  pending (wqs s) t (thr s t) = None ->
  pending W' t th' = Some y ->
  (forall x, claimed W' x <-> claimed (wqs s) x \/ x = y) ->
  ~ claimed (wqs s) y ->
  pc th' <> StealDec ->
  Acct (mkState W' (ctxs s) (upd (thr s) t th') (calls s) (dead s)).
Proof.
  intros A Ht HW HP Hnone Hsome HC Hfresh Htg. split_acct A.
  constructor; unfold items in *; simpl.
  - intros i Hi. rewrite (HW i Hi). auto.
  - intros u Hu. upd_cases; [contradiction | auto].
  - assumption.
  - intros x Hx. apply HC. auto.
  - intros u x Hu Hux. upd_cases.
    + assert (x = y) by congruence. subst x. split; [apply HC; auto|].
      intros Hin. apply Hfresh. auto.
    + rewrite HP in Hux by assumption.
      destruct (Hpending u x Hu Hux). split; [apply HC|]; auto.
  - intros u v x Hu Hv Hux Hvx. upd_cases; auto;
      repeat match goal with
             | H : pending W' ?w (thr s ?w) = _ |- _ => rewrite HP in H by auto
             end; eauto;
      assert (x = y) by congruence; subst x; exfalso;
      match goal with
      | H : pending (wqs s) ?w (thr s ?w) = Some y, B : built ?w |- _ =>
          destruct (Hpending w y B H); contradiction
      end.
  - intros x Hx. apply HC in Hx. destruct Hx as [Hx| ->].
    + destruct (Hcovered x Hx) as [|[u [Hu Hpu]]]; [now left|].
      right. exists u. split; [assumption|]. upd_cases.
      * congruence.
      * rewrite HP; auto.
    + right. exists t. split; [assumption|]. now rewrite upd_eq.
Qed.

(** A step that hands the pending index [y] to the kernel. *)
Lemma acct_call s t th' c y :
  Acct s -> built t ->
  snd c = y ->
  pending (wqs s) t (thr s t) = Some y ->
  pending (wqs s) t th' = None ->
  pc th' <> StealDec ->
  Acct (mkState (wqs s) (ctxs s) (upd (thr s) t th') (c :: calls s) (dead s)).
Proof.
  intros A Ht Hc Hsome Hnone Htg. split_acct A.
  destruct (Hpending t y Ht Hsome) as [Hcl Hnin].
  constructor; unfold items in *; simpl.
  - assumption.
  - intros u Hu. upd_cases; [contradiction | auto].
  - rewrite Hc. constructor; assumption.
  - intros x [Hx|Hx]; [congruence | auto].
  - intros u x Hu Hux. upd_cases; [congruence|].
    destruct (Hpending u x Hu Hux) as [H1 H2]. split; [assumption|].
    intros [E'|Hin]; [|contradiction].
    apply E. apply (Hunique u t x); auto. congruence.
  - intros u v x Hu Hv Hux Hvx. upd_cases; try congruence. eauto.
  - intros x Hx. destruct (Hcovered x Hx) as [|[u [Hu Hpu]]]; [auto|].
    destruct (Z.eq_dec u t) as [->|E].
    + left. left. congruence.
    + right. exists u. split; [assumption|]. now rewrite upd_neq.
Qed.


Lemma not_claimed W q y :
  built q -> lo q <= y < hi q -> next (W q) <= y < last (W q) ->
  (forall q', built q' -> lo q' <= hi q') ->
  ~ claimed W y.
Proof.
  intros Hq Hr Hy Hle (q' & Hq' & Hr' & Hc).
  destruct (Z.lt_total q q') as [L|[E|L]].
  - pose proof (Hdisj Hq Hq' L). lia.
  - subst q'. lia.
  - pose proof (Hdisj Hq' Hq L). lia.
Qed.

Lemma claimed_bump W t x :
  built t -> lo t <= next (W t) -> next (W t) < last (W t) <= hi t ->
  claimed (upd W t (set_next (W t) (next (W t) + 1))) x <->
  claimed W x \/ x = next (W t).
Proof.
  intros Ht Hl Hh. split.
  - intros (q & Hq & Hr & Hc). upd_cases; simpl in *.
    + destruct (Z.eq_dec x (next (W t))); [now right|].
      left. exists t. split; [assumption|lia].
    + left. exists q. auto.
  - intros [(q & Hq & Hr & Hc)| ->].
    + exists q. split; [assumption|]. upd_cases; simpl; lia.
    + exists t. rewrite upd_eq. simpl. split; [assumption|lia].
Qed.

Lemma claimed_bump_empty W t x :
  last (W t) <= next (W t) ->
  claimed (upd W t (set_next (W t) (next (W t) + 1))) x <-> claimed W x.
Proof.
  intros He. split; intros (q & Hq & Hr & Hc); exists q;
    (split; [assumption|]); upd_cases; simpl in *; lia.
Qed.

Lemma claimed_take W i x :
  built i -> lo i <= next (W i) -> next (W i) < last (W i) <= hi i ->
  claimed (upd W i (set_last (W i) (last (W i) - 1))) x <->
  claimed W x \/ x = last (W i) - 1.
Proof.
  intros Hi Hl Hh. split.
  - intros (q & Hq & Hr & Hc). upd_cases; simpl in *.
    + destruct (Z.eq_dec x (last (W i) - 1)); [now right|].
      left. exists i. split; [assumption|lia].
    + left. exists q. auto.
  - intros [(q & Hq & Hr & Hc)| ->].
    + exists q. split; [assumption|]. upd_cases; simpl; lia.
    + exists i. rewrite upd_eq. simpl. split; [assumption|lia].
Qed.

Hypothesis Hlohi : forall q, built q -> lo q <= hi q.

Ltac pside :=
  match goal with
  | |- pending _ _ _ = _ =>
      unfold pending; simpl; rewrite ?upd_eq; simpl; try reflexivity
  | |- forall q, next _ = next _ /\ last _ = last _ =>
      let q := fresh in intros q; upd_cases; simpl; auto
  | |- _ = StealDec -> _ => simpl; try discriminate
  | |- _ <> StealDec => simpl; discriminate
  | |- _ => idtac
  end.

Lemma thread_step_acct s t :
  Inv s -> Acct s -> built t -> Acct (thread_step common t s).
Proof.
  intros I A Ht.
  pose proof (inv_id I Ht) as Hid.
  pose proof (inv_thread I Ht) as Hth.
  pose proof (inv_queue I Ht) as (Q1 & Q0 & Q2 & Q3 & Q4).
  pose proof (Hlo Ht) as Hlo_t. pose proof (Hhi Ht) as Hhi_t.
  pose proof (fun q => inv_held I (t:=t) (q:=q) Ht) as Hheld.
  pose proof (acct_target A Ht) as Htg.
  unfold thread_step. rewrite Hid.
  unfold thread_ok in Hth. unfold holding in Hheld.
  destruct (thr s t) as [l item lst sc i] eqn:Hthr; simpl in *.
  destruct l; unfold with_thr, with_wq, with_ctx, with_call; simpl in *.
  - (* DrainLock *)
    unfold Lock, atomic_cmpxchg.
    destruct (Z.eqb_spec (lock (wqs s t)) 0) as [E|E]; simpl; [|assumption].
    apply acct_quiet; auto; rewrite ?Hthr; pside.
  - (* DrainItem *)
    apply acct_quiet; auto; rewrite ?Hthr; pside.
  - (* DrainNext *)
    rewrite intp_id by lia. destruct Hth as [-> Hle].
    assert (HP : forall u, built u -> u <> t ->
      pending (upd (wqs s) t (set_next (wqs s t) (next (wqs s t) + 1))) u
              (thr s u) = pending (wqs s) u (thr s u)).
    { intros u _ _. apply pending_frame. intros q _. upd_cases; reflexivity. }
    destruct (Z.eq_dec (next (wqs s t)) (last (wqs s t))) as [E|E].
    + apply acct_same; auto; rewrite ?Hthr; pside.
      * intros j Hj. rewrite upd_neq by (unfold built in Ht; lia).
        now apply (acct_benign A).
      * intros x. apply claimed_bump_empty. lia.
      * destruct (Z.ltb_spec (next (wqs s t)) (last (wqs s t))); [lia|reflexivity].
    + apply acct_claim with (y := next (wqs s t)); auto; rewrite ?Hthr; pside.
      * intros j Hj. rewrite upd_neq by (unfold built in Ht; lia). reflexivity.
      * destruct (Z.ltb_spec (next (wqs s t)) (last (wqs s t))); [reflexivity|lia].
      * intros x. apply claimed_bump; auto; lia.
      * apply not_claimed with (q := t); auto; lia.
  - (* DrainLast *)
    apply acct_quiet; auto; rewrite ?Hthr; pside.
  - (* DrainUnlock *)
    unfold Unlock, atomic_cmpxchg. rewrite (Hheld t eq_refl). simpl.
    apply acct_quiet; auto; rewrite ?Hthr; pside.
    destruct Hth as [_ ->]. reflexivity.
  - (* DrainTest *)
    destruct (Z.geb_spec item lst); apply acct_quiet; auto; rewrite ?Hthr; pside.
    + destruct (Z.ltb_spec item lst); [lia|reflexivity].
    + destruct (Z.ltb_spec item lst); [reflexivity|lia].
  - (* DrainWork *)
    apply acct_call with (y := item); auto; rewrite ?Hthr; pside.
  - (* DrainCompleted *)
    apply acct_quiet; auto; rewrite ?Hthr; pside.
  - (* StealCond *)
    destruct (Z.eqb_spec sc 0); simpl; apply acct_quiet; auto; rewrite ?Hthr; pside.
  - (* StealFor *)
    destruct (Z.ltb_spec i (num_thread common));
      [|apply acct_quiet; auto; rewrite ?Hthr; pside].
    destruct (Z.eqb_spec i t); simpl; apply acct_quiet; auto; rewrite ?Hthr; pside.
  - (* StealLock *)
    unfold Lock, atomic_cmpxchg.
    destruct (Z.eqb_spec (lock (wqs s i)) 0) as [E|E]; simpl; [|assumption].
    apply acct_quiet; auto; rewrite ?Hthr; pside.
  - (* StealTest *)
    destruct (Z.ltb_spec (next (wqs s i)) (last (wqs s i)));
      apply acct_quiet; auto; rewrite ?Hthr; pside.
    intros _. unfold built.
    destruct (Z_lt_le_dec i n); [lia|].
    pose proof (acct_benign A (i:=i)). lia.
  - (* StealDec *)
    specialize (Htg eq_refl).
    destruct Hth as (Hown & Hi & Hlt). specialize (Hlt Htg).
    destruct (inv_queue I Htg) as (A1 & A0 & A2 & A3 & A4).
    pose proof (Hlo Htg). pose proof (Hhi Htg).
    rewrite intp_id by lia.
    apply acct_claim with (y := last (wqs s i) - 1); auto; rewrite ?Hthr; pside.
    + intros j Hj. rewrite upd_neq by (unfold built in Htg; lia). reflexivity.
    + intros u Hu Hne. apply pending_frame. intros q Hq.
      rewrite upd_neq; [reflexivity|]. intros ->. apply Hne.
      eapply (inv_mutex I); eauto. rewrite Hthr. reflexivity.
    + intros x. apply claimed_take; auto; lia.
    + apply not_claimed with (q := i); auto; lia.
  - (* StealItem *)
    apply acct_quiet; auto; rewrite ?Hthr; pside.
  - (* StealUnlock *)
    unfold Unlock, atomic_cmpxchg. rewrite (Hheld i eq_refl). simpl.
    apply acct_quiet; auto; rewrite ?Hthr; pside.
  - (* StealWork *)
    apply acct_call with (y := item); auto; rewrite ?Hthr; pside.
  - (* StealCompleted *)
    apply acct_quiet; auto; rewrite ?Hthr; pside.
  - (* StealMark *)
    apply acct_quiet; auto; rewrite ?Hthr; pside.
  - (* StealUnlockEmpty *)
    unfold Unlock, atomic_cmpxchg. rewrite (Hheld i eq_refl). simpl.
    apply acct_quiet; auto; rewrite ?Hthr; pside.
  - (* Ret *)
    assumption.
Qed.

Lemma exec_acct s0 s :
  Inv s0 -> Acct s0 -> exec common n s0 s -> Inv s /\ Acct s.
Proof.
  intros I0 A0 Hex. induction Hex as [|s1 s2 _ IH Hstep]; [auto|].
  destruct IH as [I1 A1]. destruct Hstep as [t Ht _].
  apply dispatch_worker_In in Ht.
  split; [now apply thread_step_inv | now apply thread_step_acct].
Qed.


(** When every thread has returned, the call log is the planned ranges. *)
Lemma joined_items s :
  Inv s -> Acct s -> joined n s ->
  (forall x, 0 <= x < N -> exists q, built q /\ lo q <= x < hi q) ->
  NoDup (items s) /\ forall x, In x (items s) <-> 0 <= x < N.
Proof.
  intros I A J Hcover. split; [apply (acct_nodup A)|].
  intros x. split.
  - intros Hin. destruct (acct_called A _ Hin) as (q & Hq & Hr & _).
    pose proof (Hlo Hq). pose proof (Hhi Hq). lia.
  - intros Hx. destruct (Hcover x Hx) as (q & Hq & Hr).
    assert (Hc : claimed (wqs s) x).
    { exists q. split; [assumption|]. split; [assumption|].
      pose proof (inv_thread I Hq) as Hth. unfold thread_ok in Hth.
      rewrite (J q) in Hth by (apply dispatch_worker_In; assumption). lia. }
    destruct (acct_covered A Hc) as [|(t & Ht & Hp)]; [assumption|].
    unfold pending in Hp.
    rewrite (J t) in Hp by (apply dispatch_worker_In; assumption).
    discriminate.
Qed.

End Invariant.

(** * The dispatcher: what [body] builds *)

Lemma populate_workqueues_slot wq0 N c T j :
  _populate_workqueues wq0 N c T j =
  let w := if (0 <=? j) && (j <? T)
           then mkWorkQueue (intp (intp j * c)) (intp (intp (int (j + 1)) * c)) 0
           else wq0 j in
  if j =? int (T - 1) then set_last w N else w.
Proof.
  unfold _populate_workqueues. cbv zeta.
  set (f := fun (i : Z) (wqs : Z -> WorkQueue) => _).
  assert (Hf : forall i m k, f i m k =
            if k =? i
            then (fun i (_ : WorkQueue) =>
                    mkWorkQueue (intp (intp i * c))
                                (intp (intp (int (i + 1)) * c)) 0) i (m i)
            else m k).
  { intros i m k. unfold f, upd. rewrite !Z.eqb_refl.
    destruct (Z.eqb_spec k i); reflexivity. }
  unfold upd at 1. rewrite !(for_range_slots f _ T wq0 _ Hf).
  destruct (Z.eqb_spec j (int (T - 1))) as [->|]; reflexivity.
Qed.

Lemma populate_context_slot ctx0 T j :
  _populate_context ctx0 T j =
  if (0 <=? j) && (j <? T) then mkContext j 0 else ctx0 j.
Proof.
  unfold _populate_context.
  set (f := fun (i : Z) (ctxs : Z -> Context) => _).
  assert (Hf : forall i m k, f i m k =
            if k =? i then (fun i (_ : Context) => mkContext i 0) i (m i)
            else m k).
  { intros i m k. unfold f, upd. rewrite !Z.eqb_refl.
    destruct (Z.eqb_spec k i); reflexivity. }
  apply (for_range_slots f _ T ctx0 _ Hf).
Qed.

(** The populated queue [j] of [T] queues of [c] indices each. *)
Lemma populate_workqueues_built wq0 N c T j :
  1 <= T <= int_max -> 0 <= c -> T * c <= N <= intp_max ->
  0 <= j < T ->
  _populate_workqueues wq0 N c T j =
  mkWorkQueue (plan_lo c j) (plan_hi c T N j) 0.
Proof.
  intros HT Hc HN Hj. rewrite populate_workqueues_slot. cbv zeta.
  assert (Hjj : 0 <= j * c <= (j + 1) * c /\ (j + 1) * c <= T * c) by nia.
  unfold int_max, intp_max in *.
  destruct (Z.leb_spec 0 j); [|lia]. destruct (Z.ltb_spec j T); [|lia]. simpl.
  rewrite (int_id (z:=T - 1)) by (unfold int_max; lia).
  rewrite (int_id (z:=j + 1)) by (unfold int_max; lia).
  rewrite !(intp_id (z:=j)), !(intp_id (z:=j + 1)) by (unfold intp_max; lia).
  rewrite !intp_id by (unfold intp_max; lia).
  unfold plan_lo, plan_hi, set_last.
  destruct (Z.eqb_spec j (T - 1)); reflexivity.
Qed.

(** What [body] has decided when it reaches [_dispatch_worker]. *)
Lemma body_setup_plan TC func args dims steps wq0 ctx0 :
  1 <= TC <= int_max -> 0 <= dims 0 <= intp_max ->
  let N := dims 0 in
  let f := body_setup TC func args dims steps wq0 ctx0 in
  num_thread (f_common f) = TC /\
  f_ChunkSize f = (if N <? TC then 1 else N / TC) /\
  f_num_thread f = (if N <? TC then N else TC) /\
  f_workqueues f =
    _populate_workqueues wq0 N (f_ChunkSize f) (f_num_thread f) /\
  f_contexts f = _populate_context ctx0 (f_num_thread f).
Proof.
  intros HT HN N f. subst f. unfold body_setup. fold N.
  rewrite !(int_id (z:=TC)) by (unfold int_max in *; lia).
  rewrite (intp_id (z:=TC)) by (unfold int_max, intp_max in *; lia).
  rewrite Z.quot_div_nonneg by lia.
  assert (Hq : 0 <= N / TC <= N).
  { split; [apply Z.div_pos; lia|].
    apply Z.div_le_upper_bound; [lia|]. nia. }
  rewrite (intp_id (z:=N / TC)) by (unfold intp_max in *; lia).
  destruct (Z.ltb_spec N TC) as [Hlt|Hge].
  - rewrite Z.div_small by lia. simpl.
    rewrite (int_id (z:=N)) by (unfold int_max in *; lia). auto.
  - assert (1 <= N / TC).
    { apply Z.div_le_lower_bound; lia. }
    destruct (Z.eqb_spec (N / TC) 0); [lia|]. simpl. auto.
Qed.

(** * The chunk plan is a partition of [0, N) *)

Section Plan.

Variables c n N : Z.
Hypothesis Hc : 1 <= c.
Hypothesis Hn : n * c <= N.

Lemma plan_lo_nonneg q : built n q -> 0 <= plan_lo c q.
Proof. unfold built, plan_lo. nia. Qed.

Lemma plan_lo_hi q : built n q -> plan_lo c q <= plan_hi c n N q.
Proof.
  unfold built, plan_lo, plan_hi. intros Hq.
  destruct (Z.eqb_spec q (n - 1)); nia.
Qed.

Lemma plan_hi_bound q : built n q -> plan_hi c n N q <= N.
Proof.
  unfold built, plan_hi. intros Hq.
  destruct (Z.eqb_spec q (n - 1)); nia.
Qed.

Lemma plan_disjoint q q' :
  built n q -> built n q' -> q < q' -> plan_hi c n N q <= plan_lo c q'.
Proof.
  unfold built, plan_lo, plan_hi. intros Hq Hq' Hlt.
  destruct (Z.eqb_spec q (n - 1)); nia.
Qed.

Lemma plan_cover x :
  1 <= n -> 0 <= x < N ->
  exists q, built n q /\ plan_lo c q <= x < plan_hi c n N q.
Proof.
  intros Hn1 Hx. unfold built, plan_lo, plan_hi.
  pose proof (Z.div_mod x c ltac:(lia)) as Hdm.
  pose proof (Z.mod_pos_bound x c ltac:(lia)) as Hmb.
  assert (0 <= x / c) by (apply Z.div_pos; lia).
  destruct (Z_lt_le_dec (x / c) (n - 1)) as [Hlt|Hge].
  - exists (x / c). destruct (Z.eqb_spec (x / c) (n - 1)); [lia|]. nia.
  - exists (n - 1). rewrite Z.eqb_refl. nia.
Qed.

End Plan.

(** * The state in which the workers start *)

Lemma init_inv common n lo hi W C :
  (forall q, built n q -> W q = mkWorkQueue (lo q) (hi q) 0) ->
  (forall q, built n q -> lo q <= hi q) ->
  (forall t, built n t -> id (C t) = t) ->
  Inv common n lo hi (mkState W C (fun _ => entry) [] false).
Proof.
  intros HW Hle HC. constructor; simpl; try discriminate; auto.
  - intros q Hq. rewrite (HW q Hq). unfold queue_ok; simpl.
    specialize (Hle q Hq). lia.
  - intros q Hq. rewrite (HW q Hq). simpl. discriminate.
  - intros t Ht. unfold thread_ok; simpl. rewrite (HW t Ht). simpl. auto.
Qed.

Lemma init_acct common n lo hi W C :
  (forall q, built n q -> W q = mkWorkQueue (lo q) (hi q) 0) ->
  (forall i, n <= i < num_thread common -> last (W i) <= next (W i)) ->
  Acct common n lo hi (mkState W C (fun _ => entry) [] false).
Proof.
  intros HW HB. constructor; unfold items; simpl; try discriminate; auto.
  - constructor.
  - contradiction.
  - intros x (q & Hq & Hr & Hc). rewrite (HW q Hq) in Hc. simpl in Hc. lia.
Qed.

Lemma range_In N x : In x (range N) <-> 0 <= x < N.
Proof.
  unfold range. rewrite in_map_iff. split.
  - intros (k & <- & Hk). apply in_seq in Hk. lia.
  - intros Hx. exists (Z.to_nat x). split; [lia|]. apply in_seq. lia.
Qed.

Lemma range_NoDup N : NoDup (range N).
Proof.
  unfold range. apply Finite.Injective_map_NoDup.
  - intros a b. apply Nat2Z.inj.
  - apply seq_NoDup.
Qed.

Lemma range_length N : 0 <= N -> Z.of_nat (length (range N)) = N.
Proof. intros H. unfold range. rewrite length_map, length_seq. lia. Qed.

(** * Reachable states of a call *)

Section Call.

Variable ThreadCount : Z.
Variable func : list Z -> Z.
Variables args dimensions steps : Z -> Z.
Variable wq0 : Z -> WorkQueue.
Variable ctx0 : Z -> Context.

Let N := dimensions 0.
Let f := body_setup ThreadCount func args dimensions steps wq0 ctx0.

Hypothesis HT : 1 <= ThreadCount <= int_max.
Hypothesis HN : 0 <= N < intp_max.

Lemma call_plan :
  let n := f_num_thread f in
  let c := f_ChunkSize f in
  num_thread (f_common f) = ThreadCount /\ 0 <= n <= ThreadCount /\
  (1 <= N -> 1 <= n) /\ 1 <= c /\ n * c <= N /\
  (forall q, built n q ->
             f_workqueues f q = mkWorkQueue (plan_lo c q) (plan_hi c n N q) 0) /\
  (forall i, n <= i -> f_workqueues f i = wq0 i) /\
  (forall t, built n t -> id (f_contexts f t) = t).
Proof.
  destruct (body_setup_plan func args dimensions steps wq0 ctx0 HT)
    as (H1 & H2 & H3 & H4 & H5).
  { unfold N, intp_max in *. lia. }
  fold N in H2, H3, H4. fold f in H1, H2, H3, H4, H5. cbv zeta.
  assert (Hn : 0 <= f_num_thread f <= ThreadCount /\ 1 <= f_ChunkSize f /\
               f_num_thread f * f_ChunkSize f <= N /\
               (1 <= N -> 1 <= f_num_thread f)).
  { rewrite H2, H3. destruct (Z.ltb_spec N ThreadCount).
    - lia.
    - assert (1 <= N / ThreadCount) by (apply Z.div_le_lower_bound; lia).
      pose proof (Z.mul_div_le N ThreadCount ltac:(lia)). lia. }
  destruct Hn as (Hn1 & Hn2 & Hn3 & Hn4).
  repeat split; try lia; try assumption.
  - intros q Hq. rewrite H4. unfold built in Hq.
    apply populate_workqueues_built; unfold int_max, intp_max in *; lia.
  - intros i Hi. rewrite H4, populate_workqueues_slot. cbv zeta.
    rewrite (int_id (z:=f_num_thread f - 1)) by (unfold int_max in *; lia).
    destruct (Z.ltb_spec i (f_num_thread f)); [lia|].
    rewrite andb_false_r.
    destruct (Z.eqb_spec i (f_num_thread f - 1)); [lia|reflexivity].
  - intros t Ht. rewrite H5, populate_context_slot. unfold built in Ht.
    destruct (Z.leb_spec 0 t); [|lia].
    destruct (Z.ltb_spec t (f_num_thread f)); [|lia]. reflexivity.
Qed.

(** The lock discipline and the queue bounds hold in every state of the
    call, whatever the stack held. *)
Lemma reachable_inv s :
  reachable ThreadCount func args dimensions steps wq0 ctx0 s ->
  Inv (f_common f) (f_num_thread f) (plan_lo (f_ChunkSize f))
      (plan_hi (f_ChunkSize f) (f_num_thread f) N) s.
Proof.
  unfold reachable. fold f. intros Hex.
  destruct call_plan as (H1 & H2 & H3 & H4 & H5 & H6 & H7 & H8).
  eapply exec_inv with (N := N); try eassumption.
  - lia.
  - intros q. now apply plan_lo_nonneg.
  - intros q. now apply plan_hi_bound.
  - lia.
  - apply init_inv; auto. intros q. now apply plan_lo_hi.
Qed.

Lemma reachable_acct s :
  benign ThreadCount N wq0 ->
  reachable ThreadCount func args dimensions steps wq0 ctx0 s ->
  Acct (f_common f) (f_num_thread f) (plan_lo (f_ChunkSize f))
       (plan_hi (f_ChunkSize f) (f_num_thread f) N) s.
Proof.
  unfold reachable. fold f. intros HB Hex.
  destruct call_plan as (H1 & H2 & H3 & H4 & H5 & H6 & H7 & H8).
  eapply exec_acct with (N := N); try eassumption.
  - lia.
  - intros q. now apply plan_lo_nonneg.
  - intros q. now apply plan_hi_bound.
  - lia.
  - intros q q'. now apply plan_disjoint.
  - intros q. now apply plan_lo_hi.
  - apply init_inv; auto. intros q. now apply plan_lo_hi.
  - apply init_acct; auto. intros i Hi. rewrite H7 by lia.
    apply HB. rewrite H1 in Hi.
    destruct (body_setup_plan func args dimensions steps wq0 ctx0 HT)
      as (_ & _ & H3' & _).
    { unfold N, intp_max in *. lia. }
    fold N in H3'. fold f in H3'. rewrite H3' in Hi.
    destruct (Z.ltb_spec N ThreadCount); lia.
Qed.

Lemma joined_permutation s :
  benign ThreadCount N wq0 ->
  reachable ThreadCount func args dimensions steps wq0 ctx0 s ->
  joined (f_num_thread f) s ->
  Permutation (items s) (range N).
Proof.
  intros HB Hr J.
  pose proof (reachable_inv Hr) as I. pose proof (reachable_acct HB Hr) as A.
  destruct call_plan as (H1 & H2 & H3 & H4 & H5 & H6 & H7 & H8).
  destruct (@joined_items (f_common f) (f_num_thread f) N
                          (plan_lo (f_ChunkSize f))
                          (plan_hi (f_ChunkSize f) (f_num_thread f) N))
    with (s := s) as [Hnd Hin]; try assumption.
  - intros q. now apply plan_lo_nonneg.
  - intros q. now apply plan_hi_bound.
  - intros x Hx. apply plan_cover; lia.
  - apply NoDup_Permutation; [assumption | apply range_NoDup |].
    intros x. rewrite Hin, range_In. reflexivity.
Qed.

End Call.


(** * Schedules and executions *)

Lemma thread_step_other common t s u :
  u <> t -> thr (thread_step common t s) u = thr s u.
Proof.
  intros Hne. unfold thread_step.
  destruct (pc (thr s t));
    repeat match goal with
           | |- context [match ?x with _ => _ end] => destruct x
           end;
    simpl; rewrite ?upd_neq by assumption; reflexivity.
Qed.

Lemma run_exec common n sched s :
  schedule_ok n sched = true -> exec common n s (run common sched s).
Proof.
  unfold run, schedule_ok. revert s.
  induction sched as [|t sched IH] using rev_ind; intros s Hok.
  - apply exec_refl.
  - rewrite forallb_app in Hok. apply andb_prop in Hok as [Hok Ht].
    simpl in Ht. rewrite andb_true_r in Ht.
    rewrite fold_left_app. simpl.
    destruct (dead (fold_left _ sched s)) eqn:Hd.
    + now apply IH.
    + eapply exec_step; [now apply IH|].
      apply step_thread; [|assumption].
      apply dispatch_worker_In.
      apply andb_prop in Ht as [H1 H2]. lia.
Qed.

Lemma dispatch_worker_range n : _dispatch_worker n = range n.
Proof.
  unfold _dispatch_worker, range. destruct (Z_le_gt_dec n 0) as [Hn|Hn].
  - rewrite for_range_none by assumption.
    replace (Z.to_nat n) with 0%nat by lia. reflexivity.
  - rewrite <- (Z2Nat.id n) at 1 by lia. induction (Z.to_nat n) as [|k IH].
    + rewrite for_range_none by lia. reflexivity.
    + rewrite for_range_succ, IH, seq_S, map_app. reflexivity.
Qed.

Lemma exec_not_created common n s0 s u :
  ~ In u (_dispatch_worker n) -> exec common n s0 s -> thr s u = thr s0 u.
Proof.
  intros Hu Hex. induction Hex as [|s1 s2 _ IH Hstep]; [reflexivity|].
  destruct Hstep as [t Ht _]. rewrite thread_step_other; [assumption|].
  intros ->. contradiction.
Qed.

Lemma exec_dead common n s s' :
  dead s = true -> exec common n s s' -> s' = s.
Proof.
  intros Hd Hex. induction Hex as [|s1 s2 _ IH Hstep]; [reflexivity|].
  subst s1. destruct Hstep as [t _ Ha]. congruence.
Qed.

(** * Chunk planning *)

(** C5.  For [N >= T >= 1] and [chunk = N / T], [_populate_workqueues] leaves
    queue [i] with the range [i*chunk, (i+1)*chunk) and the lock free, except
    that the last queue ends at [N]: it holds [chunk + N mod T] indices, the
    whole remainder of the division. *)
Theorem populate_workqueues_ranges wq0 N T chunk :
  1 <= T <= int_max -> T <= N <= intp_max -> chunk = N / T ->
  let W := _populate_workqueues wq0 N chunk T in
  (forall i, 0 <= i < T - 1 ->
             W i = mkWorkQueue (i * chunk) ((i + 1) * chunk) 0) /\
  W (T - 1) = mkWorkQueue ((T - 1) * chunk) N 0 /\
  N - (T - 1) * chunk = chunk + N mod T.
Proof.
  intros HT HN Hc W.
  assert (Hq : 1 <= chunk).
  { subst chunk. apply Z.div_le_lower_bound; lia. }
  assert (Hm : T * chunk <= N).
  { subst chunk. apply Z.mul_div_le. lia. }
  assert (HW : forall i, 0 <= i < T ->
                W i = mkWorkQueue (plan_lo chunk i) (plan_hi chunk T N i) 0).
  { intros i Hi. apply populate_workqueues_built; lia. }
  split; [|split].
  - intros i Hi. rewrite HW by lia. unfold plan_lo, plan_hi.
    destruct (Z.eqb_spec i (T - 1)); [lia|reflexivity].
  - rewrite HW by lia. unfold plan_lo, plan_hi.
    now rewrite Z.eqb_refl.
  - pose proof (Z.div_mod N T ltac:(lia)). subst chunk. lia.
Qed.

(** [N = 10], [T = 3]: the ranges [0,3), [3,6), [6,10). *)
Lemma populate_workqueues_10_3 :
  let W := _populate_workqueues zero_queues 10 3 3 in
  W 0 = mkWorkQueue 0 3 0 /\ W 1 = mkWorkQueue 3 6 0 /\
  W 2 = mkWorkQueue 6 10 0 /\ 10 - 2 * 3 = 3 + 10 mod 3.
Proof.
  destruct (@populate_workqueues_ranges zero_queues 10 3 3)
    as (Hi & Hlast & Hrem).
  - unfold int_max. lia.
  - unfold intp_max. lia.
  - reflexivity.
  - cbv zeta. split; [|split; [|split]].
    + apply (Hi 0). lia.
    + apply (Hi 1). lia.
    + exact Hlast.
    + exact Hrem.
Defined.

(** C4, at [N = 0] with [ThreadCount = 1].  The chunk size falls back to 1 and
    the thread count to 0, and no thread is created; but
    [_populate_workqueues] still stores [N] into the [last] field of slot
    [num_thread - 1 = -1], in front of the array, and the debug check adds up
    the [completed] field of a context that was never populated: with 7 left
    there on the stack the call ends in [unreachable]. *)
Theorem empty_call_writes_slot_before_array :
  let f := body_setup 1 kernel0 no_args (dims 0) no_args
                      stale_fives stale_contexts in
  f_ChunkSize f = 1 /\ f_num_thread f = 0 /\
  _dispatch_worker (f_num_thread f) = [] /\
  last (stale_fives (-1)) = 5 /\ last (f_workqueues f (-1)) = 0 /\
  completed (f_contexts f 0) = 7 /\
  body 1 kernel0 no_args (dims 0) no_args stale_fives stale_contexts
       (spawn f) Unreachable.
Proof.
  cbv zeta. repeat split; try reflexivity.
  - apply exec_refl.
  - right. repeat split; try reflexivity. intros t Ht. destruct Ht.
Qed.

(** * Calls that fall back to fewer threads *)

(** C1, at [N = 1] with [ThreadCount = 2].  One queue is populated and one
    thread created, but [common.num_thread] still reads 2, so the sweep of the
    stealing phase visits slot 1 of the queue array.  With a stale free queue
    [0, 1) left there on the stack, the thread takes index 0 from it after
    having drained index 0 from its own queue: the kernel runs twice on
    index 0, then the thread returns. *)
Theorem stale_num_thread_repeats_index :
  let f := body_setup 2 kernel0 no_args (dims 1) no_args
                      stale_queues zero_contexts in
  let s := solo (f_common f) 0 40 (spawn f) in
  f_num_thread f = 1 /\ num_thread (f_common f) = 2 /\
  reachable 2 kernel0 no_args (dims 1) no_args stale_queues zero_contexts s /\
  joined (f_num_thread f) s /\ dead s = false /\
  calls s = [(0, 0); (0, 0)].
Proof.
  cbv zeta. split; [reflexivity|]. split; [reflexivity|].
  split; [|split; [|split]].
  - apply run_exec. reflexivity.
  - intros t Ht. vm_compute in Ht. destruct Ht as [<-|[]]. reflexivity.
  - reflexivity.
  - reflexivity.
Qed.

(** C2, at [N = 1] with [ThreadCount = 2].  The queue slots hold zeros, so
    the kernel runs exactly once, on index 0; the check nevertheless adds the
    [completed] field of [contexts[1]], which no one populated, and with 7
    left there the total is 8: the call ends in [unreachable]. *)
Theorem stale_context_fails_check :
  let f := body_setup 2 kernel0 no_args (dims 1) no_args
                      zero_queues stale_contexts in
  let s := solo (f_common f) 0 40 (spawn f) in
  items s = range 1 /\
  completed (ctxs s 0) = 1 /\ completed (ctxs s 1) = 7 /\
  total_completed 2 (ctxs s) = 8 /\
  body 2 kernel0 no_args (dims 1) no_args zero_queues stale_contexts
       s Unreachable.
Proof.
  cbv zeta. repeat (split; [reflexivity|]). split.
  - apply run_exec. reflexivity.
  - right. split; [reflexivity|]. split; [|reflexivity].
    intros t Ht. vm_compute in Ht. destruct Ht as [<-|[]]. reflexivity.
Qed.

(** C3 as stated fails at [N = 1], [ThreadCount = 1]: the claim that finds the
    queue empty has incremented [next] as well, to 2, past [last = 1 = N]. *)
Lemma drained_queue_next_exceeds_last :
  ~ (forall s,
       reachable 1 kernel0 no_args (dims 1) no_args
                 zero_queues zero_contexts s ->
       0 <= next (wqs s 0) <= last (wqs s 0) /\ last (wqs s 0) <= dims 1 0).
Proof.
  intros H.
  set (f := body_setup 1 kernel0 no_args (dims 1) no_args
                       zero_queues zero_contexts).
  specialize (H (solo (f_common f) 0 16 (spawn f))).
  assert (Hr : reachable 1 kernel0 no_args (dims 1) no_args
                         zero_queues zero_contexts
                         (solo (f_common f) 0 16 (spawn f))).
  { apply run_exec. reflexivity. }
  specialize (H Hr). vm_compute in H. destruct H as [[_ H] _]. apply H.
  reflexivity.
Qed.

(** * How a step changes a populated queue *)

Section QueueSteps.

Variable common : ContextCommon.
Variables n N : Z.
Variables lo hi : Z -> Z.

Local Abbreviation built := (built n).
Local Abbreviation Inv := (Inv common n lo hi).

Hypothesis HN : N < intp_max.
Hypothesis Hlo : forall q, built q -> 0 <= lo q.
Hypothesis Hhi : forall q, built q -> hi q <= N.

Lemma thread_step_queue s t q :
  Inv s -> built t -> built q ->
  let w := wqs s q in
  let w' := wqs (thread_step common t s) q in
  (next w' = next w \/
   next w' = next w + 1 /\ t = q /\ pc (thr s t) = DrainNext) /\
  (last w' = last w \/
   last w' = last w - 1 /\ t <> q /\ pc (thr s t) = StealDec /\
   l_i (thr s t) = q) /\
  (next w' <> next w \/ last w' <> last w ->
   lock w = 1 /\ holding t (thr s t) = Some q).
Proof.
  intros I Ht Hq.
  pose proof (inv_id I Ht) as Hid.
  pose proof (inv_thread I Ht) as Hth.
  pose proof (inv_queue I Hq) as (Q1 & Q0 & Q2 & Q3 & Q4).
  pose proof (Hlo Hq) as Hlo_q. pose proof (Hhi Hq) as Hhi_q.
  pose proof (inv_held I (t:=t) (q:=q) Ht) as Hheld.
  cbv zeta. unfold thread_step. rewrite Hid.
  unfold thread_ok in Hth. unfold holding in *.
  destruct (thr s t) as [l item lst sc i] eqn:Hthr; simpl in *.
  destruct l; unfold Lock, Unlock, atomic_cmpxchg; simpl in *;
    repeat match goal with
           | |- context [if ?b then _ else _] => destruct b
           end;
    unfold with_thr, with_wq, with_ctx, with_call, kill; simpl;
    upd_cases; simpl;
    try (split; [left; reflexivity | split; [left; reflexivity | intros [H|H]; congruence]]).
  - (* DrainNext, the thread's own queue *)
    rewrite intp_id by lia. specialize (Hheld eq_refl).
    split; [right; auto|]. split; [left; reflexivity|]. auto.
  - (* StealDec, the queue stolen from *)
    destruct Hth as (Hown & Hi & Hlt). specialize (Hlt Hq).
    rewrite intp_id by lia. specialize (Hheld eq_refl).
    split; [left; reflexivity|]. split; [|auto].
    right. repeat split; auto. intros ->. lia.
Qed.

End QueueSteps.

(** C3, amended.  In every state of the worker phase, a populated queue has
    [0 <= next <= last + 1] and [0 <= last <= N]; [next <= last] while the
    owner is in its drain loop outside the window between its increment and
    its test, and [next = last + 1] once the owner has left the loop.  A step
    changes [next] only by the owner's increment and [last] only by a thief's
    decrement, and a step that changes either is taken by the thread that
    holds the lock of that queue. *)
Theorem workqueue_invariant TC func args dimensions steps wq0 ctx0 s t q :
  1 <= TC <= int_max -> 0 <= dimensions 0 < intp_max ->
  let N := dimensions 0 in
  let f := body_setup TC func args dimensions steps wq0 ctx0 in
  reachable TC func args dimensions steps wq0 ctx0 s ->
  In t (_dispatch_worker (f_num_thread f)) ->
  0 <= q < f_num_thread f ->
  let w := wqs s q in
  let w' := wqs (thread_step (f_common f) t s) q in
  (0 <= next w <= last w + 1 /\ 0 <= last w <= N) /\
  match pc (thr s q) with
  | DrainLock | DrainItem | DrainNext | DrainWork | DrainCompleted =>
      next w <= last w
  | DrainLast | DrainUnlock | DrainTest => True
  | _ => next w = last w + 1
  end /\
  (next w' = next w \/
   next w' = next w + 1 /\ t = q /\ pc (thr s t) = DrainNext) /\
  (last w' = last w \/
   last w' = last w - 1 /\ t <> q /\ pc (thr s t) = StealDec /\
   l_i (thr s t) = q) /\
  (next w' <> next w \/ last w' <> last w ->
   lock w = 1 /\ holding t (thr s t) = Some q).
Proof.
  intros HT HN N f Hr Ht Hq w w'.
  pose proof (@reachable_inv TC func args dimensions steps wq0 ctx0 HT HN s Hr)
    as I.
  fold N in I. fold f in I.
  destruct (@call_plan TC func args dimensions steps wq0 ctx0 HT HN)
    as (H1 & H2 & H3 & H4 & H5 & H6 & H7 & H8).
  fold N in H3, H5, H6. fold f in H1, H2, H3, H4, H5, H6, H7, H8.
  apply dispatch_worker_In in Ht.
  assert (Hlo : forall k, built (f_num_thread f) k ->
                          0 <= plan_lo (f_ChunkSize f) k).
  { intros k. apply plan_lo_nonneg. lia. }
  assert (Hhi : forall k, built (f_num_thread f) k ->
                  plan_hi (f_ChunkSize f) (f_num_thread f) N k <= N).
  { intros k. apply plan_hi_bound; lia. }
  pose proof (inv_queue I Hq) as (Q1 & Q0 & Q2 & Q3 & Q4).
  pose proof (Hlo q Hq). pose proof (Hhi q Hq). fold w in Q1, Q0, Q2, Q3.
  split; [lia|]. split.
  - pose proof (inv_thread I Hq) as Hth. unfold thread_ok in Hth.
    fold w in Hth. destruct (pc (thr s q)); try exact I0; lia.
  - subst w w'.
    eapply (@thread_step_queue (f_common f) (f_num_thread f) N); eauto. lia.
Qed.

(** Thread 0 of a call on 4 indices with 2 threads steals from queue 1. *)
Lemma workqueue_invariant_stealing :
  let N := dims 4 0 in
  let s := about_to_steal in
  let w := wqs s 1 in
  let w' := wqs (thread_step (f_common call_4_2) 0 s) 1 in
  (0 <= next w <= last w + 1 /\ 0 <= last w <= N) /\
  match pc (thr s 1) with
  | DrainLock | DrainItem | DrainNext | DrainWork | DrainCompleted =>
      next w <= last w
  | DrainLast | DrainUnlock | DrainTest => True
  | _ => next w = last w + 1
  end /\
  (next w' = next w \/
   next w' = next w + 1 /\ 0 = 1 /\ pc (thr s 0) = DrainNext) /\
  (last w' = last w \/
   last w' = last w - 1 /\ 0 <> 1 /\ pc (thr s 0) = StealDec /\
   l_i (thr s 0) = 1) /\
  (next w' <> next w \/ last w' <> last w ->
   lock w = 1 /\ holding 0 (thr s 0) = Some 1).
Proof.
  apply (@workqueue_invariant 2 kernel0 no_args (dims 4) no_args
                              zero_queues zero_contexts about_to_steal 0 1).
  - unfold int_max. lia.
  - unfold dims, intp_max. lia.
  - apply run_exec. reflexivity.
  - vm_compute. auto.
  - vm_compute. split; [discriminate | reflexivity].
Defined.

(** * The spin lock *)

(** C8.  [Unlock] exchanges the lock word from 1 to 0.  A thread that
    executes it on a queue whose lock word is 1 leaves the word at 0 and goes
    on; on any other lock word the program is killed: the queues are left as
    they are and no thread takes another step. *)
Theorem unlock_kills_on_unexpected_state common t s w :
  unlock_target (id (ctxs s t)) (thr s t) = Some w ->
  let s' := thread_step common t s in
  Unlock (wqs s w) =
    (if lock (wqs s w) =? 1 then Some (set_lock (wqs s w) 0) else None) /\
  (lock (wqs s w) = 1 ->
   dead s' = dead s /\ wqs s' w = set_lock (wqs s w) 0 /\
   pc (thr s' t) <> pc (thr s t)) /\
  (lock (wqs s w) <> 1 ->
   dead s' = true /\ (forall q, wqs s' q = wqs s q) /\ calls s' = calls s /\
   forall n s'', exec common n s' s'' -> s'' = s').
Proof.
  intros Hw s'. subst s'. unfold unlock_target in Hw.
  assert (HU : Unlock (wqs s w) =
               if lock (wqs s w) =? 1 then Some (set_lock (wqs s w) 0)
               else None).
  { unfold Unlock, atomic_cmpxchg. destruct (lock (wqs s w) =? 1); reflexivity. }
  split; [exact HU|].
  unfold thread_step.
  destruct (pc (thr s t)) eqn:Hpc; try discriminate;
    injection Hw as Hw; rewrite Hw, HU;
    (split; intros Hl;
     [ rewrite Hl; simpl; rewrite !upd_eq; simpl;
       repeat split; try reflexivity; discriminate
     | destruct (Z.eqb_spec (lock (wqs s w)) 1) as [|_]; [contradiction|];
       simpl; repeat split; try reflexivity;
       intros m s'' Hex; now apply (exec_dead (common := common) (n := m)) ]).
Qed.

(** The lock word of a queue about to be released is forced to 7: the step
    kills the program. *)
Lemma unlock_corrupted_lock :
  let s' := thread_step broadcast_common 0 corrupted_lock in
  dead s' = true /\ (forall q, wqs s' q = wqs corrupted_lock q) /\
  calls s' = calls corrupted_lock /\
  forall n s'', exec broadcast_common n s' s'' -> s'' = s'.
Proof.
  apply (@unlock_kills_on_unexpected_state broadcast_common 0 corrupted_lock 0).
  - reflexivity.
  - vm_compute. discriminate.
Defined.

(** * The kernel invoker *)



(** * What a thread does while it holds a lock *)

Section LockedSteps.

Variable common : ContextCommon.
Variable n : Z.
Variables lo hi : Z -> Z.

Local Abbreviation built := (built n).
Local Abbreviation Inv := (Inv common n lo hi).

Lemma thread_step_effects s t :
  Inv s -> built t ->
  let s' := thread_step common t s in
  (calls s' = calls s \/
   exists x, calls s' = (t, x) :: calls s /\
             pending (wqs s) t (thr s t) = Some x) /\
  (calls s' <> calls s \/ completed (ctxs s' t) <> completed (ctxs s t) ->
   holding t (thr s t) = None /\ forall q, wqs s' q = wqs s q) /\
  (forall q, holding t (thr s t) = Some q ->
     lock (wqs s q) = 1 /\ calls s' = calls s /\
     (forall u, ctxs s' u = ctxs s u) /\
     forall q', q' <> q -> wqs s' q' = wqs s q').
Proof.
  intros I Ht.
  pose proof (inv_id I Ht) as Hid.
  pose proof (fun q => inv_held I (t:=t) (q:=q) Ht) as Hheld.
  cbv zeta. unfold thread_step. rewrite Hid.
  unfold holding, pending in *.
  destruct (thr s t) as [l item lst sc i] eqn:Hthr; simpl in *.
  destruct l; unfold Lock, Unlock, atomic_cmpxchg; simpl in *;
    repeat match goal with
           | |- context [if ?b then _ else _] => destruct b
           end;
    unfold with_thr, with_wq, with_ctx, with_call, kill; simpl;
    (split; [first [left; reflexivity | right; eexists; split; reflexivity]|]);
    (split;
     [ intros [H|H]; try congruence; try (split; [reflexivity|]; reflexivity);
       try (rewrite upd_eq in H; simpl in H);
       split; reflexivity
     | intros q Hq; try discriminate; injection Hq as <-;
       (split; [apply Hheld; reflexivity|]);
       (split; [reflexivity|]);
       (split; [reflexivity|]);
       intros q' Hne; rewrite ?upd_neq by assumption; reflexivity ]).
Qed.

End LockedSteps.

(** C10.  A step that enters the kernel or increments [completed] is taken
    by a thread that holds no lock: it leaves every queue as it is, the
    kernel gets the index the thread had claimed, and a populated queue that
    is locked at that moment is locked by another thread.  A step of a thread
    that holds the lock of a queue calls nothing, writes no context, and
    leaves every other queue as it is. *)
Theorem kernel_runs_outside_locks TC func args dimensions steps wq0 ctx0 s t :
  1 <= TC <= int_max -> 0 <= dimensions 0 < intp_max ->
  let f := body_setup TC func args dimensions steps wq0 ctx0 in
  let n := f_num_thread f in
  reachable TC func args dimensions steps wq0 ctx0 s ->
  In t (_dispatch_worker n) ->
  let s' := thread_step (f_common f) t s in
  (calls s' = calls s \/
   exists x, calls s' = (t, x) :: calls s /\
             pending (wqs s) t (thr s t) = Some x) /\
  (calls s' <> calls s \/ completed (ctxs s' t) <> completed (ctxs s t) ->
   holding t (thr s t) = None /\
   (forall q, wqs s' q = wqs s q) /\
   forall q, 0 <= q < n -> lock (wqs s q) = 1 ->
     exists u, u <> t /\ In u (_dispatch_worker n) /\
               holding u (thr s u) = Some q) /\
  (forall q, holding t (thr s t) = Some q ->
     lock (wqs s q) = 1 /\ calls s' = calls s /\
     (forall u, ctxs s' u = ctxs s u) /\
     forall q', q' <> q -> wqs s' q' = wqs s q').
Proof.
  intros HT HN f n Hr Ht s'.
  pose proof (@reachable_inv TC func args dimensions steps wq0 ctx0 HT HN s Hr)
    as I.
  fold f in I. fold n in I.
  apply dispatch_worker_In in Ht.
  destruct (thread_step_effects I Ht) as (Hcalls & Hout & Hin).
  fold s' in Hcalls, Hout, Hin.
  split; [exact Hcalls|]. split; [|exact Hin].
  intros Hch. destruct (Hout Hch) as [Hnone Hsame].
  split; [exact Hnone|]. split; [exact Hsame|].
  intros q Hq Hl. destruct (inv_owner I Hq Hl) as (u & Hu & Hhu).
  exists u. split; [congruence|]. split; [|exact Hhu].
  now apply dispatch_worker_In.
Qed.

(** Thread 0 of a call on 4 indices with 2 threads enters the kernel. *)
Lemma kernel_runs_outside_locks_working :
  let n := f_num_thread call_4_2 in
  let s := about_to_work in
  let s' := thread_step (f_common call_4_2) 0 s in
  (calls s' = calls s \/
   exists x, calls s' = (0, x) :: calls s /\
             pending (wqs s) 0 (thr s 0) = Some x) /\
  (calls s' <> calls s \/ completed (ctxs s' 0) <> completed (ctxs s 0) ->
   holding 0 (thr s 0) = None /\
   (forall q, wqs s' q = wqs s q) /\
   forall q, 0 <= q < n -> lock (wqs s q) = 1 ->
     exists u, u <> 0 /\ In u (_dispatch_worker n) /\
               holding u (thr s u) = Some q) /\
  (forall q, holding 0 (thr s 0) = Some q ->
     lock (wqs s q) = 1 /\ calls s' = calls s /\
     (forall u, ctxs s' u = ctxs s u) /\
     forall q', q' <> q -> wqs s' q' = wqs s q').
Proof.
  apply (@kernel_runs_outside_locks 2 kernel0 no_args (dims 4) no_args
                                    zero_queues zero_contexts about_to_work 0).
  - unfold int_max. lia.
  - unfold dims, intp_max. lia.
  - apply run_exec. reflexivity.
  - vm_compute. auto.
Defined.

(** * The stealing phase of one thread *)

Lemma solo_S common t k s :
  solo common t (S k) s =
  solo common t k (if dead s then s else thread_step common t s).
Proof. reflexivity. Qed.

Lemma solo_add common t a b s :
  solo common t (a + b) s = solo common t b (solo common t a s).
Proof.
  unfold solo, run. now rewrite repeat_app, fold_left_app.
Qed.

Lemma solo_0 common t s : solo common t 0 s = s.
Proof. reflexivity. Qed.

Arguments solo : simpl never.

Ltac st_norm :=
  cbv [with_thr with_wq with_ctx with_call kill goto set_item set_l_last
       set_steal_continue set_i set_next set_last set_lock set_completed
       wqs ctxs thr calls dead pc l_item l_last l_steal_continue l_i
       next last lock id completed negb].

Ltac st_norm_in H :=
  cbv [with_thr with_wq with_ctx with_call kill goto set_item set_l_last
       set_steal_continue set_i set_next set_last set_lock set_completed
       wqs ctxs thr calls dead pc l_item l_last l_steal_continue l_i
       next last lock id completed negb] in H.

Ltac st_norm_all :=
  cbv [with_thr with_wq with_ctx with_call kill goto set_item set_l_last
       set_steal_continue set_i set_next set_last set_lock set_completed
       wqs ctxs thr calls dead pc l_item l_last l_steal_continue l_i
       next last lock id completed negb] in *.

(** One step of a solo run recorded in [E : s' = solo common t (S k) s0]. *)
Ltac solo_step E :=
  rewrite solo_S in E; st_norm_in E;
  unfold thread_step in E at 1; unfold Lock, Unlock, atomic_cmpxchg in E;
  st_norm_in E;
  rewrite ?upd_eq, ?Z.eqb_refl in E; st_norm_in E.

Lemma steal_check_work common t s :
  dead s = false -> pc (thr s t) = StealLock ->
  let th := thr s t in
  let i := l_i th in
  let w := wqs s i in
  lock w = 0 -> next w < last w ->
  - 2 ^ 63 < last w <= intp_max -> - 2 ^ 31 <= i + 1 <= int_max ->
  let item := last w - 1 in
  let s5 := solo common t 5 s in
  let s8 := solo common t 8 s in
  (wqs s5 i = mkWorkQueue (next w) item 0 /\ calls s5 = calls s /\
   pc (thr s5 t) = StealWork /\ l_item (thr s5 t) = item) /\
  dead s8 = false /\
  (forall u, id (ctxs s8 u) = id (ctxs s u)) /\
  completed (ctxs s8 t) = intp (completed (ctxs s t) + 1) /\
  wqs s8 i = mkWorkQueue (next w) item 0 /\
  (forall q, q <> i -> wqs s8 q = wqs s q) /\
  calls s8 = (id (ctxs s t), item) :: calls s /\
  thr s8 t = mkThread StealFor item (l_last th) 1 (i + 1) /\
  (forall u, u <> t -> thr s8 u = thr s u).
Proof.
  intros Hd Hpc th i w Hl Hlt Hrep Hi item s5 s8.
  subst th i w item.
  destruct s as [W C T cs d]. st_norm_all. subst d.
  destruct (T t) as [l it lst sc i] eqn:Hthr. subst l.
  destruct (W i) as [nx la lk] eqn:Hw. subst lk.
  assert (Hlt' : (nx <? la) = true) by (apply Z.ltb_lt; assumption).
  assert (Hdec : intp (la - 1) = la - 1)
    by (apply intp_id; unfold intp_max in *; lia).
  assert (E5 : s5 = solo common t 5 (mkState W C T cs false)) by reflexivity.
  assert (E8 : s8 = solo common t 3 s5).
  { subst s5 s8. now rewrite <- solo_add. }
  clearbody s5 s8.
  do 5 (solo_step E5; rewrite ?Hthr, ?Hw in E5; st_norm_in E5;
        rewrite ?Hlt', ?Hdec, ?Z.eqb_refl in E5; st_norm_in E5).
  rewrite solo_0 in E5. subst s5.
  do 3 (solo_step E8).
  rewrite solo_0 in E8. rewrite (int_id (z := i + 1)) in E8 by assumption.
  subst s8. rewrite !upd_eq.
  repeat split; try reflexivity.
  - intros u. upd_cases; reflexivity.
  - intros q Hq. rewrite !upd_neq by assumption. reflexivity.
  - intros u Hu. rewrite !upd_neq by assumption. reflexivity.
Qed.

Lemma steal_check_empty common t s :
  dead s = false -> pc (thr s t) = StealLock ->
  let th := thr s t in
  let i := l_i th in
  let w := wqs s i in
  lock w = 0 -> last w <= next w -> - 2 ^ 31 <= i + 1 <= int_max ->
  let s3 := solo common t 3 s in
  lock (wqs (solo common t 1 s) i) = 1 /\
  dead s3 = false /\
  (forall u, ctxs s3 u = ctxs s u) /\
  (forall q, wqs s3 q = wqs s q) /\
  calls s3 = calls s /\
  thr s3 t = mkThread StealFor (l_item th) (l_last th)
                      (l_steal_continue th) (i + 1).
Proof.
  intros Hd Hpc th i w Hl Hle Hi s3.
  subst th i w.
  assert (E1 : exists s1, s1 = solo common t 1 s) by eauto.
  destruct E1 as [s1 E1]. rewrite <- E1.
  destruct s as [W C T cs d]. st_norm_all. subst d.
  destruct (T t) as [l it lst sc i] eqn:Hthr. subst l.
  destruct (W i) as [nx la lk] eqn:Hw. subst lk.
  assert (Hle' : (nx <? la) = false) by (apply Z.ltb_ge; assumption).
  assert (E3 : s3 = solo common t 3 (mkState W C T cs false)) by reflexivity.
  clearbody s3.
  solo_step E1; rewrite ?Hthr, ?Hw in E1; st_norm_in E1;
    rewrite ?Z.eqb_refl in E1; st_norm_in E1.
  rewrite solo_0 in E1.
  do 3 (solo_step E3; rewrite ?Hthr, ?Hw in E3; st_norm_in E3;
        rewrite ?Hle', ?Z.eqb_refl in E3; st_norm_in E3).
  rewrite solo_0 in E3. rewrite (int_id (z := i + 1)) in E3 by assumption.
  subst s1 s3. rewrite !upd_eq.
  repeat split; try reflexivity.
  intros q. upd_cases; congruence.
Qed.

Lemma steal_for_step common t s :
  dead s = false -> pc (thr s t) = StealFor ->
  let th := thr s t in
  let i := l_i th in
  let tid := id (ctxs s t) in
  (i < num_thread common -> - 2 ^ 31 <= i + 1 <= int_max) ->
  let s1 := solo common t 1 s in
  dead s1 = false /\
  (forall u, ctxs s1 u = ctxs s u) /\
  (forall q, wqs s1 q = wqs s q) /\
  calls s1 = calls s /\
  thr s1 t =
    (if i <? num_thread common
     then if i =? tid
          then mkThread StealFor (l_item th) (l_last th)
                        (l_steal_continue th) (i + 1)
          else mkThread StealLock (l_item th) (l_last th)
                        (l_steal_continue th) i
     else mkThread StealCond (l_item th) (l_last th)
                   (l_steal_continue th) i).
Proof.
  intros Hd Hpc th i tid Hi s1. subst th i tid.
  assert (E1 : s1 = solo common t 1 s) by reflexivity. clearbody s1.
  destruct s as [W C T cs d]. st_norm_all. subst d.
  destruct (T t) as [l it lst sc i] eqn:Hthr. subst l.
  solo_step E1; rewrite ?Hthr in E1; st_norm_in E1. rewrite solo_0 in E1.
  subst s1.
  destruct (Z.ltb_spec i (num_thread common));
    [rewrite (int_id (z := i + 1)) by auto;
     destruct (i =? (let (id0, _) := C t in id0))|];
    st_norm; rewrite upd_eq; repeat split; reflexivity.
Qed.

Lemma steal_cond_step common t s :
  dead s = false -> pc (thr s t) = StealCond ->
  let th := thr s t in
  let s1 := solo common t 1 s in
  dead s1 = false /\
  (forall u, ctxs s1 u = ctxs s u) /\
  (forall q, wqs s1 q = wqs s q) /\
  calls s1 = calls s /\
  thr s1 t =
    (if l_steal_continue th =? 0
     then mkThread Ret (l_item th) (l_last th) (l_steal_continue th) (l_i th)
     else mkThread StealFor (l_item th) (l_last th) 0 0).
Proof.
  intros Hd Hpc th s1. subst th.
  assert (E1 : s1 = solo common t 1 s) by reflexivity. clearbody s1.
  destruct s as [W C T cs d]. st_norm_all. subst d.
  destruct (T t) as [l it lst sc i] eqn:Hthr. subst l.
  solo_step E1; rewrite ?Hthr in E1; st_norm_in E1. rewrite solo_0 in E1.
  subst s1.
  destruct (sc =? 0); st_norm; rewrite upd_eq; repeat split; reflexivity.
Qed.

(** A sweep from slot [l_i] on, with every peer lock free: the thread comes
    back to the loop condition; if no peer had work, nothing was called and
    [steal_continue] is as before; if some peer had work, [steal_continue]
    is 1 and the kernel was called. *)
Lemma steal_sweep common t (k : nat) :
  forall s,
  dead s = false -> pc (thr s t) = StealFor ->
  0 <= l_i (thr s t) ->
  (Z.to_nat (num_thread common - l_i (thr s t)) <= k)%nat ->
  num_thread common <= int_max ->
  (forall i, l_i (thr s t) <= i < num_thread common -> i <> id (ctxs s t) ->
             lock (wqs s i) = 0 /\ - 2 ^ 63 < last (wqs s i) <= intp_max) ->
  exists m,
    let s' := solo common t m s in
    dead s' = false /\ pc (thr s' t) = StealCond /\
    (l_steal_continue (thr s t) = 1 -> l_steal_continue (thr s' t) = 1) /\
    (length (calls s) <= length (calls s'))%nat /\
    ((forall i, l_i (thr s t) <= i < num_thread common ->
                i <> id (ctxs s t) -> last (wqs s i) <= next (wqs s i)) ->
     calls s' = calls s /\
     l_steal_continue (thr s' t) = l_steal_continue (thr s t) /\
     forall q, wqs s' q = wqs s q) /\
    ((exists i, l_i (thr s t) <= i < num_thread common /\
                i <> id (ctxs s t) /\ next (wqs s i) < last (wqs s i)) ->
     l_steal_continue (thr s' t) = 1 /\
     (length (calls s) < length (calls s'))%nat).
Proof.
  induction k as [|k IH]; intros s Hd Hpc H0 Hk Hnt Hfree;
    (destruct (Z_lt_le_dec (l_i (thr s t)) (num_thread common)) as [Hlt|Hge];
     [|(* the sweep is over *)
      destruct (@steal_for_step common t s Hd Hpc) as (D1 & C1 & W1 & K1 & T1);
      [intros; unfold int_max in *; lia|];
      destruct (Z.ltb_spec (l_i (thr s t)) (num_thread common)); [lia|];
      exists 1%nat; cbv zeta; rewrite T1, K1; simpl;
      split; [assumption|]; split; [reflexivity|]; split; [auto|];
      split; [lia|]; split;
      [intros _; auto | intros (i & Hi & _); lia]]).
  - lia.
  - destruct (@steal_for_step common t s Hd Hpc) as (D1 & C1 & W1 & K1 & T1);
      [intros; unfold int_max in *; lia|].
    destruct (Z.ltb_spec (l_i (thr s t)) (num_thread common)); [|lia].
    set (s1 := solo common t 1 s) in *.
    destruct (Z.eqb_spec (l_i (thr s t)) (id (ctxs s t))) as [Hself|Hpeer].
    + (* the thread's own slot is skipped *)
      assert (P1 : pc (thr s1 t) = StealFor) by (rewrite T1; reflexivity).
      assert (P2 : l_i (thr s1 t) = l_i (thr s t) + 1)
        by (rewrite T1; reflexivity).
      assert (P3 : id (ctxs s1 t) = id (ctxs s t)) by (now rewrite C1).
      assert (P4 : l_steal_continue (thr s1 t) = l_steal_continue (thr s t))
        by (rewrite T1; reflexivity).
      destruct (IH s1 D1 P1) as (m & D' & P' & S' & L' & Hnone & Hsome);
        rewrite ?P2, ?P3; try lia.
      { intros i Hi Hne. rewrite W1. apply Hfree; [lia | assumption]. }
      rewrite P2, P3, P4, K1 in *.
      exists (1 + m)%nat. cbv zeta. rewrite solo_add. fold s1.
      split; [assumption|]. split; [assumption|]. split; [assumption|].
      split; [assumption|]. split.
      * intros Hall. destruct Hnone as (A & B & C).
        { intros i Hi Hne. rewrite W1. apply Hall; [lia | assumption]. }
        split; [assumption|]. split; [assumption|].
        intros q. now rewrite C, W1.
      * intros (i & Hi & Hne & Hw). apply Hsome.
        exists i. rewrite W1. split; [|split; assumption].
        destruct (Z.eq_dec i (l_i (thr s t))); [congruence | lia].
    + (* a peer: lock it and look *)
      assert (Hpc1 : pc (thr s1 t) = StealLock) by (rewrite T1; reflexivity).
      assert (Hi1 : l_i (thr s1 t) = l_i (thr s t)) by (rewrite T1; reflexivity).
      assert (Hs1 : l_steal_continue (thr s1 t) = l_steal_continue (thr s t))
        by (rewrite T1; reflexivity).
      destruct (Hfree (l_i (thr s t))) as [Hlk Hrep]; [lia | assumption |].
      destruct (Z_lt_le_dec (next (wqs s (l_i (thr s t))))
                            (last (wqs s (l_i (thr s t))))) as [Hw|Hw].
      * (* work: claim from the tail *)
        destruct (@steal_check_work common t s1 D1 Hpc1)
          as (_ & D8 & C8 & _ & W8 & W8' & K8 & T8 & _);
          rewrite ?Hi1, ?W1; try assumption; try (unfold int_max in *; lia).
        set (s9 := solo common t 8 s1) in *.
        assert (P1 : pc (thr s9 t) = StealFor) by (rewrite T8; reflexivity).
        assert (P2 : l_i (thr s9 t) = l_i (thr s t) + 1)
          by (rewrite T8, Hi1; reflexivity).
        assert (P3 : id (ctxs s9 t) = id (ctxs s t)) by (now rewrite C8, C1).
        assert (P4 : l_steal_continue (thr s9 t) = 1)
          by (rewrite T8; reflexivity).
        destruct (IH s9 D8 P1) as (m & D' & P' & S' & L' & Hnone & Hsome);
          rewrite ?P2, ?P3; try lia.
        { intros i Hi Hne. rewrite W8' by (rewrite Hi1; lia). rewrite W1.
          apply Hfree; [lia | assumption]. }
        rewrite K8, K1 in L'. simpl in L'.
        exists (1 + (8 + m))%nat. cbv zeta. rewrite !solo_add.
        fold s1. fold s9.
        split; [assumption|]. split; [assumption|].
        split; [intros _; now apply S'|]. split; [lia|]. split.
        -- intros Hall. specialize (Hall (l_i (thr s t))). lia.
        -- intros _. split; [now apply S' | lia].
      * (* no work: unlock and go on *)
        destruct (@steal_check_empty common t s1 D1 Hpc1)
          as (_ & D3 & C3 & W3 & K3 & T3);
          rewrite ?Hi1, ?W1; try assumption; try (unfold int_max in *; lia).
        set (s4 := solo common t 3 s1) in *.
        assert (P1 : pc (thr s4 t) = StealFor) by (rewrite T3; reflexivity).
        assert (P2 : l_i (thr s4 t) = l_i (thr s t) + 1)
          by (rewrite T3, Hi1; reflexivity).
        assert (P3 : id (ctxs s4 t) = id (ctxs s t)) by (now rewrite C3, C1).
        assert (P4 : l_steal_continue (thr s4 t) = l_steal_continue (thr s t))
          by (rewrite T3, Hs1; reflexivity).
        destruct (IH s4 D3 P1) as (m & D' & P' & S' & L' & Hnone & Hsome);
          rewrite ?P2, ?P3; try lia.
        { intros i Hi Hne. rewrite W3, W1. apply Hfree; [lia | assumption]. }
        rewrite P2, P3, P4, K3, K1 in *.
        exists (1 + (3 + m))%nat. cbv zeta. rewrite !solo_add.
        fold s1. fold s4.
        split; [assumption|]. split; [assumption|]. split; [assumption|].
        split; [assumption|]. split.
        -- intros Hall. destruct Hnone as (A & B & C).
           { intros i Hi Hne. rewrite W3, W1. apply Hall; [lia | assumption]. }
           split; [assumption|]. split; [assumption|].
           intros q. now rewrite C, W3, W1.
        -- intros (i & Hi & Hne & Hwi). apply Hsome.
           exists i. rewrite W3, W1. split; [|split; assumption].
           destruct (Z.eq_dec i (l_i (thr s t))) as [->|]; lia.
Qed.

(** ** A sweep under any interleaving *)

Lemma thread_step_id common u s v :
  id (ctxs (thread_step common u s) v) = id (ctxs s v).
Proof.
  unfold thread_step.
  destruct (pc (thr s u)); unfold Lock, Unlock, atomic_cmpxchg;
    repeat match goal with
           | |- context [if ?b then _ else _] => destruct b
           end;
    simpl; try reflexivity; upd_cases; reflexivity.
Qed.

Lemma run_snoc common sched u s :
  run common (sched ++ [u]) s =
  (if dead (run common sched s) then run common sched s
   else thread_step common u (run common sched s)).
Proof. unfold run. now rewrite fold_left_app. Qed.

Lemma run_id common sched s v :
  id (ctxs (run common sched s) v) = id (ctxs s v).
Proof.
  induction sched as [|u sched IH] using rev_ind; [reflexivity|].
  rewrite run_snoc. destruct (dead (run common sched s)); [assumption|].
  now rewrite thread_step_id.
Qed.

Lemma thread_step_calls_of common u t s :
  id (ctxs s u) <> t ->
  calls_of t (thread_step common u s) = calls_of t s.
Proof.
  intros Hne.
  assert (E : (id (ctxs s u) =? t) = false) by (apply Z.eqb_neq; assumption).
  unfold calls_of, thread_step.
  destruct (pc (thr s u)); unfold Lock, Unlock, atomic_cmpxchg;
    repeat match goal with
           | |- context [if ?b then _ else _] => destruct b
           end;
    simpl; rewrite ?E; reflexivity.
Qed.

Lemma sweep_state_step common t u s0 s :
  id (ctxs s t) = t -> id (ctxs s u) = u ->
  (u = t -> pc (thr s t) <> StealCond) ->
  sweep_state t s0 s -> sweep_state t s0 (thread_step common u s).
Proof.
  intros Ht Hu Hcond J. destruct (Z.eq_dec u t) as [->|Hne].
  - specialize (Hcond eq_refl).
    unfold sweep_state, calls_of in *. unfold thread_step. rewrite Ht.
    destruct (thr s t) as [l item lst sc i] eqn:Hthr. simpl in *.
    destruct l; try contradiction; unfold Lock, Unlock, atomic_cmpxchg;
      repeat match goal with
             | |- context [if ?b then _ else _] => destruct b
             end;
      simpl; rewrite ?upd_eq, ?Hthr; simpl; rewrite ?Z.eqb_refl; simpl;
      try assumption; try (right; split; [reflexivity|assumption]).
    destruct J as [[_ ->]|[_ J]]; simpl; lia.
  - unfold sweep_state in *.
    rewrite thread_step_other by congruence.
    rewrite thread_step_calls_of by congruence. assumption.
Qed.

(** From the start of a sweep of thread [t] to the first state in which [t]
    is back at the loop condition, whatever the other threads do in between:
    [steal_continue] is 1 exactly if [t] has called the kernel since. *)
Lemma sweep_any_schedule common n t sched s0 :
  In t (_dispatch_worker n) ->
  (forall u, In u (_dispatch_worker n) -> id (ctxs s0 u) = u) ->
  schedule_ok n sched = true ->
  pc (thr s0 t) = StealFor -> l_steal_continue (thr s0 t) = 0 ->
  (forall p q, sched = p ++ q -> q <> [] ->
               pc (thr (run common p s0) t) <> StealCond) ->
  sweep_state t s0 (run common sched s0).
Proof.
  intros Ht Hids Hok Hpc Hsc.
  induction sched as [|u sched IH] using rev_ind; intros Hfirst.
  - unfold sweep_state. simpl. rewrite Hpc. auto.
  - unfold schedule_ok in Hok. rewrite forallb_app in Hok.
    apply andb_prop in Hok as [Hok Hu]. simpl in Hu.
    rewrite andb_true_r in Hu. apply andb_prop in Hu as [Hu1 Hu2].
    assert (Hu : In u (_dispatch_worker n))
      by (apply dispatch_worker_In; lia).
    rewrite run_snoc.
    assert (J : sweep_state t s0 (run common sched s0)).
    { apply IH; [exact Hok|]. intros p q -> Hq.
      apply (Hfirst p (q ++ [u])).
      - now rewrite app_assoc.
      - intros E. apply app_eq_nil in E as [_ E]. discriminate. }
    destruct (dead (run common sched s0)); [exact J|].
    apply sweep_state_step; try assumption.
    + rewrite run_id. now apply Hids.
    + rewrite run_id. now apply Hids.
    + intros _. apply (Hfirst sched [u]); [reflexivity | discriminate].
Qed.

(** C7.  The stealing phase of the thread on slot [t], run without
    interruption from state [s].

    - At [otherqueue.Lock()] the thread waits while the lock word of the peer
      is not 0; once it is 0 the thread takes the lock.  If the peer has
      [next < last], five operations later [last] is one less, the lock is
      free again, [item] is the new [last] and nothing has been called yet;
      three operations later the kernel has been called on that item,
      [completed] is incremented, [steal_continue] is 1, and the thread is
      at the next slot.  If the peer has [next >= last], three operations
      later the lock is free, no queue, context or call has changed, and the
      thread is at the next slot.
    - At the head of the inner loop the thread goes to the check of slot [i]
      when [i < common.num_thread] and [i] is not its own slot, to the next
      slot when it is its own, and back to the loop condition otherwise.
    - At the loop condition with [steal_continue = 0] the thread returns.
      With [steal_continue <> 0] and all peer locks free, the thread is back
      at the loop condition after one sweep: if no peer had work, nothing was
      called and the thread returns at its next operation; if some peer had
      work, the kernel was called and the thread starts another sweep.
    - Under any schedule of the created threads, from the start of a sweep
      of [t] to the first state in which [t] is back at the loop condition:
      [steal_continue] is 0, and the thread returns at its next operation,
      exactly if [t] has made no call in between. *)
Theorem stealing_phase common t s :
  dead s = false -> num_thread common <= int_max ->
  let th := thr s t in
  let tid := id (ctxs s t) in
  let NT := num_thread common in
  (pc th = StealLock ->
   let i := l_i th in
   let w := wqs s i in
   (lock w <> 0 -> thread_step common t s = s) /\
   (lock w = 0 -> - 2 ^ 63 < last w <= intp_max -> 0 <= i < NT ->
    lock (wqs (solo common t 1 s) i) = 1 /\
    (next w < last w ->
     let item := last w - 1 in
     let s5 := solo common t 5 s in
     let s8 := solo common t 8 s in
     (wqs s5 i = mkWorkQueue (next w) item 0 /\ calls s5 = calls s /\
      pc (thr s5 t) = StealWork /\ l_item (thr s5 t) = item) /\
     wqs s8 i = mkWorkQueue (next w) item 0 /\
     calls s8 = (tid, item) :: calls s /\
     completed (ctxs s8 t) = intp (completed (ctxs s t) + 1) /\
     thr s8 t = mkThread StealFor item (l_last th) 1 (i + 1)) /\
    (last w <= next w ->
     let s3 := solo common t 3 s in
     (forall q, wqs s3 q = wqs s q) /\ (forall u, ctxs s3 u = ctxs s u) /\
     calls s3 = calls s /\
     thr s3 t = mkThread StealFor (l_item th) (l_last th)
                         (l_steal_continue th) (i + 1)))) /\
  (pc th = StealFor -> 0 <= l_i th ->
   let th1 := thr (solo common t 1 s) t in
   (l_i th < NT -> l_i th <> tid ->
    pc th1 = StealLock /\ l_i th1 = l_i th) /\
   (l_i th < NT -> l_i th = tid ->
    pc th1 = StealFor /\ l_i th1 = l_i th + 1) /\
   (NT <= l_i th -> pc th1 = StealCond)) /\
  (pc th = StealCond ->
   (l_steal_continue th = 0 -> pc (thr (solo common t 1 s) t) = Ret) /\
   (l_steal_continue th <> 0 ->
    (forall i, 0 <= i < NT -> i <> tid ->
               lock (wqs s i) = 0 /\ - 2 ^ 63 < last (wqs s i) <= intp_max) ->
    exists m,
      let s' := solo common t m s in
      dead s' = false /\ pc (thr s' t) = StealCond /\
      ((forall i, 0 <= i < NT -> i <> tid ->
                  last (wqs s i) <= next (wqs s i)) ->
       calls s' = calls s /\ (forall q, wqs s' q = wqs s q) /\
       l_steal_continue (thr s' t) = 0 /\
       pc (thr (solo common t 1 s') t) = Ret) /\
      ((exists i, 0 <= i < NT /\ i <> tid /\
                  next (wqs s i) < last (wqs s i)) ->
       (length (calls s) < length (calls s'))%nat /\
       l_steal_continue (thr s' t) = 1 /\
       pc (thr (solo common t 1 s') t) = StealFor /\
       l_i (thr (solo common t 1 s') t) = 0))) /\
  (pc th = StealFor -> l_steal_continue th = 0 ->
   forall n sched,
     In t (_dispatch_worker n) ->
     (forall u, In u (_dispatch_worker n) -> id (ctxs s u) = u) ->
     schedule_ok n sched = true ->
     (forall p q, sched = p ++ q -> q <> [] ->
                  pc (thr (run common p s) t) <> StealCond) ->
     let s' := run common sched s in
     pc (thr s' t) = StealCond -> dead s' = false ->
     (calls_of t s' = calls_of t s <-> l_steal_continue (thr s' t) = 0) /\
     (calls_of t s' = calls_of t s <->
      pc (thr (thread_step common t s') t) = Ret)).
Proof.
  intros Hd Hnt th tid NT. split; [|split; [|split]].
  - (* one peer *)
    intros Hpc i w. split.
    + intros Hl. unfold thread_step. fold th. rewrite Hpc.
      fold i. fold w. unfold Lock, atomic_cmpxchg.
      destruct (Z.eqb_spec (lock w) 0); [contradiction | reflexivity].
    + intros Hl Hrep Hi.
      assert (Hi' : - 2 ^ 31 <= i + 1 <= int_max)
        by (unfold i, NT, int_max in *; lia).
      split; [|split].
      * destruct (Z_lt_le_dec (next w) (last w)) as [Hw|Hw].
        -- destruct (@steal_check_work common t s Hd Hpc Hl Hw Hrep Hi')
             as (_ & _).
           (* the first operation is the same in both cases *)
           unfold solo, run. simpl. rewrite Hd. unfold thread_step.
           fold th. rewrite Hpc. fold i. fold w.
           unfold Lock, atomic_cmpxchg. rewrite Hl. simpl.
           now rewrite upd_eq.
        -- now destruct (@steal_check_empty common t s Hd Hpc Hl Hw Hi').
      * intros Hw item s5 s8.
        destruct (@steal_check_work common t s Hd Hpc Hl Hw Hrep Hi')
          as (H5 & _ & _ & C8 & W8 & _ & K8 & T8 & _).
        auto.
      * intros Hw s3.
        destruct (@steal_check_empty common t s Hd Hpc Hl Hw Hi')
          as (_ & _ & C3 & W3 & K3 & T3).
        auto.
  - (* the inner loop *)
    intros Hpc H0 th1.
    destruct (@steal_for_step common t s Hd Hpc) as (_ & _ & _ & _ & T1).
    { intros. unfold th, NT, int_max in *. lia. }
    subst th1. rewrite T1. fold th. fold tid. fold NT.
    split; [|split]; intros H1; try intros H2.
    + destruct (Z.ltb_spec (l_i th) NT); [|lia].
      destruct (Z.eqb_spec (l_i th) tid); [contradiction|]. auto.
    + destruct (Z.ltb_spec (l_i th) NT); [|lia].
      destruct (Z.eqb_spec (l_i th) tid); [|contradiction]. auto.
    + destruct (Z.ltb_spec (l_i th) NT); [lia|]. reflexivity.
  - (* the outer loop *)
    intros Hpc.
    destruct (@steal_cond_step common t s Hd Hpc) as (D1 & C1 & W1 & K1 & T1).
    fold th in T1. split.
    + intros H0. rewrite T1, H0. reflexivity.
    + intros H1 Hfree.
      destruct (Z.eqb_spec (l_steal_continue th) 0) as [|_]; [contradiction|].
      set (s1 := solo common t 1 s) in *.
      assert (P1 : pc (thr s1 t) = StealFor) by (rewrite T1; reflexivity).
      assert (P2 : l_i (thr s1 t) = 0) by (rewrite T1; reflexivity).
      assert (P3 : id (ctxs s1 t) = tid) by (now rewrite C1).
      assert (P4 : l_steal_continue (thr s1 t) = 0)
        by (rewrite T1; reflexivity).
      destruct (@steal_sweep common t (Z.to_nat NT) s1 D1 P1)
        as (m & D' & P' & _ & L' & Hnone & Hsome);
        rewrite ?P2, ?P3; try lia; try assumption.
      { intros i Hi Hne. rewrite W1. auto. }
      rewrite P2, P3, P4, K1 in *.
      exists (1 + m)%nat. cbv zeta. rewrite solo_add. fold s1.
      set (s' := solo common t m s1) in *.
      destruct (@steal_cond_step common t s' D' P') as (_ & _ & _ & _ & T').
      split; [assumption|]. split; [assumption|]. split.
      * intros Hall. destruct Hnone as (A & B & C).
        { intros i Hi Hne. rewrite W1. auto. }
        split; [assumption|].
        split; [intros q; now rewrite C, W1|].
        split; [assumption|]. rewrite T', B. reflexivity.
      * intros (i & Hi & Hne & Hw). destruct Hsome as (A & B).
        { exists i. rewrite W1. auto. }
        split; [assumption|]. split; [assumption|].
        rewrite T', A. simpl. auto.
  - (* a sweep among the other threads *)
    intros Hpc Hsc n sched Ht Hids Hok Hfirst s' Hpc' Hd'.
    pose proof (@sweep_any_schedule common n t sched s Ht Hids Hok Hpc Hsc
                                    Hfirst) as J.
    fold s' in J. unfold sweep_state in J. rewrite Hpc' in J.
    destruct (@steal_cond_step common t s' Hd' Hpc') as (_ & _ & _ & _ & T').
    assert (E : solo common t 1 s' = thread_step common t s').
    { unfold solo, run. simpl. now rewrite Hd'. }
    rewrite E in T'. rewrite T'.
    destruct J as [[J1 J2]|[J1 J2]].
    + rewrite J1, J2. simpl. split; split; reflexivity.
    + rewrite J1. simpl. split; split; intros H; try discriminate;
        rewrite H in J2; lia.
Qed.

(** Thread 0 of a call on 4 indices with 2 threads has drained its queue
    while thread 1 has not started: its first sweep steals from queue 1 and
    a second sweep follows. *)
Lemma stealing_phase_first_sweep :
  exists m,
    let s' := solo (f_common call_4_2) 0 m about_to_sweep in
    (length (calls about_to_sweep) < length (calls s'))%nat /\
    l_steal_continue (thr s' 0) = 1 /\
    pc (thr (solo (f_common call_4_2) 0 1 s') 0) = StealFor /\
    l_i (thr (solo (f_common call_4_2) 0 1 s') 0) = 0.
Proof.
  destruct (@stealing_phase (f_common call_4_2) 0 about_to_sweep)
    as (_ & _ & Hloop & _).
  - reflexivity.
  - vm_compute. discriminate.
  - destruct Hloop as [_ Hsweep]; [reflexivity|].
    destruct Hsweep as (m & _ & _ & _ & Hsome).
    + vm_compute. discriminate.
    + intros i Hi Hne.
      change (num_thread (f_common call_4_2)) with 2 in Hi.
      change (id (ctxs about_to_sweep 0)) with 0 in Hne.
      assert (i = 1) as -> by lia.
      vm_compute. repeat split; discriminate.
    + exists m. apply Hsome. exists 1. vm_compute.
      repeat split; discriminate.
Defined.

(** * The completed counters *)

Lemma intp_add_intp a b : intp (intp a + b) = intp (a + b).
Proof.
  unfold intp, wrap.
  replace ((a + 2 ^ (64 - 1)) mod 2 ^ 64 - 2 ^ (64 - 1) + b + 2 ^ (64 - 1))
    with ((a + 2 ^ (64 - 1)) mod 2 ^ 64 + b) by lia.
  rewrite Zplus_mod_idemp_l. f_equal. f_equal. lia.
Qed.

Section Counters.

Variable common : ContextCommon.
Variable n : Z.
Variables lo hi : Z -> Z.
Variable C0 : Z -> Context.

Local Abbreviation built := (built n).
Local Abbreviation Inv := (Inv common n lo hi).
Local Abbreviation Cnt := (Cnt n C0).

Lemma thread_step_cnt s t :
  Inv s -> Cnt s -> built t -> Cnt (thread_step common t s).
Proof.
  intros I (Hc & Hu & Hb) Ht.
  pose proof (inv_id I Ht) as Hid.
  unfold thread_step. rewrite Hid.
  assert (Hquiet : forall th' W',
    counting th' = counting (thr s t) ->
    Cnt (mkState W' (ctxs s) (upd (thr s) t th') (calls s) (dead s))).
  { intros th' W' Hk. split; [|split]; simpl; try assumption.
    intros u Hu'. unfold calls_of. simpl.
    destruct (Z.eq_dec u t) as [->|Hne];
      [rewrite !upd_eq | rewrite !upd_neq by assumption].
    - rewrite Hk. now apply Hc.
    - now apply Hc. }
  assert (Hcall : forall th' x,
    counting (thr s t) = 0 -> counting th' = 1 ->
    Cnt (mkState (wqs s) (ctxs s) (upd (thr s) t th') ((t, x) :: calls s)
                 (dead s))).
  { intros th' x H0 H1. split; [|split]; simpl; try assumption.
    - intros u Hu'. unfold calls_of. simpl.
      destruct (Z.eq_dec u t) as [->|Hne];
        [rewrite !upd_eq | rewrite !upd_neq by assumption].
      + rewrite Z.eqb_refl. simpl length. rewrite H1.
        rewrite (Hc t Hu'), H0. unfold calls_of. f_equal. lia.
      + destruct (Z.eqb_spec t u); [congruence|]. now apply Hc.
    - intros c [<-|Hin]; [assumption | now apply Hb]. }
  assert (Hcount : forall th',
    counting (thr s t) = 1 -> counting th' = 0 ->
    Cnt (mkState (wqs s)
           (upd (ctxs s) t
                (set_completed (ctxs s t) (intp (completed (ctxs s t) + 1))))
           (upd (thr s) t th') (calls s) (dead s))).
  { intros th' H1 H0. split; [|split]; simpl; try assumption.
    - intros u Hu'. unfold calls_of. simpl.
      destruct (Z.eq_dec u t) as [->|Hne];
        [rewrite !upd_eq | rewrite !upd_neq by assumption].
      + simpl. rewrite H0, (Hc t Hu'), H1, intp_add_intp.
        unfold calls_of. f_equal. lia.
      + now apply Hc.
    - intros i Hi. rewrite upd_neq; [now apply Hu|]. intros ->. contradiction. }
  destruct (thr s t) as [l item lst sc i] eqn:Hthr.
  destruct l; unfold Lock, Unlock, atomic_cmpxchg; simpl;
    repeat match goal with
           | |- context [if ?b then _ else _] => destruct b
           end;
    unfold with_thr, with_wq, with_ctx, with_call, kill; simpl;
    first [ apply Hquiet; reflexivity
          | apply Hcall; reflexivity
          | apply Hcount; reflexivity
          | split; [|split]; assumption ].
Qed.

Lemma exec_cnt s0 s :
  (forall s', exec common n s0 s' -> Inv s') ->
  Cnt s0 -> exec common n s0 s -> Cnt s.
Proof.
  intros HI C Hex. induction Hex as [|s1 s2 Hex1 IH Hstep]; [assumption|].
  destruct Hstep as [t Ht _]. apply dispatch_worker_In in Ht.
  apply thread_step_cnt; auto.
Qed.

End Counters.

Lemma sum_upto_ext k g h :
  (forall t, 0 <= t < Z.of_nat k -> g t = h t) -> sum_upto k g = sum_upto k h.
Proof.
  induction k as [|k IH]; intros H; [reflexivity|].
  simpl. rewrite IH, H by (intros; try apply H; lia). reflexivity.
Qed.

Lemma sum_upto_add k g h :
  sum_upto k (fun t => g t + h t) = sum_upto k g + sum_upto k h.
Proof. induction k as [|k IH]; simpl; lia. Qed.

Lemma sum_upto_zero k g :
  (forall t, 0 <= t < Z.of_nat k -> g t = 0) -> sum_upto k g = 0.
Proof.
  induction k as [|k IH]; intros H; [reflexivity|].
  simpl. rewrite IH, H by (intros; try apply H; lia). reflexivity.
Qed.

Lemma sum_upto_indicator k x :
  0 <= x < Z.of_nat k -> sum_upto k (fun t => if x =? t then 1 else 0) = 1.
Proof.
  induction k as [|k IH]; intros Hx; [lia|].
  simpl. destruct (Z.eqb_spec x (Z.of_nat k)) as [->|Hne].
  - rewrite sum_upto_zero; [reflexivity|].
    intros t Ht. destruct (Z.eqb_spec (Z.of_nat k) t); [lia|reflexivity].
  - rewrite IH by lia. reflexivity.
Qed.

Lemma sum_upto_nonneg k g :
  (forall t, 0 <= t < Z.of_nat k -> 0 <= g t) -> 0 <= sum_upto k g.
Proof.
  induction k as [|k IH]; intros H; simpl; [lia|].
  pose proof (H (Z.of_nat k)). specialize (IH ltac:(intros; apply H; lia)).
  lia.
Qed.

(** The calls of all threads, counted thread by thread. *)
Lemma sum_upto_calls k (l : list (Z * Z)) :
  (forall c, In c l -> 0 <= fst c < Z.of_nat k) ->
  sum_upto k (fun t => Z.of_nat (length (filter (fun c => fst c =? t) l))) =
  Z.of_nat (length l).
Proof.
  induction l as [|c l IH]; intros H.
  - simpl. now apply sum_upto_zero.
  - rewrite (sum_upto_ext k _
      (fun t => Z.of_nat (length (filter (fun c => fst c =? t) l)) +
                (if fst c =? t then 1 else 0))).
    + rewrite sum_upto_add, IH, sum_upto_indicator.
      * simpl length. lia.
      * apply H. now left.
      * intros c' Hc'. apply H. now right.
    + intros t _. simpl. destruct (fst c =? t); simpl; lia.
Qed.

(** The debug check adds up without overflow. *)
Lemma total_completed_sum TC C :
  (forall t, 0 <= t < TC -> 0 <= completed (C t)) ->
  sum_upto (Z.to_nat TC) (fun t => completed (C t)) <= intp_max ->
  total_completed TC C = sum_upto (Z.to_nat TC) (fun t => completed (C t)).
Proof.
  unfold total_completed. intros Hpos Hmax.
  destruct (Z_le_gt_dec TC 0) as [Hn|Hn].
  - rewrite for_range_none by assumption.
    replace (Z.to_nat TC) with 0%nat by lia. reflexivity.
  - rewrite <- (Z2Nat.id TC) at 1 by lia.
    assert (Hpos' : forall t, 0 <= t < Z.of_nat (Z.to_nat TC) ->
                              0 <= completed (C t)) by (intros; apply Hpos; lia).
    clear Hpos. induction (Z.to_nat TC) as [|k IH].
    + rewrite for_range_none by lia. reflexivity.
    + simpl in Hmax. rewrite for_range_succ.
      pose proof (Hpos' (Z.of_nat k) ltac:(lia)).
      assert (0 <= sum_upto k (fun t => completed (C t))).
      { apply sum_upto_nonneg. intros. apply Hpos'. lia. }
      rewrite IH by (try lia; intros; apply Hpos'; lia).
      simpl. apply intp_id. unfold intp_max in *. lia.
Qed.

(** * The whole call *)

Lemma filter_none {A : Type} (p : A -> bool) (l : list A) :
  (forall a, In a l -> p a = false) -> filter p l = [].
Proof.
  induction l as [|a l IH]; intros H; [reflexivity|].
  simpl. rewrite (H a) by now left. apply IH. intros b Hb. apply H. now right.
Qed.

(** With no work and no count left on the stack in the slots that the call
    does not populate (in particular whenever [N >= ThreadCount]), every call
    that ends has handed each index of [0, N) to the kernel exactly once,
    in some order, and the debug check lets it return. *)
Theorem body_returns TC func args dimensions steps wq0 ctx0 s o :
  1 <= TC <= int_max -> 0 <= dimensions 0 < intp_max ->
  benign TC (dimensions 0) wq0 -> clean TC (dimensions 0) ctx0 ->
  body TC func args dimensions steps wq0 ctx0 s o ->
  o = Returned /\ Permutation (items s) (range (dimensions 0)).
Proof.
  intros HT HN HB HC [Hr Hend].
  set (N := dimensions 0) in *.
  set (f := body_setup TC func args dimensions steps wq0 ctx0) in *.
  pose proof (@reachable_inv TC func args dimensions steps wq0 ctx0 HT HN s Hr)
    as I.
  fold N in I. fold f in I.
  destruct Hend as [[Hd _]|(_ & J & ->)].
  { rewrite (inv_alive I) in Hd. discriminate. }
  pose proof (@joined_permutation TC func args dimensions steps wq0 ctx0
                                  HT HN s HB Hr J) as HP.
  fold N in HP. split; [|exact HP].
  destruct (@call_plan TC func args dimensions steps wq0 ctx0 HT HN)
    as (H1 & H2 & H3 & H4 & H5 & H6 & H7 & H8).
  fold N in H3, H5, H6. fold f in H1, H2, H3, H4, H5, H6, H7, H8.
  destruct (@body_setup_plan TC func args dimensions steps wq0 ctx0 HT)
    as (_ & _ & Hn & _ & Hctx).
  { unfold intp_max in *. lia. }
  fold N in Hn. fold f in Hn, Hctx.
  (* the counters *)
  assert (C : Cnt (f_num_thread f) ctx0 s).
  { unfold reachable in Hr. fold f in Hr.
    eapply exec_cnt with (common := f_common f); [| |exact Hr].
    - intros s' Hs'.
      exact (@reachable_inv TC func args dimensions steps wq0 ctx0 HT HN s' Hs').
    - split; [|split]; simpl.
      + intros t Ht. rewrite Hctx, populate_context_slot.
        unfold built in Ht.
        destruct (Z.leb_spec 0 t); [|lia].
        destruct (Z.ltb_spec t (f_num_thread f)); [|lia]. reflexivity.
      + intros i Hi. rewrite Hctx, populate_context_slot.
        unfold built in Hi.
        destruct (Z.leb_spec 0 i); [|reflexivity].
        destruct (Z.ltb_spec i (f_num_thread f)); [lia|reflexivity].
      + intros c []. }
  destruct C as (Cc & Cu & Cb).
  assert (Hlen : Z.of_nat (length (calls s)) = N).
  { rewrite <- (range_length (N := N)) by lia.
    rewrite <- (Permutation_length HP). unfold items.
    now rewrite length_map. }
  assert (Hle : forall t, (length (calls_of t s) <= length (calls s))%nat).
  { intros t. unfold calls_of. apply filter_length_le. }
  assert (Hall : forall t, 0 <= t < Z.of_nat (Z.to_nat TC) ->
            completed (ctxs s t) = Z.of_nat (length (calls_of t s))).
  { intros t Ht. destruct (Z_lt_le_dec t (f_num_thread f)) as [Hb|Hb].
    - assert (Bt : built (f_num_thread f) t) by (unfold built; lia).
      rewrite (Cc t Bt). unfold counting.
      rewrite (J t) by (apply dispatch_worker_In; exact Bt).
      rewrite Z.sub_0_r. apply intp_id. specialize (Hle t).
      unfold intp_max in *. lia.
    - rewrite Cu by (unfold built; lia). rewrite HC.
      + unfold calls_of. rewrite filter_none; [reflexivity|].
        intros c Hin. specialize (Cb c Hin). unfold built in Cb.
        apply Z.eqb_neq. lia.
      + rewrite Hn in Hb. destruct (Z.ltb_spec N TC); lia. }
  unfold race_check.
  assert (Hsum : sum_upto (Z.to_nat TC) (fun t => completed (ctxs s t)) = N).
  { rewrite (sum_upto_ext _ _
       (fun t => Z.of_nat (length (filter (fun c => fst c =? t) (calls s)))))
      by exact Hall.
    rewrite sum_upto_calls; [exact Hlen|].
    intros c Hc. specialize (Cb c Hc). unfold built in Cb. lia. }
  rewrite total_completed_sum.
  - rewrite Hsum, Z.eqb_refl. reflexivity.
  - intros t Ht. rewrite Hall by lia. lia.
  - rewrite Hsum. lia.
Qed.

(** A call with [N = 10] and three threads under [uneven_schedule]: thread 0
    takes indices 5, 8 and 9 from the back of the other queues, every index
    is passed to the kernel once, the counters add up to 10 and the call
    returns. *)
Example body_returns_10_3 :
  let f := body_setup 3 kernel0 no_args (dims 10) no_args
                      zero_queues zero_contexts in
  let s := run (f_common f) uneven_schedule (spawn f) in
  calls s = (2, 7) :: (0, 8) :: (1, 4) :: (0, 9) :: (0, 5) :: (2, 6)
              :: (1, 3) :: (0, 2) :: (0, 1) :: (0, 0) :: nil /\
  map (fun t => completed (ctxs s t)) (_dispatch_worker 3) = 6 :: 2 :: 2 :: nil /\
  body 3 kernel0 no_args (dims 10) no_args zero_queues zero_contexts
       s Returned.
Proof.
  cbv zeta. split; [reflexivity|]. split; [reflexivity|]. split.
  - apply run_exec. reflexivity.
  - right. split; [reflexivity|]. split; [|reflexivity].
    intros t Ht. vm_compute in Ht.
    destruct Ht as [<-|[<-|[<-|[]]]]; reflexivity.
Qed.
(** * The fallback to one element per worker *)

(** A worker that starts on its own queue [lo, hi), not empty and not
    locked, and runs alone enters the kernel on [lo] after seven
    operations. *)
Lemma worker_first_call common t s lo hi :
  dead s = false -> thr s t = entry -> id (ctxs s t) = t ->
  wqs s t = mkWorkQueue lo hi 0 -> lo < hi ->
  let s7 := solo common t 7 s in
  dead s7 = false /\ calls s7 = (t, lo) :: calls s /\
  pc (thr s7 t) = DrainCompleted.
Proof.
  intros Hd Hth Hid Hw Hlt s7.
  destruct s as [W C T cs d]. st_norm_all. subst d.
  destruct (C t) as [ci cc] eqn:Hc. st_norm_all. subst ci.
  assert (Hge : (lo >=? hi) = false).
  { rewrite Z.geb_leb. apply Z.leb_gt. assumption. }
  assert (E7 : s7 = solo common t 7 (mkState W C T cs false)) by reflexivity.
  clearbody s7. unfold entry in Hth.
  do 7 (solo_step E7; rewrite ?Hth, ?Hc, ?Hw in E7; st_norm_in E7;
        rewrite ?upd_eq, ?Hge, ?Z.eqb_refl in E7; st_norm_in E7).
  rewrite solo_0 in E7. subst s7. st_norm. rewrite !upd_eq.
  repeat split; reflexivity.
Qed.

(** C6.  When [1 <= N < T] the dispatcher continues with [ChunkSize = 1] and
    [num_thread = N].  The threads created are those of the slots
    [0 .. N-1].  For each of them, queue [i] is [i, i+1) and context [i]
    carries the id [i] and the count 0, whatever the stack held; the id
    stays [i] in every state of the call, so that the worker created on slot
    [i] drains queue [i]; run first, it enters the kernel on index [i].  No
    thread ever runs on a slot from [N] on. *)
Theorem fallback_one_element_queues TC func args dimensions steps wq0 ctx0 :
  1 <= dimensions 0 < TC -> TC <= int_max ->
  let N := dimensions 0 in
  let f := body_setup TC func args dimensions steps wq0 ctx0 in
  f_ChunkSize f = 1 /\ f_num_thread f = N /\
  _dispatch_worker (f_num_thread f) = range N /\
  (forall i, 0 <= i < N ->
     f_workqueues f i = mkWorkQueue i (i + 1) 0 /\
     f_contexts f i = mkContext i 0 /\
     f_workqueues f (id (f_contexts f i)) = mkWorkQueue i (i + 1) 0 /\
     (forall s, reachable TC func args dimensions steps wq0 ctx0 s ->
                id (ctxs s i) = i) /\
     calls (solo (f_common f) i 7 (spawn f)) = [(i, i)]) /\
  (forall i, N <= i < TC ->
     ~ In i (_dispatch_worker (f_num_thread f)) /\
     forall s, reachable TC func args dimensions steps wq0 ctx0 s ->
               thr s i = entry).
Proof.
  intros HN HT N f.
  destruct (@body_setup_plan TC func args dimensions steps wq0 ctx0)
    as (H1 & H2 & H3 & H4 & H5).
  { lia. }
  { unfold int_max, intp_max in *. lia. }
  fold N in H2, H3, H4. fold f in H1, H2, H3, H4, H5.
  destruct (Z.ltb_spec N TC) as [_|Hge]; [|unfold N in Hge; lia].
  split; [assumption|]. split; [assumption|].
  split; [rewrite H3; apply dispatch_worker_range|].
  assert (Hq : forall i, 0 <= i < N ->
                         f_workqueues f i = mkWorkQueue i (i + 1) 0).
  { intros i Hi. rewrite H4, H2, H3.
    rewrite populate_workqueues_built;
      try (unfold N, int_max, intp_max in *; lia).
    unfold plan_lo, plan_hi.
    destruct (Z.eqb_spec i (N - 1)); f_equal; lia. }
  assert (Hc : forall i, 0 <= i < N -> f_contexts f i = mkContext i 0).
  { intros i Hi. rewrite H5, H3, populate_context_slot.
    destruct (Z.leb_spec 0 i), (Z.ltb_spec i N); simpl; try lia.
    reflexivity. }
  split.
  - intros i Hi. split; [now apply Hq|]. split; [now apply Hc|].
    split; [rewrite (Hc i Hi); simpl; now apply Hq|]. split.
    + intros s Hr.
      assert (I := @reachable_inv TC func args dimensions steps wq0 ctx0
                     ltac:(lia) ltac:(unfold N, int_max, intp_max in *; lia)
                     s Hr).
      apply (inv_id I). unfold built. fold f. rewrite H3. exact Hi.
    + destruct (@worker_first_call (f_common f) i (spawn f) i (i + 1))
        as (_ & Hcalls & _); try reflexivity.
      * simpl. now rewrite (Hc i Hi).
      * simpl. now apply Hq.
      * lia.
      * exact Hcalls.
  - intros i Hi.
    assert (Hnot : ~ In i (_dispatch_worker (f_num_thread f))).
    { rewrite dispatch_worker_In, H3. lia. }
    split; [assumption|].
    intros s Hr. unfold reachable in Hr. fold f in Hr.
    eapply eq_trans; [eapply exec_not_created; eassumption | reflexivity].
Qed.

(** [N = 2], [T = 4], on a stack that holds stale contexts: two threads, on
    the queues [0,1) and [1,2); context 1 has the id 1, and the worker on
    slot 1 enters the kernel on index 1. *)
Lemma fallback_2_of_4 :
  let f := body_setup 4 kernel0 no_args (dims 2) no_args
                      zero_queues stale_contexts in
  f_ChunkSize f = 1 /\ f_num_thread f = 2 /\
  _dispatch_worker (f_num_thread f) = [0; 1] /\
  f_workqueues f 0 = mkWorkQueue 0 1 0 /\
  f_workqueues f 1 = mkWorkQueue 1 2 0 /\
  f_contexts f 1 = mkContext 1 0 /\
  calls (solo (f_common f) 1 7 (spawn f)) = [(1, 1)] /\
  ~ In 2 (_dispatch_worker (f_num_thread f)) /\
  ~ In 3 (_dispatch_worker (f_num_thread f)).
Proof.
  destruct (@fallback_one_element_queues 4 kernel0 no_args (dims 2) no_args
                                         zero_queues stale_contexts)
    as (Hc & Hn & Hd & Hq & Hx).
  - unfold dims. lia.
  - unfold int_max. lia.
  - cbv zeta. split; [exact Hc|]. split; [exact Hn|]. split; [exact Hd|].
    destruct (Hq 0) as (Hq0 & _); [unfold dims; lia|].
    destruct (Hq 1) as (Hq1 & Hc1 & _ & _ & Hk1); [unfold dims; lia|].
    split; [exact Hq0|]. split; [exact Hq1|]. split; [exact Hc1|].
    split; [exact Hk1|]. split.
    + apply (Hx 2). unfold dims. lia.
    + apply (Hx 3). unfold dims. lia.
Defined.

(** * The spin lock in the states of a call *)

(** X1.  In every state of a call, whatever the stack held, the program has
    not been killed, and a created thread that is about to execute [Unlock]
    finds the lock word at 1: the exchange succeeds and the [unreachable] of
    [Unlock] is not executed. *)
Theorem unlock_finds_lock_held TC func args dimensions steps wq0 ctx0 s :
  1 <= TC <= int_max -> 0 <= dimensions 0 < intp_max ->
  let f := body_setup TC func args dimensions steps wq0 ctx0 in
  reachable TC func args dimensions steps wq0 ctx0 s ->
  dead s = false /\
  forall t w, In t (_dispatch_worker (f_num_thread f)) ->
    unlock_target (id (ctxs s t)) (thr s t) = Some w ->
    lock (wqs s w) = 1 /\
    Unlock (wqs s w) = Some (set_lock (wqs s w) 0) /\
    dead (thread_step (f_common f) t s) = false.
Proof.
  intros HT HN f Hr.
  pose proof (@reachable_inv TC func args dimensions steps wq0 ctx0 HT HN s Hr)
    as I.
  fold f in I. split; [exact (inv_alive I)|].
  intros t w Ht Hw. pose proof Ht as Ht'. apply dispatch_worker_In in Ht.
  assert (Hl : lock (wqs s w) = 1).
  { apply (inv_held I (t := t)); [assumption|].
    unfold unlock_target in Hw. rewrite (inv_id I Ht) in Hw.
    unfold holding. destruct (pc (thr s t)); congruence. }
  split; [exact Hl|]. split.
  - unfold Unlock, atomic_cmpxchg. rewrite Hl. reflexivity.
  - assert (Hr' : reachable TC func args dimensions steps wq0 ctx0
                            (thread_step (f_common f) t s)).
    { unfold reachable in *. fold f in Hr |- *.
      eapply exec_step; [exact Hr|].
      apply step_thread; [exact Ht' | exact (inv_alive I)]. }
    exact (inv_alive (@reachable_inv TC func args dimensions steps wq0 ctx0
                                     HT HN _ Hr')).
Qed.

(** Thread 0 releases its own queue. *)
Lemma unlock_finds_lock_held_own_queue :
  dead about_to_unlock = false /\
  lock (wqs about_to_unlock 0) = 1 /\
  Unlock (wqs about_to_unlock 0) = Some (set_lock (wqs about_to_unlock 0) 0) /\
  dead (thread_step (f_common call_4_2) 0 about_to_unlock) = false.
Proof.
  destruct (@unlock_finds_lock_held 2 kernel0 no_args (dims 4) no_args
              zero_queues zero_contexts about_to_unlock) as [Ha Hu].
  - unfold int_max. lia.
  - unfold dims, intp_max. lia.
  - apply run_exec. reflexivity.
  - split; [exact Ha|]. apply (Hu 0 0).
    + vm_compute. auto.
    + reflexivity.
Defined.

(** X2.  Mutual exclusion.  In every state of a call, no two created threads
    are between [Lock] and [Unlock] of the same queue; the lock word of a
    queue that a created thread holds is 1; and the lock word of a populated
    queue is 0 or 1, and is 1 only while a created thread holds it. *)
Theorem queue_lock_mutual_exclusion TC func args dimensions steps wq0 ctx0 s :
  1 <= TC <= int_max -> 0 <= dimensions 0 < intp_max ->
  let f := body_setup TC func args dimensions steps wq0 ctx0 in
  let n := f_num_thread f in
  reachable TC func args dimensions steps wq0 ctx0 s ->
  (forall t u q, In t (_dispatch_worker n) -> In u (_dispatch_worker n) ->
     holding t (thr s t) = Some q -> holding u (thr s u) = Some q -> t = u) /\
  (forall t q, In t (_dispatch_worker n) ->
     holding t (thr s t) = Some q -> lock (wqs s q) = 1) /\
  (forall q, 0 <= q < n ->
     (lock (wqs s q) = 0 \/ lock (wqs s q) = 1) /\
     (lock (wqs s q) = 1 ->
      exists t, In t (_dispatch_worker n) /\ holding t (thr s t) = Some q)).
Proof.
  intros HT HN f n Hr.
  pose proof (@reachable_inv TC func args dimensions steps wq0 ctx0 HT HN s Hr)
    as I.
  fold f in I. fold n in I. split; [|split].
  - intros t u q Ht Hu. apply dispatch_worker_In in Ht, Hu.
    now apply (inv_mutex I).
  - intros t q Ht. apply dispatch_worker_In in Ht. now apply (inv_held I).
  - intros q Hq. split.
    + destruct (inv_queue I Hq) as (_ & _ & _ & _ & Hl). exact Hl.
    + intros Hl. destruct (inv_owner I Hq Hl) as (t & Ht & Hh).
      exists t. split; [now apply dispatch_worker_In | exact Hh].
Qed.

(** Thread 0 holds the lock of queue 1 while it steals from it. *)
Lemma queue_lock_mutual_exclusion_stealing :
  lock (wqs about_to_steal 1) = 1 /\
  exists t, In t (_dispatch_worker (f_num_thread call_4_2)) /\
            holding t (thr about_to_steal t) = Some 1.
Proof.
  destruct (@queue_lock_mutual_exclusion 2 kernel0 no_args (dims 4) no_args
              zero_queues zero_contexts about_to_steal) as (_ & Hh & Hq).
  - unfold int_max. lia.
  - unfold dims, intp_max. lia.
  - apply run_exec. reflexivity.
  - assert (Hl : lock (wqs about_to_steal 1) = 1).
    { apply (Hh 0 1); [vm_compute; auto | reflexivity]. }
    split; [exact Hl|].
    apply (Hq 1); [vm_compute; split; [discriminate | reflexivity] | exact Hl].
Defined.

(** * What the dispatcher hands to the workers *)

(** X3.  For every [N >= 1] and [ThreadCount >= 1], with or without the
    fallback, the queues that [body] has populated when it creates the
    threads partition [0, N): there are between 1 and [min ThreadCount N] of
    them, each is unlocked and holds at least one index, consecutive queues
    are adjacent and in order, and every index of [0, N) is in the range of
    exactly one queue. *)
Theorem initial_queues_partition TC func args dimensions steps wq0 ctx0 :
  1 <= TC <= int_max -> 1 <= dimensions 0 < intp_max ->
  let N := dimensions 0 in
  let f := body_setup TC func args dimensions steps wq0 ctx0 in
  let n := f_num_thread f in
  let W := f_workqueues f in
  (1 <= n <= TC /\ n <= N) /\
  (forall q, 0 <= q < n ->
     0 <= next (W q) < last (W q) /\ last (W q) <= N /\ lock (W q) = 0) /\
  next (W 0) = 0 /\ last (W (n - 1)) = N /\
  (forall q, 0 <= q < n - 1 -> last (W q) = next (W (q + 1))) /\
  (forall x, 0 <= x < N ->
     exists q, (0 <= q < n /\ next (W q) <= x < last (W q)) /\
               forall q', 0 <= q' < n -> next (W q') <= x < last (W q') ->
                          q' = q).
Proof.
  intros HT HN N f n W.
  assert (HN' : 0 <= dimensions 0 < intp_max) by lia.
  destruct (@call_plan TC func args dimensions steps wq0 ctx0 HT HN')
    as (H1 & H2 & H3 & H4 & H5 & H6 & H7 & H8).
  fold N in H3, H5, H6. fold f in H1, H2, H3, H4, H5, H6, H7, H8.
  fold n in H2, H3, H5, H6. fold W in H6.
  set (c := f_ChunkSize f) in *.
  assert (Hn : 1 <= n) by (apply H3; lia).
  assert (HW : forall q, 0 <= q < n ->
             next (W q) = plan_lo c q /\ last (W q) = plan_hi c n N q /\
             lock (W q) = 0).
  { intros q Hq. rewrite (H6 q Hq). auto. }
  assert (Hpos : forall q, 0 <= q < n ->
             0 <= plan_lo c q < plan_hi c n N q /\ plan_hi c n N q <= N).
  { intros q Hq. unfold plan_lo, plan_hi.
    destruct (Z.eqb_spec q (n - 1)); nia. }
  split; [nia|]. split; [|split; [|split; [|split]]].
  - intros q Hq. destruct (HW q Hq) as (-> & -> & ->).
    destruct (Hpos q Hq). lia.
  - destruct (HW 0 ltac:(lia)) as (-> & _). unfold plan_lo. lia.
  - destruct (HW (n - 1) ltac:(lia)) as (_ & -> & _). unfold plan_hi.
    now rewrite Z.eqb_refl.
  - intros q Hq. destruct (HW q ltac:(lia)) as (_ & -> & _).
    destruct (HW (q + 1) ltac:(lia)) as (-> & _). unfold plan_lo, plan_hi.
    destruct (Z.eqb_spec q (n - 1)); lia.
  - intros x Hx.
    destruct (@plan_cover c n N H4 H5 x Hn Hx) as (q & Hq & Hr).
    exists q. split.
    + destruct (HW q Hq) as (-> & -> & _). auto.
    + intros q' Hq' Hr'. destruct (HW q' Hq') as (E1 & E2 & _).
      rewrite E1, E2 in Hr'.
      unfold built, plan_lo, plan_hi in *.
      destruct (Z.eqb_spec q (n - 1)), (Z.eqb_spec q' (n - 1)); nia.
Qed.

(** [N = 10] on three threads: index 6 is in queue 2 only. *)
Lemma initial_queues_partition_10_3 :
  let f := body_setup 3 kernel0 no_args (dims 10) no_args
                      zero_queues zero_contexts in
  let W := f_workqueues f in
  exists q, (0 <= q < f_num_thread f /\ next (W q) <= 6 < last (W q)) /\
            forall q', 0 <= q' < f_num_thread f ->
                       next (W q') <= 6 < last (W q') -> q' = q.
Proof.
  destruct (@initial_queues_partition 3 kernel0 no_args (dims 10) no_args
              zero_queues zero_contexts) as (_ & _ & _ & _ & _ & Hx).
  - unfold int_max. lia.
  - unfold dims, intp_max. lia.
  - apply (Hx 6). unfold dims. lia.
Defined.

(** * The call log and the counters in every state *)

Lemma reachable_cnt TC func args dimensions steps wq0 ctx0 s :
  1 <= TC <= int_max -> 0 <= dimensions 0 < intp_max ->
  let f := body_setup TC func args dimensions steps wq0 ctx0 in
  reachable TC func args dimensions steps wq0 ctx0 s ->
  Cnt (f_num_thread f) ctx0 s.
Proof.
  intros HT HN f Hr.
  destruct (@body_setup_plan TC func args dimensions steps wq0 ctx0 HT)
    as (_ & _ & _ & _ & Hctx).
  { unfold intp_max in *. lia. }
  fold f in Hctx. unfold reachable in Hr. fold f in Hr.
  eapply exec_cnt with (common := f_common f); [| |exact Hr].
  - intros s' Hs'.
    exact (@reachable_inv TC func args dimensions steps wq0 ctx0 HT HN s' Hs').
  - split; [|split]; simpl.
    + intros t Ht. rewrite Hctx, populate_context_slot. unfold built in Ht.
      destruct (Z.leb_spec 0 t); [|lia].
      destruct (Z.ltb_spec t (f_num_thread f)); [|lia]. reflexivity.
    + intros i Hi. rewrite Hctx, populate_context_slot. unfold built in Hi.
      destruct (Z.leb_spec 0 i); [|reflexivity].
      destruct (Z.ltb_spec i (f_num_thread f)); [lia|reflexivity].
    + intros c [].
Qed.

Lemma reachable_items_range TC func args dimensions steps wq0 ctx0 s :
  1 <= TC <= int_max -> 0 <= dimensions 0 < intp_max ->
  benign TC (dimensions 0) wq0 ->
  reachable TC func args dimensions steps wq0 ctx0 s ->
  NoDup (items s) /\ (forall x, In x (items s) -> 0 <= x < dimensions 0) /\
  Z.of_nat (length (calls s)) <= dimensions 0.
Proof.
  intros HT HN HB Hr.
  pose proof (@reachable_acct TC func args dimensions steps wq0 ctx0 HT HN s
                              HB Hr) as A.
  destruct (@call_plan TC func args dimensions steps wq0 ctx0 HT HN)
    as (H1 & H2 & H3 & H4 & H5 & H6 & H7 & H8).
  assert (Hin : forall x, In x (items s) -> 0 <= x < dimensions 0).
  { intros x Hx. destruct (acct_called A _ Hx) as (q & Hq & Hx' & _).
    unfold built, plan_lo, plan_hi in *.
    destruct (Z.eqb_spec q
                (f_num_thread
                   (body_setup TC func args dimensions steps wq0 ctx0) - 1));
      nia. }
  split; [exact (acct_nodup A)|]. split; [exact Hin|].
  rewrite <- (range_length (N := dimensions 0)) by lia.
  replace (length (calls s)) with (length (items s))
    by (unfold items; apply length_map).
  apply Nat2Z.inj_le. apply NoDup_incl_length; [exact (acct_nodup A)|].
  intros x Hx. apply range_In. now apply Hin.
Qed.

(** A thread that is about to count a call has made one. *)
Lemma thread_step_counted common n lo hi s t :
  Inv common n lo hi s -> built n t ->
  (forall u, built n u -> counting (thr s u) = 1 ->
             (1 <= length (calls_of u s))%nat) ->
  forall u, built n u -> counting (thr (thread_step common t s) u) = 1 ->
            (1 <= length (calls_of u (thread_step common t s)))%nat.
Proof.
  intros I Ht H u Hu.
  pose proof (inv_id I Ht) as Hid.
  specialize (H u Hu). revert H.
  unfold thread_step, calls_of. rewrite Hid.
  destruct (thr s t) as [l item lst sc i] eqn:Hthr.
  destruct (Z.eq_dec u t) as [->|Hne].
  - destruct l; unfold Lock, Unlock, atomic_cmpxchg; simpl;
      unfold with_thr, with_wq, with_ctx, with_call, kill; simpl;
      rewrite ?Z.eqb_refl;
      repeat match goal with
             | |- context [if ?b then _ else _] => destruct b
             end;
      simpl; rewrite ?upd_eq, ?Hthr; simpl; intros; try discriminate; lia.
  - assert (E : (t =? u) = false) by (apply Z.eqb_neq; congruence).
    destruct l; unfold Lock, Unlock, atomic_cmpxchg; simpl;
      unfold with_thr, with_wq, with_ctx, with_call, kill; simpl;
      rewrite ?E;
      repeat match goal with
             | |- context [if ?b then _ else _] => destruct b
             end;
      simpl; rewrite ?upd_neq by assumption; tauto.
Qed.

Lemma reachable_counted TC func args dimensions steps wq0 ctx0 s :
  1 <= TC <= int_max -> 0 <= dimensions 0 < intp_max ->
  let f := body_setup TC func args dimensions steps wq0 ctx0 in
  reachable TC func args dimensions steps wq0 ctx0 s ->
  forall u, built (f_num_thread f) u -> counting (thr s u) = 1 ->
            (1 <= length (calls_of u s))%nat.
Proof.
  intros HT HN f Hr. unfold reachable in Hr. fold f in Hr.
  remember (spawn f) as s0 eqn:Es0.
  induction Hr as [|s1 s2 Hex IH Hstep].
  - subst s0. intros u _ H. discriminate H.
  - destruct Hstep as [t Ht _]. apply dispatch_worker_In in Ht.
    apply thread_step_counted
      with (lo := plan_lo (f_ChunkSize f))
           (hi := plan_hi (f_ChunkSize f) (f_num_thread f) (dimensions 0));
      auto.
    apply (@reachable_inv TC func args dimensions steps wq0 ctx0 HT HN).
    unfold reachable. fold f. now subst s0.
Qed.

(** X4.  At every moment of a call whose unpopulated queue slots hold no
    work, no index has been handed to the kernel twice, every entry of the
    call log carries the id of a created thread and an index of [0, N), the
    [completed] counter of a created thread is the number of its kernel
    calls (less the call it is in the middle of counting), and the contexts
    of the slots for which no thread was created are as the stack left
    them. *)
Theorem call_log_and_counters TC func args dimensions steps wq0 ctx0 s :
  1 <= TC <= int_max -> 0 <= dimensions 0 < intp_max ->
  benign TC (dimensions 0) wq0 ->
  let N := dimensions 0 in
  let f := body_setup TC func args dimensions steps wq0 ctx0 in
  let n := f_num_thread f in
  reachable TC func args dimensions steps wq0 ctx0 s ->
  NoDup (items s) /\
  (forall c, In c (calls s) ->
     In (fst c) (_dispatch_worker n) /\ 0 <= snd c < N) /\
  (forall t, In t (_dispatch_worker n) ->
     completed (ctxs s t) =
     Z.of_nat (length (calls_of t s)) - counting (thr s t) /\
     0 <= completed (ctxs s t) <= N) /\
  (forall i, ~ In i (_dispatch_worker n) -> ctxs s i = ctx0 i).
Proof.
  intros HT HN HB N f n Hr.
  destruct (@reachable_items_range TC func args dimensions steps wq0 ctx0 s
              HT HN HB Hr) as (Hnd & Hin & Hlen).
  destruct (@reachable_cnt TC func args dimensions steps wq0 ctx0 s HT HN Hr)
    as (Cc & Cu & Cb).
  fold f in Cc, Cu, Cb. fold n in Cc, Cu, Cb. fold N in Hin, Hlen.
  split; [exact Hnd|]. split; [|split].
  - intros c Hc. split.
    + apply dispatch_worker_In. now apply Cb.
    + apply Hin. unfold items. now apply in_map.
  - intros t Ht. apply dispatch_worker_In in Ht.
    assert (Hle : (length (calls_of t s) <= length (calls s))%nat).
    { unfold calls_of. apply filter_length_le. }
    assert (Hk : counting (thr s t) = 0 \/
                 counting (thr s t) = 1 /\ (1 <= length (calls_of t s))%nat).
    { pose proof (@reachable_counted TC func args dimensions steps wq0 ctx0 s
                                     HT HN Hr t Ht) as Hc.
      unfold counting in *. destruct (pc (thr s t)); auto. }
    rewrite (Cc t Ht). rewrite intp_id by (unfold intp_max in *; lia). lia.
  - intros i Hi. apply Cu. intros Hb. apply Hi. now apply dispatch_worker_In.
Qed.

(** The call on 10 indices with three threads, after [uneven_schedule]:
    thread 0 has counted its 6 calls. *)
Lemma call_log_and_counters_10_3 :
  let f := body_setup 3 kernel0 no_args (dims 10) no_args
                      zero_queues zero_contexts in
  let s := run (f_common f) uneven_schedule (spawn f) in
  NoDup (items s) /\
  completed (ctxs s 0) = Z.of_nat (length (calls_of 0 s)) - counting (thr s 0).
Proof.
  destruct (@call_log_and_counters 3 kernel0 no_args (dims 10) no_args
              zero_queues zero_contexts
              (run (f_common (body_setup 3 kernel0 no_args (dims 10) no_args
                                         zero_queues zero_contexts))
                   uneven_schedule
                   (spawn (body_setup 3 kernel0 no_args (dims 10) no_args
                                      zero_queues zero_contexts))))
    as (Hnd & _ & Hc & _).
  - unfold int_max. lia.
  - unfold dims, intp_max. lia.
  - intros i _. simpl. lia.
  - apply run_exec. reflexivity.
  - split; [exact Hnd|]. apply (Hc 0). vm_compute. auto.
Defined.

(** * Calls without the fallback *)

(** X5.  When [ThreadCount <= N] (no fallback), whatever the stack held in
    the two arrays and whatever the schedule: a call that has ended was not
    killed, it has handed every index of [0, N) to the kernel exactly once,
    the [completed] counters add up to [N], and the debug check lets it
    return. *)
Theorem full_width_call_is_exact TC func args dimensions steps wq0 ctx0 s o :
  1 <= TC <= int_max -> TC <= dimensions 0 < intp_max ->
  body TC func args dimensions steps wq0 ctx0 s o ->
  o = Returned /\ dead s = false /\
  Permutation (items s) (range (dimensions 0)) /\
  total_completed TC (ctxs s) = dimensions 0.
Proof.
  intros HT HN Hb.
  assert (HN' : 0 <= dimensions 0 < intp_max) by lia.
  destruct (@body_returns TC func args dimensions steps wq0 ctx0 s o HT HN')
    as [-> HP]; try assumption.
  { intros i Hi. lia. }
  { intros i Hi. lia. }
  split; [reflexivity|].
  destruct Hb as [Hr [[_ Ho]|(Hd & _ & Ho)]]; [discriminate|].
  split; [exact Hd|]. split; [exact HP|].
  unfold race_check in Ho.
  destruct (Z.eqb_spec (total_completed TC (ctxs s)) (dimensions 0));
    [assumption | discriminate].
Qed.

(** [N = 10] on three threads under [uneven_schedule]. *)
Lemma full_width_call_is_exact_10_3 :
  let f := body_setup 3 kernel0 no_args (dims 10) no_args
                      zero_queues zero_contexts in
  let s := run (f_common f) uneven_schedule (spawn f) in
  Returned = Returned /\ dead s = false /\
  Permutation (items s) (range (dims 10 0)) /\
  total_completed 3 (ctxs s) = dims 10 0.
Proof.
  apply (@full_width_call_is_exact 3 kernel0 no_args (dims 10) no_args
           zero_queues zero_contexts).
  - unfold int_max. lia.
  - unfold dims, intp_max. lia.
  - apply body_returns_10_3.
Defined.

(** * Progress: the lock words and the idle threads *)

Lemma Lock_spec q :
  Lock q = if lock q =? 0 then Some (set_lock q 1) else None.
Proof. unfold Lock, atomic_cmpxchg. destruct (lock q =? 0); reflexivity. Qed.

Lemma Unlock_spec q :
  Unlock q = if lock q =? 1 then Some (set_lock q 0) else None.
Proof. unfold Unlock, atomic_cmpxchg. destruct (lock q =? 1); reflexivity. Qed.

Lemma idle_step common s t : idle s t = true -> thread_step common t s = s.
Proof.
  unfold idle, thread_step, Lock, atomic_cmpxchg.
  destruct (pc (thr s t)); try discriminate; intros H; try reflexivity.
  - destruct (lock (wqs s (id (ctxs s t))) =? 0); [discriminate|reflexivity].
  - destruct (lock (wqs s (l_i (thr s t))) =? 0); [discriminate|reflexivity].
Qed.

Lemma holding_not_idle s t q :
  holding t (thr s t) = Some q -> idle s t = false.
Proof.
  unfold holding, idle. destruct (pc (thr s t)); congruence.
Qed.

Section Locks.

Variable common : ContextCommon.
Variable n : Z.
Variables lo hi : Z -> Z.

Local Abbreviation built := (built n).
Local Abbreviation Inv := (Inv common n lo hi).
Local Abbreviation Spare := (Spare common n).

(** What a step does to the lock word of queue [q]: nothing, or the thread
    takes the lock, or it gives it back. *)
Lemma thread_step_lock s t q :
  Inv s -> built t ->
  let s' := thread_step common t s in
  (lock (wqs s' q) = lock (wqs s q) /\
   (holding t (thr s' t) = Some q <-> holding t (thr s t) = Some q)) \/
  (lock (wqs s q) = 0 /\ holding t (thr s' t) = Some q) \/
  (holding t (thr s t) = Some q /\ lock (wqs s' q) = 0).
Proof.
  intros I Ht.
  pose proof (inv_id I Ht) as Hid.
  pose proof (fun q => inv_held I (t:=t) (q:=q) Ht) as Hheld.
  cbv zeta. unfold thread_step. rewrite Hid, !Lock_spec, !Unlock_spec.
  unfold holding in *.
  destruct (thr s t) as [l item lst sc i] eqn:Hthr; simpl in *.
  destruct l; simpl;
    try rewrite (Hheld _ eq_refl); simpl;
    repeat match goal with
           | |- context [if ?b =? ?c then _ else _] =>
               destruct (Z.eqb_spec b c)
           | |- context [if ?b then _ else _] => destruct b
           end;
    unfold with_thr, with_wq, with_ctx, with_call, kill; simpl;
    rewrite ?upd_eq, ?Hthr; simpl;
    try (left; split; [reflexivity | tauto]);
    destruct (Z.eq_dec q t) as [Et|Et]; destruct (Z.eq_dec q i) as [Ei|Ei];
    subst;
    rewrite ?upd_eq, ?upd_neq by congruence; simpl;
    try (left; split; [reflexivity | split; congruence]);
    try (right; left; split; [assumption | reflexivity]);
    try (right; right; split; reflexivity).
Qed.

Lemma thread_step_spare s t :
  Inv s -> built t -> Spare s -> Spare (thread_step common t s).
Proof.
  intros I Ht Hs q Hq.
  destruct (thread_step_lock q I Ht) as [[Hl Hh]|[[Hl Hh]|[Hh Hl]]].
  - destruct (Hs q Hq) as [H0|(u & Hu & Hhu)]; [left; congruence|].
    right. exists u. split; [assumption|].
    destruct (Z.eq_dec u t) as [->|Hne].
    + now apply Hh.
    + rewrite thread_step_other by assumption. assumption.
  - right. exists t. auto.
  - now left.
Qed.

(** If every created thread is idle, every created thread has returned. *)
Lemma all_idle_joined s :
  Inv s -> Spare s ->
  (forall t, built t -> idle s t = true) ->
  forall t, built t -> pc (thr s t) = Ret.
Proof.
  intros I Hs Hidle t Ht.
  assert (Hfree : forall q, built q \/ 0 <= q < num_thread common ->
                            lock (wqs s q) = 0).
  { intros q Hq.
    destruct (Z.eq_dec (lock (wqs s q)) 0) as [|Hl]; [assumption|exfalso].
    assert (Hown : exists u, built u /\ holding u (thr s u) = Some q).
    { assert (Hc : built q \/ n <= q < num_thread common).
      { destruct Hq as [Hq|Hq]; [now left|].
        destruct (Z_lt_le_dec q n); [left; unfold built|right]; lia. }
      destruct Hc as [Bq|Hb].
      - destruct (inv_queue I Bq) as (_ & _ & _ & _ & [H0|H1]);
          [contradiction|].
        exact (inv_owner I Bq H1).
      - destruct (Hs q ltac:(lia)) as [H0|H1]; [contradiction | exact H1]. }
    destruct Hown as (u & Hu & Hh).
    apply holding_not_idle in Hh. rewrite (Hidle u Hu) in Hh. discriminate. }
  pose proof (Hidle t Ht) as Hi.
  pose proof (inv_thread I Ht) as Hth.
  pose proof (inv_id I Ht) as Hid.
  pose proof (inv_queue I Ht) as (Q1 & Q0 & Q2 & Q3 & Q4).
  unfold idle in Hi. rewrite Hid in Hi. unfold thread_ok in Hth.
  destruct (pc (thr s t)); try discriminate; try reflexivity; exfalso.
  - rewrite Hfree in Hi by (now left). discriminate.
  - rewrite Hfree in Hi by (right; lia). discriminate.
Qed.

End Locks.

(** * Termination: the rank of a state *)

Lemma sum_upto_upd {A : Type} (k : nat) (g : A -> Z) (f : Z -> A) i v :
  0 <= i < Z.of_nat k ->
  sum_upto k (fun j => g (upd f i v j)) =
  sum_upto k (fun j => g (f j)) + g v - g (f i).
Proof.
  induction k as [|k IH]; intros Hi; [lia|].
  simpl. destruct (Z.eq_dec i (Z.of_nat k)) as [->|Hne].
  - rewrite upd_eq.
    rewrite (sum_upto_ext k (fun j => g (upd f (Z.of_nat k) v j))
                          (fun j => g (f j))).
    + lia.
    + intros j Hj. rewrite upd_neq by lia. reflexivity.
  - rewrite IH by lia. rewrite upd_neq by congruence. lia.
Qed.

Lemma sum_upto_upd_out {A : Type} (k : nat) (g : A -> Z) (f : Z -> A) i v :
  ~ 0 <= i < Z.of_nat k ->
  sum_upto k (fun j => g (upd f i v j)) = sum_upto k (fun j => g (f j)).
Proof.
  intros Hi. apply sum_upto_ext. intros j Hj.
  rewrite upd_neq by lia. reflexivity.
Qed.

Lemma unclaimed_upd n W q w :
  built n q ->
  unclaimed n (upd W q w) =
  unclaimed n W + (last w - next w) - (last (W q) - next (W q)).
Proof.
  intros Hq. unfold unclaimed, built in *.
  rewrite (@sum_upto_upd _ (Z.to_nat n)
             (fun w => last w + 1 - next w) W q w) by lia.
  lia.
Qed.

Lemma unclaimed_upd_out n W q w :
  ~ built n q -> unclaimed n (upd W q w) = unclaimed n W.
Proof.
  intros Hq. unfold unclaimed, built in *.
  apply (@sum_upto_upd_out _ (Z.to_nat n) (fun w => last w + 1 - next w)).
  lia.
Qed.

Lemma unclaimed_lock n W q v :
  unclaimed n (upd W q (set_lock (W q) v)) = unclaimed n W.
Proof.
  unfold unclaimed. apply sum_upto_ext. intros j _.
  unfold upd. destruct (j =? q) eqn:E; [|reflexivity].
  apply Z.eqb_eq in E. subst j. reflexivity.
Qed.

Lemma steps_sum_upd T n Th t th :
  built n t ->
  sum_upto (Z.to_nat n) (fun u => steps_left T (upd Th t th u)) =
  sum_upto (Z.to_nat n) (fun u => steps_left T (Th u)) +
  steps_left T th - steps_left T (Th t).
Proof.
  intros Ht. unfold built in Ht.
  apply (@sum_upto_upd _ (Z.to_nat n) (steps_left T) Th t th). lia.
Qed.

Lemma sweep_left_succ T i :
  i < T -> sweep_left T (i + 1) = sweep_left T i - 4.
Proof. unfold sweep_left. lia. Qed.

Lemma sweep_left_end T i : T <= i -> sweep_left T i = 1.
Proof. unfold sweep_left. lia. Qed.

Lemma sweep_left_pos T i : 1 <= sweep_left T i.
Proof. unfold sweep_left. lia. Qed.

Lemma after_sweep_bounds T c :
  1 <= after_sweep T c <= after_sweep T 1 /\
  after_sweep T 1 = sweep_left T 0 + 2 /\ after_sweep T 0 = 1.
Proof.
  unfold after_sweep. pose proof (sweep_left_pos T 0).
  destruct (Z.eqb_spec c 0); simpl; lia.
Qed.

Ltac rsimpl :=
  cbn [pc l_i l_item l_last l_steal_continue goto set_i set_item set_l_last
       set_steal_continue].

Section Rank.

Variable common : ContextCommon.
Variables n N : Z.
Variables lo hi : Z -> Z.

Local Abbreviation built := (built n).
Local Abbreviation Inv := (Inv common n lo hi).
Local Abbreviation Acct := (Acct common n lo hi).
Local Abbreviation T := (num_thread common).

Hypothesis HN : N < intp_max.
Hypothesis Hlo : forall q, built q -> 0 <= lo q.
Hypothesis Hhi : forall q, built q -> hi q <= N.
Hypothesis Hnt : num_thread common <= int_max.

Lemma rank_nonneg s : Inv s -> 0 <= rank common n s.
Proof.
  intros I. unfold rank.
  assert (0 <= sum_upto (Z.to_nat n) (fun t => steps_left T (thr s t))).
  { apply sum_upto_nonneg. intros t Ht.
    assert (Bt : built t) by (unfold built; lia).
    pose proof (inv_thread I Bt) as Hth. unfold thread_ok in Hth.
    unfold steps_left, claim_cost.
    destruct (after_sweep_bounds T (l_steal_continue (thr s t)))
      as (A1 & A2 & A3).
    pose proof (sweep_left_pos T 0).
    pose proof (sweep_left_pos T (l_i (thr s t))).
    pose proof (sweep_left_pos T (l_i (thr s t) + 1)).
    destruct (pc (thr s t)); try lia;
      unfold sweep_left in *; lia. }
  assert (0 <= unclaimed n (wqs s)).
  { apply sum_upto_nonneg. intros q Hq.
    assert (Bq : built q) by (unfold built; lia).
    destruct (inv_queue I Bq) as (_ & _ & _ & Q3 & _). lia. }
  unfold claim_cost. pose proof (sweep_left_pos T 0). nia.
Qed.

(** A step of a thread that is not idle lowers the rank. *)
Lemma thread_step_rank s t :
  Inv s -> Acct s -> built t -> idle s t = false ->
  rank common n (thread_step common t s) < rank common n s.
Proof.
  intros I A Ht Hidle.
  pose proof (inv_id I Ht) as Hid.
  pose proof (inv_thread I Ht) as Hth.
  pose proof (inv_queue I Ht) as (Q1 & Q0 & Q2 & Q3 & Q4).
  pose proof (Hlo Ht) as Hlo_t. pose proof (Hhi Ht) as Hhi_t.
  pose proof (fun q => inv_held I (t:=t) (q:=q) Ht) as Hheld.
  pose proof (acct_target A Ht) as Htg.
  unfold idle in Hidle. rewrite Hid in Hidle.
  unfold rank, thread_step. rewrite Hid, !Lock_spec, !Unlock_spec.
  unfold thread_ok in Hth. unfold holding in Hheld.
  destruct (after_sweep_bounds T (l_steal_continue (thr s t)))
    as (A1 & A2 & A3).
  pose proof (sweep_left_pos T 0) as W0.
  pose proof (sweep_left_pos T (l_i (thr s t))) as Wi.
  remember (unclaimed n (wqs s)) as G eqn:HG.
  set (L := sum_upto (Z.to_nat n) (fun u => steps_left T (thr s u))) in *.
  set (K := claim_cost T) in *.
  assert (HK : K = sweep_left T 0 + 15) by reflexivity.
  assert (Hstep : forall W' th' d,
            steps_left T th' + K * d < steps_left T (thr s t) ->
            unclaimed n W' = G + d ->
            sum_upto (Z.to_nat n)
              (fun u => steps_left T (upd (thr s) t th' u)) +
            K * unclaimed n W' < L + K * G).
  { intros W' th' d H1 H2.
    rewrite (@steps_sum_upd T n (thr s) t th' Ht), H2. fold L. lia. }
  clearbody K L.
  destruct (thr s t) as [l item lst sc i] eqn:Hthr; simpl in *.
  destruct l; simpl in *; try discriminate;
    unfold with_thr, with_wq, with_ctx, with_call; simpl.
  - (* DrainLock *)
    destruct (Z.eqb_spec (lock (wqs s t)) 0); [|discriminate].
    apply Hstep with (d := 0); [unfold steps_left, claim_cost; rsimpl; lia|].
    simpl. rewrite unclaimed_lock. lia.
  - (* DrainItem *)
    apply Hstep with (d := 0); [unfold steps_left, claim_cost; rsimpl; lia|simpl; lia].
  - (* DrainNext *)
    rewrite intp_id by lia.
    apply Hstep with (d := -1); [unfold steps_left, claim_cost; rsimpl; lia|].
    simpl. rewrite unclaimed_upd by assumption. simpl. lia.
  - (* DrainLast *)
    apply Hstep with (d := 0); [unfold steps_left, claim_cost; rsimpl; lia|simpl; lia].
  - (* DrainUnlock *)
    rewrite (Hheld t eq_refl). simpl.
    apply Hstep with (d := 0); [unfold steps_left, claim_cost; rsimpl; lia|].
    simpl. rewrite unclaimed_lock. lia.
  - (* DrainTest *)
    destruct (Z.geb_spec item lst);
      (apply Hstep with (d := 0); [unfold steps_left, claim_cost; rsimpl; lia|simpl; lia]).
  - (* DrainWork *)
    apply Hstep with (d := 0); [unfold steps_left, claim_cost; rsimpl; lia|simpl; lia].
  - (* DrainCompleted *)
    apply Hstep with (d := 0); [unfold steps_left, claim_cost; rsimpl; lia|simpl; lia].
  - (* StealCond *)
    destruct (Z.eqb_spec sc 0) as [->|Hsc]; simpl;
      (apply Hstep with (d := 0); [unfold steps_left, claim_cost; rsimpl|simpl; lia]).
    + lia.
    + unfold after_sweep in *. simpl.
      destruct (Z.eqb_spec sc 0); [contradiction|]. lia.
  - (* StealFor *)
    destruct (Z.ltb_spec i T).
    + destruct (Z.eqb_spec i t); simpl;
        (apply Hstep with (d := 0); [unfold steps_left, claim_cost; rsimpl|simpl; lia]).
      * rewrite int_id by lia. rewrite sweep_left_succ by lia. lia.
      * lia.
    + apply Hstep with (d := 0); [unfold steps_left, claim_cost; rsimpl|simpl; lia].
      rewrite sweep_left_end in * by lia. lia.
  - (* StealLock *)
    destruct (Z.eqb_spec (lock (wqs s i)) 0); [|discriminate].
    apply Hstep with (d := 0); [unfold steps_left, claim_cost; rsimpl; lia|].
    simpl. rewrite unclaimed_lock. lia.
  - (* StealTest *)
    destruct (Z.ltb_spec (next (wqs s i)) (last (wqs s i)));
      (apply Hstep with (d := 0); [unfold steps_left, claim_cost; rsimpl; lia|simpl; lia]).
  - (* StealDec *)
    specialize (Htg eq_refl).
    destruct Hth as (Hown & Hi & Hlt). specialize (Hlt Htg).
    destruct (inv_queue I Htg) as (B1 & B0 & B2 & B3 & B4).
    pose proof (Hlo Htg). pose proof (Hhi Htg).
    rewrite intp_id by lia.
    apply Hstep with (d := -1); [unfold steps_left, claim_cost; rsimpl|].
    + rewrite sweep_left_succ by lia. lia.
    + simpl. rewrite unclaimed_upd by assumption. simpl. lia.
  - (* StealItem *)
    apply Hstep with (d := 0); [unfold steps_left, claim_cost; rsimpl; lia|simpl; lia].
  - (* StealUnlock *)
    rewrite (Hheld i eq_refl). simpl.
    apply Hstep with (d := 0); [unfold steps_left, claim_cost; rsimpl; lia|].
    simpl. rewrite unclaimed_lock. lia.
  - (* StealWork *)
    apply Hstep with (d := 0); [unfold steps_left, claim_cost; rsimpl; lia|simpl; lia].
  - (* StealCompleted *)
    apply Hstep with (d := 0); [unfold steps_left, claim_cost; rsimpl; lia|simpl; lia].
  - (* StealMark *)
    apply Hstep with (d := 0); [unfold steps_left, claim_cost; rsimpl|simpl; lia].
    rewrite int_id by lia. lia.
  - (* StealUnlockEmpty *)
    rewrite (Hheld i eq_refl). simpl.
    apply Hstep with (d := 0); [unfold steps_left, claim_cost; rsimpl|].
    + rewrite int_id by lia. rewrite sweep_left_succ by lia. lia.
    + simpl. rewrite unclaimed_lock. lia.
Qed.

Hypothesis Hdisj : forall q q', built q -> built q' -> q < q' -> hi q <= lo q'.
Hypothesis Hlohi : forall q, built q -> lo q <= hi q.

Lemma schedule_ok_cons t sched :
  schedule_ok n (t :: sched) = true -> built t /\ schedule_ok n sched = true.
Proof.
  unfold schedule_ok. simpl. intros H.
  apply andb_prop in H as [H1 H2]. apply andb_prop in H1 as [H0 H1].
  split; [unfold built; lia | assumption].
Qed.

Lemma run_cons t sched s :
  run common (t :: sched) s =
  run common sched (if dead s then s else thread_step common t s).
Proof. reflexivity. Qed.

(** The steps of a schedule that are not idle are paid for by the rank. *)
Lemma run_work sched s :
  Inv s -> Acct s -> schedule_ok n sched = true ->
  Z.of_nat (work common sched s) + rank common n (run common sched s) <=
  rank common n s.
Proof.
  revert s. induction sched as [|t sched IH]; intros s I A Hok.
  - simpl. lia.
  - apply schedule_ok_cons in Hok as [Ht Hok].
    rewrite run_cons. simpl work. rewrite (inv_alive I). simpl orb.
    assert (I' : Inv (thread_step common t s)).
    { eapply thread_step_inv with (N := N); eassumption. }
    assert (A' : Acct (thread_step common t s)).
    { eapply thread_step_acct with (N := N); eassumption. }
    specialize (IH _ I' A' Hok).
    destruct (idle s t) eqn:Hi.
    + rewrite (idle_step common s t Hi) in IH |- *. lia.
    + pose proof (thread_step_rank I A Ht Hi). lia.
Qed.

Lemma pick_none s :
  pick (_dispatch_worker n) s = None -> forall t, built t -> idle s t = true.
Proof.
  intros H t Ht. unfold pick in H.
  pose proof (find_none _ _ H t) as Hn.
  rewrite dispatch_worker_In in Hn. specialize (Hn Ht).
  destruct (idle s t); [reflexivity | discriminate].
Qed.

Lemma pick_some s t :
  pick (_dispatch_worker n) s = Some t -> built t /\ idle s t = false.
Proof.
  intros H. unfold pick in H. apply find_some in H as [H1 H2].
  rewrite dispatch_worker_In in H1. split; [assumption|].
  destruct (idle s t); [discriminate | reflexivity].
Qed.

(** The greedy scheduler joins all threads within [rank] steps. *)
Lemma greedy_joins fuel s :
  Inv s -> Acct s -> Spare common n s ->
  rank common n s <= Z.of_nat fuel ->
  let sched := greedy common (_dispatch_worker n) fuel s in
  schedule_ok n sched = true /\
  joined n (run common sched s) /\
  (length sched <= fuel)%nat /\
  Z.of_nat (work common sched s) = Z.of_nat (length sched).
Proof.
  revert s. induction fuel as [|fuel IH]; intros s I A S Hr; cbv zeta.
  - simpl. split; [reflexivity|]. split; [|split; [lia|reflexivity]].
    intros t Ht. apply dispatch_worker_In in Ht.
    apply (all_idle_joined I S); [|assumption].
    intros u Hu. destruct (idle s u) eqn:Hi; [reflexivity|exfalso].
    pose proof (thread_step_rank I A Hu Hi).
    assert (I' : Inv (thread_step common u s)).
    { eapply thread_step_inv with (N := N); eassumption. }
    pose proof (rank_nonneg I'). lia.
  - simpl. destruct (pick (_dispatch_worker n) s) as [t|] eqn:Hp.
    + apply pick_some in Hp as [Ht Hi].
      assert (I' : Inv (thread_step common t s)).
      { eapply thread_step_inv with (N := N); eassumption. }
      assert (A' : Acct (thread_step common t s)).
      { eapply thread_step_acct with (N := N); eassumption. }
      pose proof (thread_step_spare I Ht S) as S'.
      pose proof (thread_step_rank I A Ht Hi) as Hlt.
      destruct (IH _ I' A' S' ltac:(lia)) as (H1 & H2 & H3 & H4).
      split; [|split; [|split]].
      * unfold schedule_ok in *. simpl. rewrite H1.
        unfold built in Ht.
        destruct (Z.leb_spec 0 t); [|lia]. destruct (Z.ltb_spec t n); [|lia].
        reflexivity.
      * rewrite run_cons, (inv_alive I). exact H2.
      * simpl. lia.
      * simpl work. rewrite (inv_alive I), Hi. simpl. lia.
    + simpl. split; [reflexivity|]. split; [|split; [lia|reflexivity]].
      intros t Ht. apply dispatch_worker_In in Ht.
      apply (all_idle_joined I S); [|assumption].
      now apply pick_none.
Qed.

End Rank.

(** * Progress and termination of a call *)

Lemma exec_trans common n s0 s1 s2 :
  exec common n s0 s1 -> exec common n s1 s2 -> exec common n s0 s2.
Proof.
  intros H1 H2. induction H2 as [|s2 s3 _ IH Hstep]; [assumption|].
  eapply exec_step; eassumption.
Qed.

Lemma sum_upto_const k c : sum_upto k (fun _ => c) = Z.of_nat k * c.
Proof.
  induction k as [|k IH]; [reflexivity|].
  simpl sum_upto. rewrite IH. lia.
Qed.

(** The planned ranges hold [N] indices. *)
Lemma plan_total c n N :
  1 <= n ->
  sum_upto (Z.to_nat n)
           (fun q => plan_hi c n N q + 1 - plan_lo c q) = N + n.
Proof.
  intros Hn.
  assert (H : forall k, (k <= Z.to_nat (n - 1))%nat ->
            sum_upto k (fun q => plan_hi c n N q + 1 - plan_lo c q) =
            Z.of_nat k * (c + 1)).
  { induction k as [|k IH]; intros Hk; [reflexivity|].
    simpl sum_upto. rewrite IH by lia. unfold plan_hi, plan_lo.
    destruct (Z.eqb_spec (Z.of_nat k) (n - 1)); lia. }
  replace (Z.to_nat n) with (S (Z.to_nat (n - 1))) by lia.
  simpl sum_upto. rewrite H by lia. unfold plan_hi, plan_lo.
  rewrite Z2Nat.id by lia. rewrite Z.eqb_refl. lia.
Qed.

Section CallProgress.

Variable ThreadCount : Z.
Variable func : list Z -> Z.
Variables args dimensions steps : Z -> Z.
Variable wq0 : Z -> WorkQueue.
Variable ctx0 : Z -> Context.

Local Abbreviation N := (dimensions 0).
Local Abbreviation f :=
  (body_setup ThreadCount func args dimensions steps wq0 ctx0).

Hypothesis HT : 1 <= ThreadCount <= int_max.
Hypothesis HN : 0 <= N < intp_max.

Lemma reachable_spare s :
  unlocked ThreadCount N wq0 ->
  reachable ThreadCount func args dimensions steps wq0 ctx0 s ->
  Spare (f_common f) (f_num_thread f) s.
Proof.
  intros HU Hr. unfold reachable in Hr.
  destruct (@call_plan ThreadCount func args dimensions steps wq0 ctx0 HT HN)
    as (H1 & H2 & H3 & H4 & H5 & H6 & H7 & H8).
  destruct (@body_setup_plan ThreadCount func args dimensions steps wq0 ctx0 HT)
    as (_ & _ & Hn & _).
  { unfold intp_max in *. lia. }
  remember (spawn f) as s0 eqn:Es0.
  induction Hr as [|s1 s2 Hex IH Hstep].
  - subst s0. intros q Hq. left. simpl. rewrite H7 by lia. apply HU.
    rewrite H1 in Hq. cbv zeta in Hn. rewrite Hn in Hq.
    destruct (Z.ltb_spec N ThreadCount); lia.
  - destruct Hstep as [t Ht _]. apply dispatch_worker_In in Ht.
    eapply thread_step_spare; [|assumption|exact IH].
    apply (@reachable_inv ThreadCount func args dimensions steps wq0 ctx0
                          HT HN).
    unfold reachable. now subst s0.
Qed.

Lemma rank_spawn :
  rank (f_common f) (f_num_thread f) (spawn f) =
  f_num_thread f * (4 * ThreadCount + 5) +
  (4 * ThreadCount + 16) * (N + f_num_thread f).
Proof.
  destruct (@call_plan ThreadCount func args dimensions steps wq0 ctx0 HT HN)
    as (H1 & H2 & H3 & H4 & H5 & H6 & H7 & H8).
  unfold rank. rewrite H1. simpl thr. simpl wqs.
  rewrite sum_upto_const.
  assert (HU : unclaimed (f_num_thread f) (f_workqueues f) =
               N + f_num_thread f).
  { destruct (Z_le_gt_dec 1 (f_num_thread f)) as [Hn|Hn].
    - rewrite <- (plan_total (f_ChunkSize f) N Hn).
      unfold unclaimed. apply sum_upto_ext. intros q Hq.
      rewrite H6 by (unfold built; lia). reflexivity.
    - assert (f_num_thread f = 0) as -> by lia.
      assert (N = 0) as -> by lia. reflexivity. }
  rewrite HU. unfold steps_left, claim_cost, after_sweep, sweep_left, entry.
  rsimpl. change (1 =? 0) with false. cbv iota.
  rewrite Z2Nat.id by lia.
  replace (Z.max 0 (ThreadCount - 0)) with ThreadCount by lia. lia.
Qed.

End CallProgress.

(** X6.  Deadlock freedom.  In every state of a call in which the lock words
    of the unpopulated queue slots read 0 on the stack: a step of an idle
    thread (one that has returned, or whose [Lock] finds the lock word taken)
    leaves the state as it is, and unless every created thread has returned,
    some created thread is not idle.  All created threads are idle exactly
    when all have returned. *)
Theorem workers_never_deadlock TC func args dimensions steps wq0 ctx0 s :
  1 <= TC <= int_max -> 0 <= dimensions 0 < intp_max ->
  unlocked TC (dimensions 0) wq0 ->
  let f := body_setup TC func args dimensions steps wq0 ctx0 in
  let n := f_num_thread f in
  reachable TC func args dimensions steps wq0 ctx0 s ->
  (forall t, idle s t = true -> thread_step (f_common f) t s = s) /\
  (joined n s \/
   exists t, In t (_dispatch_worker n) /\ idle s t = false) /\
  ((forall t, In t (_dispatch_worker n) -> idle s t = true) <-> joined n s).
Proof.
  intros HT HN HU f n Hr.
  pose proof (@reachable_inv TC func args dimensions steps wq0 ctx0 HT HN s Hr)
    as I.
  pose proof (@reachable_spare TC func args dimensions steps wq0 ctx0 HT HN s
                               HU Hr) as S.
  fold f in I, S. fold n in I, S.
  assert (Hall : (forall t, In t (_dispatch_worker n) -> idle s t = true) ->
                 joined n s).
  { intros Hi t Ht. apply dispatch_worker_In in Ht.
    apply (all_idle_joined I S); [|assumption].
    intros u Hu. apply Hi. now apply dispatch_worker_In. }
  split; [intros t; apply idle_step|]. split.
  - destruct (pick (_dispatch_worker n) s) as [t|] eqn:Hp.
    + right. exists t. apply pick_some in Hp as [Ht Hi].
      split; [now apply dispatch_worker_In | assumption].
    + left. apply Hall. intros t Ht. apply dispatch_worker_In in Ht.
      now apply (pick_none _ Hp).
  - split; [exact Hall|].
    intros J t Ht. unfold idle. now rewrite (J t Ht).
Qed.

(** While thread 0 steals from queue 1, thread 0 is not idle. *)
Lemma workers_never_deadlock_stealing :
  joined (f_num_thread call_4_2) about_to_steal \/
  exists t, In t (_dispatch_worker (f_num_thread call_4_2)) /\
            idle about_to_steal t = false.
Proof.
  apply (@workers_never_deadlock 2 kernel0 no_args (dims 4) no_args
           zero_queues zero_contexts about_to_steal).
  - unfold int_max. lia.
  - unfold dims, intp_max. lia.
  - intros i _. reflexivity.
  - apply run_exec. reflexivity.
Defined.

(** X7.  Bounded work.  In a call whose unpopulated queue slots hold no
    work, a step of a thread that is not idle changes the state, and under
    any schedule the created threads together take at most
    [n * (4*T + 5) + (4*T + 16) * (N + n)] such steps, for [n] created
    threads, [T = ThreadCount] and [N] indices: only failed lock attempts
    and steps of returned threads can go on without end. *)
Theorem productive_steps_bounded TC func args dimensions steps wq0 ctx0 sched :
  1 <= TC <= int_max -> 0 <= dimensions 0 < intp_max ->
  benign TC (dimensions 0) wq0 ->
  let N := dimensions 0 in
  let f := body_setup TC func args dimensions steps wq0 ctx0 in
  let n := f_num_thread f in
  schedule_ok n sched = true ->
  Z.of_nat (work (f_common f) sched (spawn f)) <=
    n * (4 * TC + 5) + (4 * TC + 16) * (N + n) /\
  forall s t, reachable TC func args dimensions steps wq0 ctx0 s ->
    In t (_dispatch_worker n) -> idle s t = false ->
    thread_step (f_common f) t s <> s.
Proof.
  intros HT HN HB N f n Hok.
  destruct (@call_plan TC func args dimensions steps wq0 ctx0 HT HN)
    as (H1 & H2 & H3 & H4 & H5 & H6 & H7 & H8).
  fold N in H3, H5, H6. fold f in H1, H2, H3, H4, H5, H6, H7, H8.
  fold n in H2, H3, H5, H6.
  set (lo := plan_lo (f_ChunkSize f)).
  set (hi := plan_hi (f_ChunkSize f) n N).
  assert (Hlo : forall q, built n q -> 0 <= lo q)
    by (intros q; now apply plan_lo_nonneg).
  assert (Hhi : forall q, built n q -> hi q <= N)
    by (intros q; now apply plan_hi_bound).
  assert (Hdisj : forall q q', built n q -> built n q' -> q < q' ->
                               hi q <= lo q')
    by (intros q q'; now apply plan_disjoint).
  assert (Hlohi : forall q, built n q -> lo q <= hi q)
    by (intros q; now apply plan_lo_hi).
  assert (HNm : N < intp_max) by (unfold N; lia).
  assert (Hnt : num_thread (f_common f) <= int_max) by lia.
  assert (HI : forall s, reachable TC func args dimensions steps wq0 ctx0 s ->
                         Inv (f_common f) n lo hi s).
  { intros s Hr.
    exact (@reachable_inv TC func args dimensions steps wq0 ctx0 HT HN s Hr). }
  assert (HA : forall s, reachable TC func args dimensions steps wq0 ctx0 s ->
                         Acct (f_common f) n lo hi s).
  { intros s Hr.
    exact (@reachable_acct TC func args dimensions steps wq0 ctx0 HT HN s
                           HB Hr). }
  assert (Hr0 : reachable TC func args dimensions steps wq0 ctx0 (spawn f))
    by apply exec_refl.
  split.
  - pose proof (@run_work (f_common f) n N lo hi HNm Hlo Hhi Hnt Hdisj Hlohi
                          sched (spawn f) (HI _ Hr0) (HA _ Hr0) Hok) as Hw.
    assert (Hr1 : reachable TC func args dimensions steps wq0 ctx0
                            (run (f_common f) sched (spawn f))).
    { unfold reachable. fold f. fold n. now apply run_exec. }
    pose proof (@rank_nonneg (f_common f) n lo hi _ (HI _ Hr1)) as Hp.
    pose proof (@rank_spawn TC func args dimensions steps wq0 ctx0 HT HN)
      as Hs.
    fold f in Hs. fold n in Hs. fold N in Hs. lia.
  - intros s t Hr Ht Hi Heq. apply dispatch_worker_In in Ht.
    pose proof (@thread_step_rank (f_common f) n N lo hi HNm Hlo Hhi Hnt
                                  s t (HI _ Hr) (HA _ Hr) Ht Hi) as Hlt.
    rewrite Heq in Hlt. lia.
Qed.

(** [N = 10] on three threads: [uneven_schedule] has at most 415 steps that
    are not idle. *)
Lemma productive_steps_bounded_10_3 :
  let f := body_setup 3 kernel0 no_args (dims 10) no_args
                      zero_queues zero_contexts in
  Z.of_nat (work (f_common f) uneven_schedule (spawn f)) <=
    f_num_thread f * (4 * 3 + 5) + (4 * 3 + 16) * (dims 10 0 + f_num_thread f).
Proof.
  apply (@productive_steps_bounded 3 kernel0 no_args (dims 10) no_args
           zero_queues zero_contexts uneven_schedule).
  - unfold int_max. lia.
  - unfold dims, intp_max. lia.
  - intros i _. simpl. lia.
  - reflexivity.
Defined.

(** X8.  Termination.  From every state of a call in which the unpopulated
    slots of the two arrays hold no work, no lock and no count, the schedule
    that keeps running the first created thread that is not idle joins all
    threads, within [rank] steps none of which is idle; the call then
    returns from the debug check with every index of [0, N) handed to the
    kernel exactly once. *)
Theorem greedy_schedule_returns TC func args dimensions steps wq0 ctx0 s :
  1 <= TC <= int_max -> 0 <= dimensions 0 < intp_max ->
  benign TC (dimensions 0) wq0 -> unlocked TC (dimensions 0) wq0 ->
  clean TC (dimensions 0) ctx0 ->
  let N := dimensions 0 in
  let f := body_setup TC func args dimensions steps wq0 ctx0 in
  let n := f_num_thread f in
  reachable TC func args dimensions steps wq0 ctx0 s ->
  let fuel := Z.to_nat (rank (f_common f) n s) in
  let sched := greedy (f_common f) (_dispatch_worker n) fuel s in
  let s' := run (f_common f) sched s in
  schedule_ok n sched = true /\ (length sched <= fuel)%nat /\
  work (f_common f) sched s = length sched /\
  joined n s' /\
  body TC func args dimensions steps wq0 ctx0 s' Returned /\
  Permutation (items s') (range N).
Proof.
  intros HT HN HB HU HC N f n Hr fuel sched s'.
  destruct (@call_plan TC func args dimensions steps wq0 ctx0 HT HN)
    as (H1 & H2 & H3 & H4 & H5 & H6 & H7 & H8).
  fold N in H3, H5, H6. fold f in H1, H2, H3, H4, H5, H6, H7, H8.
  fold n in H2, H3, H5, H6.
  set (lo := plan_lo (f_ChunkSize f)).
  set (hi := plan_hi (f_ChunkSize f) n N).
  assert (Hlo : forall q, built n q -> 0 <= lo q)
    by (intros q; now apply plan_lo_nonneg).
  assert (Hhi : forall q, built n q -> hi q <= N)
    by (intros q; now apply plan_hi_bound).
  assert (Hdisj : forall q q', built n q -> built n q' -> q < q' ->
                               hi q <= lo q')
    by (intros q q'; now apply plan_disjoint).
  assert (Hlohi : forall q, built n q -> lo q <= hi q)
    by (intros q; now apply plan_lo_hi).
  assert (HNm : N < intp_max) by (unfold N; lia).
  assert (Hnt : num_thread (f_common f) <= int_max) by lia.
  pose proof (@reachable_inv TC func args dimensions steps wq0 ctx0 HT HN s Hr)
    as I.
  pose proof (@reachable_acct TC func args dimensions steps wq0 ctx0 HT HN s
                              HB Hr) as A.
  pose proof (@reachable_spare TC func args dimensions steps wq0 ctx0 HT HN s
                               HU Hr) as S.
  fold f in I, A, S. fold n in I, A, S. fold N in I, A.
  pose proof (@rank_nonneg (f_common f) n lo hi s I) as Hp.
  destruct (@greedy_joins (f_common f) n N lo hi HNm Hlo Hhi Hnt Hdisj Hlohi
                          fuel s I A S) as (G1 & G2 & G3 & G4).
  { unfold fuel. lia. }
  fold sched in G1, G2, G3, G4. fold s' in G2.
  assert (Hr' : reachable TC func args dimensions steps wq0 ctx0 s').
  { unfold reachable in *. fold f in Hr |- *. fold n in Hr |- *.
    eapply exec_trans; [exact Hr|]. now apply run_exec. }
  pose proof (@reachable_inv TC func args dimensions steps wq0 ctx0 HT HN s'
                             Hr') as I'.
  assert (Hb : body TC func args dimensions steps wq0 ctx0 s'
                    (race_check TC (ctxs s') N)).
  { split; [exact Hr'|]. right. split; [exact (inv_alive I')|].
    split; [exact G2 | reflexivity]. }
  destruct (@body_returns TC func args dimensions steps wq0 ctx0 s' _
                          HT HN HB HC Hb) as [Ho HP].
  split; [exact G1|]. split; [exact G3|]. split; [lia|].
  split; [exact G2|]. split; [|exact HP].
  rewrite Ho in Hb. exact Hb.
Qed.

(** The call on 4 indices with 2 threads, taken up where thread 0 is about
    to steal from queue 1. *)
Lemma greedy_schedule_returns_4_2 :
  let f := call_4_2 in
  let n := f_num_thread f in
  let fuel := Z.to_nat (rank (f_common f) n about_to_steal) in
  let sched := greedy (f_common f) (_dispatch_worker n) fuel about_to_steal in
  let s' := run (f_common f) sched about_to_steal in
  schedule_ok n sched = true /\ (length sched <= fuel)%nat /\
  work (f_common f) sched about_to_steal = length sched /\
  joined n s' /\
  body 2 kernel0 no_args (dims 4) no_args zero_queues zero_contexts
       s' Returned /\
  Permutation (items s') (range (dims 4 0)).
Proof.
  apply (@greedy_schedule_returns 2 kernel0 no_args (dims 4) no_args
           zero_queues zero_contexts about_to_steal).
  - unfold int_max. lia.
  - unfold dims, intp_max. lia.
  - intros i _. simpl. lia.
  - intros i _. reflexivity.
  - intros i _. reflexivity.
  - apply run_exec. reflexivity.
Defined.

(** * The memory a call leaves *)

Lemma store_outside m a size v b :
  ~ (a <= b < a + Z.of_nat size) -> store m a size v b = m b.
Proof.
  unfold store. intros Hb.
  assert (G : forall l m0, (forall k, In k l -> (k < size)%nat) ->
                           fold_left (fun m k => upd m (a + Z.of_nat k)
                                                     (byte_at v k)) l m0 b
                           = m0 b).
  { induction l as [|k l IH]; intros m0 Hl; [reflexivity|]. simpl.
    rewrite IH by (intros; apply Hl; now right).
    apply upd_neq. assert (k < size)%nat by (apply Hl; now left). lia. }
  apply G. intros k Hk. apply in_seq in Hk. lia.
Qed.

Lemma store_inside m a size v k :
  (k < size)%nat -> store m a size v (a + Z.of_nat k) = byte_at v k.
Proof.
  unfold store. intros Hk.
  assert (G : forall l m0, NoDup l ->
              fold_left (fun m j => upd m (a + Z.of_nat j) (byte_at v j)) l m0
                        (a + Z.of_nat k) =
              if in_dec Nat.eq_dec k l then byte_at v k
              else m0 (a + Z.of_nat k)).
  { induction l as [|j l IH]; intros m0 Hnd; [reflexivity|].
    inversion Hnd as [|? ? Hj Hnd']; subst. simpl fold_left.
    rewrite IH by assumption.
    destruct (in_dec Nat.eq_dec k l) as [Hin|Hin];
      destruct (in_dec Nat.eq_dec k (j :: l)) as [Hin'|Hin'];
      try reflexivity.
    - exfalso. apply Hin'. now right.
    - destruct Hin' as [->|Hin']; [apply upd_eq|contradiction].
    - apply upd_neq. intros E. apply Hin'. left. lia. }
  rewrite G by apply seq_NoDup.
  destruct (in_dec Nat.eq_dec k (seq 0 size)) as [_|Hn]; [reflexivity|].
  exfalso. apply Hn, in_seq. lia.
Qed.

Lemma load_ext m m' a size :
  (forall k, (k < size)%nat -> m' (a + Z.of_nat k) = m (a + Z.of_nat k)) ->
  load m' a size = load m a size.
Proof.
  unfold load. intros H.
  assert (G : forall l, (forall k, In k l -> (k < size)%nat) ->
              fold_right (fun k v => m' (a + Z.of_nat k) * 256 ^ Z.of_nat k
                                     + v) 0 l =
              fold_right (fun k v => m (a + Z.of_nat k) * 256 ^ Z.of_nat k
                                     + v) 0 l).
  { induction l as [|k l IH]; intros Hl; [reflexivity|]. simpl.
    rewrite IH by (intros; apply Hl; now right).
    rewrite H by (apply Hl; now left). reflexivity. }
  apply G. intros k Hk. apply in_seq in Hk. lia.
Qed.

Lemma in_combine_seq (A : Type) (l : list A) k x :
  In (k, x) (combine (seq 0 (length l)) l) -> nth_error l k = Some x.
Proof.
  assert (G : forall (l : list A) s, In (k, x) (combine (seq s (length l)) l)
                                     -> (s <= k)%nat /\
                                        nth_error l (k - s) = Some x).
  { clear l. induction l as [|y l IH]; intros s; simpl; [tauto|].
    intros [[= -> ->]|Hin].
    - split; [lia|]. now rewrite Nat.sub_diag.
    - apply IH in Hin as [Hle Hn]. split; [lia|].
      replace (k - s)%nat with (S (k - S s)) by lia. exact Hn. }
  intros Hin. apply G in Hin as [_ Hn]. now rewrite Nat.sub_0_r in Hn.
Qed.

Section Replay.

Variable ARGTYS : list nat.
Variable RETTY : nat.
Variable common : ContextCommon.
Variable N : Z.

Local Abbreviation out := (element common (Z.of_nat (length ARGTYS))).
Local Abbreviation inputs :=
  (fun (m : Bytes) (i : Z) =>
     map (fun ka => load m (element common (Z.of_nat (fst ka)) i) (snd ka))
         (combine (seq 0 (length ARGTYS)) ARGTYS)).

(** The output elements do not overlap, and no input element of one index
    overlaps the output element of another. *)
Hypothesis Hout : forall i j, 0 <= i < N -> 0 <= j < N -> i <> j ->
                              apart (out i) RETTY (out j) RETTY.
Hypothesis Hin : forall k size i j,
    nth_error ARGTYS k = Some size -> 0 <= i < N -> 0 <= j < N -> i <> j ->
    apart (element common (Z.of_nat k) i) size (out j) RETTY.

Lemma do_work_elements item m :
  _do_work_sized ARGTYS RETTY common item m =
  store m (out item) RETTY (func common (inputs m item)).
Proof. reflexivity. Qed.

Lemma replay_elements cs m :
  NoDup (map snd cs) -> (forall c, In c cs -> 0 <= snd c < N) ->
  let m' := replay ARGTYS RETTY common cs m in
  (forall i k, In i (map snd cs) -> (k < RETTY)%nat ->
               m' (out i + Z.of_nat k) =
               byte_at (func common (inputs m i)) k) /\
  (forall a, (forall i, In i (map snd cs) ->
                        ~ (out i <= a < out i + Z.of_nat RETTY)) ->
             m' a = m a).
Proof.
  induction cs as [|c cs IH]; intros Hnd Hr; cbv zeta.
  - split; [intros i k []|reflexivity].
  - simpl in Hnd. inversion Hnd as [|x l Hx Hnd']; subst.
    destruct IH as [IH1 IH2]; [assumption | intros; apply Hr; now right |].
    assert (Hc : 0 <= snd c < N) by (apply Hr; now left).
    assert (Hrange : forall j, In j (map snd cs) ->
                               0 <= j < N /\ j <> snd c).
    { intros j Hj. split.
      - apply in_map_iff in Hj as (c' & <- & Hc'). apply Hr. now right.
      - intros E. rewrite E in Hj. contradiction. }
    assert (Hsame : inputs (replay ARGTYS RETTY common cs m) (snd c) =
                    inputs m (snd c)).
    { apply map_ext_in. intros [k size] Hk. simpl.
      apply in_combine_seq in Hk.
      apply load_ext. intros b Hb. apply IH2. intros j Hj.
      destruct (Hrange j Hj) as [Hj1 Hj2].
      destruct (@Hin k size (snd c) j Hk Hc Hj1 ltac:(congruence)); lia. }
    simpl replay. rewrite do_work_elements, Hsame. split.
    + intros i k [<-|Hi] Hk; [now apply store_inside|].
      destruct (Hrange i Hi) as [Hi1 Hi2].
      rewrite store_outside; [now apply IH1|].
      destruct (Hout Hc Hi1 ltac:(congruence)); lia.
    + intros a Ha. rewrite store_outside; [|apply Ha; now left].
      apply IH2. intros i Hi. apply Ha. now right.
Qed.

Lemma sequential_replay m :
  sequential ARGTYS RETTY common N m =
  replay ARGTYS RETTY common (map (fun i => (0, i)) (rev (range N))) m.
Proof.
  unfold sequential, replay, for_range, range.
  generalize (seq 0 (Z.to_nat N)). intros l. revert m.
  induction l as [|k l IH]; intros m; [reflexivity|].
  simpl. rewrite map_app, fold_right_app. simpl. apply IH.
Qed.

End Replay.

Lemma body_setup_common TC kernel args dimensions steps wq0 ctx0 :
  f_common (body_setup TC kernel args dimensions steps wq0 ctx0) =
  mkContextCommon args dimensions steps kernel (int (int TC)).
Proof.
  unfold body_setup.
  destruct (intp (Z.quot (dimensions 0) (intp (int TC))) =? 0); reflexivity.
Qed.



(** * The CUDA staging caller *)

Section StagingCaller.

Variable worker : list Z -> Z.
Variable inputs : list (Z -> Z).
Variables ct threadct blockct : Z.

Local Abbreviation value := (fun i => worker (map (fun x => x i) inputs)).
Local Abbreviation index := (fun bt : Z * Z => snd bt + threadct * fst bt).

Hypothesis Hfit : threadct * blockct <= int_max + 1.

Lemma grid_In b t :
  In (b, t) (grid threadct blockct) <-> 0 <= b < blockct /\ 0 <= t < threadct.
Proof.
  unfold grid. rewrite in_flat_map. split.
  - intros (b' & Hb & Hin). apply in_map_iff in Hin as (t' & E & Ht).
    injection E as <- <-. apply range_In in Hb, Ht. auto.
  - intros [Hb Ht]. exists b. split; [now apply range_In|].
    apply in_map. now apply range_In.
Qed.

Lemma grid_index bt :
  In bt (grid threadct blockct) ->
  0 <= index bt < threadct * blockct /\
  int (snd bt + int (threadct * fst bt)) = index bt.
Proof.
  destruct bt as [b t]. rewrite grid_In. simpl. intros [Hb Ht].
  assert (H1 : 0 <= threadct * b <= threadct * (blockct - 1)) by nia.
  assert (H2 : 0 <= t + threadct * b < threadct * blockct) by nia.
  split; [exact H2|].
  rewrite (int_id (z := threadct * b)) by (unfold int_max in *; lia).
  apply int_id. unfold int_max in *. lia.
Qed.

Lemma index_covers j :
  0 <= threadct ->
  0 <= j < threadct * blockct ->
  exists bt, In bt (grid threadct blockct) /\ index bt = j.
Proof.
  intros Hthr Hj.
  assert (Ht : 0 < threadct).
  { destruct (Z.eq_dec threadct 0) as [E|E]; [rewrite E in Hj|]; lia. }
  exists (j / threadct, j mod threadct). rewrite grid_In. simpl.
  pose proof (Z.div_mod j threadct ltac:(lia)).
  pose proof (Z.mod_pos_bound j threadct Ht).
  assert (0 <= j / threadct) by (apply Z.div_pos; lia).
  assert (j / threadct < blockct).
  { apply Z.div_lt_upper_bound; lia. }
  repeat split; lia.
Qed.

(** What a sequence of threads of the grid leaves in the output array. *)
Lemma launch_threads order output j :
  (forall bt, In bt order -> In bt (grid threadct blockct)) ->
  launch worker inputs ct threadct order output j =
  if (j <? ct) && existsb (fun bt => index bt =? j) order
  then value j else output j.
Proof.
  unfold launch. revert output.
  induction order as [|bt order IH]; intros output Hg.
  - simpl. now rewrite andb_false_r.
  - simpl fold_left. rewrite IH by (intros; apply Hg; now right).
    destruct (grid_index bt (Hg bt (or_introl eq_refl))) as [_ Hi].
    unfold _CudaStagingCaller_body. cbv zeta. rewrite Hi.
    simpl existsb.
    destruct (Z.ltb_spec j ct) as [Hj|Hj]; simpl.
    + destruct (existsb (fun bt0 => index bt0 =? j) order).
      * now rewrite orb_true_r.
      * rewrite orb_false_r.
        destruct (Z.geb_spec (index bt) ct) as [Hge|Hlt].
        -- destruct (Z.eqb_spec (index bt) j); [lia|reflexivity].
        -- unfold upd. rewrite (Z.eqb_sym (index bt) j).
           destruct (Z.eqb_spec j (index bt)) as [->|]; reflexivity.
    + destruct (Z.geb_spec (index bt) ct) as [Hge|Hlt]; [reflexivity|].
      apply upd_neq. lia.
Qed.

End StagingCaller.

(** What a launch leaves in the output array, in whichever order the
    threads of the grid run. *)
Lemma launch_grid_at worker inputs ct threadct blockct order output j :
  0 <= threadct -> threadct * blockct <= int_max + 1 ->
  Permutation order (grid threadct blockct) ->
  launch worker inputs ct threadct order output j =
  if (0 <=? j) && (j <? ct) && (j <? threadct * blockct)
  then worker (map (fun x => x j) inputs) else output j.
Proof.
  intros Hthr Hfit HP.
  assert (Hg : forall bt, In bt order -> In bt (grid threadct blockct)).
  { intros bt. apply Permutation_in. exact HP. }
  assert (Hex : existsb (fun bt => snd bt + threadct * fst bt =? j) order =
                (0 <=? j) && (j <? threadct * blockct)).
  { apply eq_true_iff_eq. rewrite existsb_exists, andb_true_iff.
    rewrite Z.leb_le, Z.ltb_lt. split.
    - intros (bt & Hin & E). apply Z.eqb_eq in E. subst j.
      exact (proj1 (@grid_index threadct blockct Hfit bt (Hg bt Hin))).
    - intros Hj.
      destruct (@index_covers threadct blockct j Hthr (conj (proj1 Hj) (proj2 Hj)))
        as (bt & Hin & E).
      exists bt. split; [|now apply Z.eqb_eq].
      apply (Permutation_in _ (Permutation_sym HP)). exact Hin. }
  rewrite (@launch_threads worker inputs ct threadct blockct Hfit order
                           output j Hg), Hex.
  destruct (0 <=? j), (j <? ct), (j <? threadct * blockct); reflexivity.
Qed.

(** X10.  A launch of the staging caller with [threadct] threads in each of
    [blockct] blocks, where [threadct * blockct <= 2^31] so that no thread
    index wraps (and [threadct >= 0]): in whichever order the threads of the
    grid run, the output array ends up with the worker's value on the input
    elements of [i] at every index [i] below both [ct] and
    [threadct * blockct], and with what it held before at every other index.
    So nothing is written at or beyond [ct], and when the grid has at least
    [ct] threads the whole of [0, ct) is computed. *)
Theorem staging_caller_grid worker inputs ct threadct blockct order output :
  0 <= threadct -> threadct * blockct <= int_max + 1 ->
  Permutation order (grid threadct blockct) ->
  let out' := launch worker inputs ct threadct order output in
  (forall i, 0 <= i < ct -> i < threadct * blockct ->
             out' i = worker (map (fun x => x i) inputs)) /\
  (forall j, ~ (0 <= j < ct /\ j < threadct * blockct) ->
             out' j = output j) /\
  (ct <= threadct * blockct ->
   forall i, out' i = if (0 <=? i) && (i <? ct)
                      then worker (map (fun x => x i) inputs) else output i).
Proof.
  intros Hthr Hfit HP out'.
  assert (H : forall j, out' j =
            if (0 <=? j) && (j <? ct) && (j <? threadct * blockct)
            then worker (map (fun x => x j) inputs) else output j).
  { intros j. now apply launch_grid_at. }
  split; [|split].
  - intros i Hi Hlt. rewrite H.
    destruct (Z.leb_spec 0 i), (Z.ltb_spec i ct),
             (Z.ltb_spec i (threadct * blockct)); simpl; try lia; reflexivity.
  - intros j Hj. rewrite H.
    destruct (Z.leb_spec 0 j), (Z.ltb_spec j ct),
             (Z.ltb_spec j (threadct * blockct)); simpl; try lia; reflexivity.
  - intros Hct i. rewrite H.
    destruct (Z.leb_spec 0 i), (Z.ltb_spec i ct),
             (Z.ltb_spec i (threadct * blockct)); simpl; try lia; reflexivity.
Qed.

(** Six elements on a grid of 2 blocks of 4 threads, run in reverse order:
    element 5 is computed, element 6 is not touched. *)
Lemma staging_caller_grid_6_of_8 :
  let out' := launch sum_kernel ((fun i => i) :: (fun i => 10 * i) :: nil)
                     6 4 (rev (grid 4 2)) (fun _ => -1) in
  out' 5 = 55 /\ out' 6 = -1.
Proof.
  destruct (@staging_caller_grid sum_kernel
              ((fun i => i) :: (fun i => 10 * i) :: nil)
              6 4 2 (rev (grid 4 2)) (fun _ => -1)) as (H1 & H2 & _).
  - lia.
  - unfold int_max. lia.
  - apply Permutation_sym, Permutation_rev.
  - split.
    + apply (H1 5); lia.
    + apply (H2 6). lia.
Defined.

(** * Floating-point division of integers *)

(** ** Binary digits *)

Lemma digits2_pos_bounds p :
  2 ^ (Zpos (digits2_pos p) - 1) <= Zpos p < 2 ^ Zpos (digits2_pos p).
Proof.
  induction p as [p IH|p IH|]; simpl digits2_pos.
  - rewrite Pos2Z.inj_succ.
    replace (Z.succ (Z.pos (digits2_pos p)) - 1) with (Z.pos (digits2_pos p)) by lia.
    rewrite Z.pow_succ_r by lia.
    replace (Z.pos (digits2_pos p)) with (Z.pos (digits2_pos p) - 1 + 1) at 1 by lia.
    rewrite Z.pow_add_r by lia. lia.
  - rewrite Pos2Z.inj_succ.
    replace (Z.succ (Z.pos (digits2_pos p)) - 1) with (Z.pos (digits2_pos p)) by lia.
    rewrite Z.pow_succ_r by lia.
    replace (Z.pos (digits2_pos p)) with (Z.pos (digits2_pos p) - 1 + 1) at 1 by lia.
    rewrite Z.pow_add_r by lia. lia.
  - simpl. lia.
Qed.

Lemma digits2_pos_unique p k :
  2 ^ (k - 1) <= Zpos p < 2 ^ k -> Zpos (digits2_pos p) = k.
Proof.
  intros [H1 H2]. pose proof (digits2_pos_bounds p) as [B1 B2].
  assert (0 < k).
  { destruct (Z_lt_le_dec 0 k); [assumption|].
    assert (2 ^ k <= 2 ^ 0) by (apply Z.pow_le_mono_r; lia). simpl in *. lia. }
  destruct (Z.lt_trichotomy (Zpos (digits2_pos p)) k) as [L|[E|L]]; [|assumption|].
  - assert (2 ^ Zpos (digits2_pos p) <= 2 ^ (k - 1))
      by (apply Z.pow_le_mono_r; lia). lia.
  - assert (2 ^ k <= 2 ^ (Zpos (digits2_pos p) - 1))
      by (apply Z.pow_le_mono_r; lia). lia.
Qed.

Lemma Pos_iter_xO p k : Zpos (Pos.iter xO p k) = Zpos p * 2 ^ Zpos k.
Proof.
  revert p. induction k as [|k IH] using Pos.peano_ind; intros p.
  - simpl. lia.
  - rewrite Pos.iter_succ, Pos2Z.inj_succ, Z.pow_succ_r by lia.
    rewrite Pos2Z.inj_xO, IH. lia.
Qed.

(** ** Rounding to 53 bits *)

Lemma shr_fexp_0 m e l :
  Zpos (digits2_pos m) = 53 -> -1074 <= e ->
  shr_fexp 53 1024 (Zpos m) e l = (shr_record_of_loc (Zpos m) l, e).
Proof.
  intros Hd He. unfold shr_fexp, fexp, emin. simpl Zdigits2. rewrite Hd.
  replace (Z.max (53 + e - 53) (3 - 1024 - 53) - e) with 0 by lia.
  reflexivity.
Qed.

Lemma shr_fexp_1 m e l :
  Zpos (digits2_pos m) = 54 -> -1075 <= e ->
  shr_fexp 53 1024 (Zpos m) e l = (shr_1 (shr_record_of_loc (Zpos m) l), e + 1).
Proof.
  intros Hd He. unfold shr_fexp, fexp, emin. simpl Zdigits2. rewrite Hd.
  replace (Z.max (54 + e - 53) (3 - 1024 - 53) - e) with 1 by lia.
  reflexivity.
Qed.

Lemma shr_record_of_loc_m m l : shr_m (shr_record_of_loc m l) = m.
Proof. destruct l as [|[| |]]; reflexivity. Qed.

Lemma loc_of_shr_record_of_loc m l :
  loc_of_shr_record (shr_record_of_loc m l) = l.
Proof. destruct l as [|[| |]]; reflexivity. Qed.

Lemma round_nearest_even_bounds m l :
  m <= round_nearest_even m l <= m + 1 /\
  (l = loc_Exact -> round_nearest_even m l = m).
Proof.
  destruct l as [|[| |]]; simpl; try (split; [lia|]; intros; reflexivity || discriminate).
  destruct (Z.even m); split; try lia; discriminate.
Qed.

Lemma div2_xO q : Z.pos q~0 / 2 = Z.pos q.
Proof. rewrite Pos2Z.inj_xO, Z.mul_comm. apply Z.div_mul. discriminate. Qed.

Lemma div2_xI q : Z.pos q~1 / 2 = Z.pos q.
Proof.
  rewrite Pos2Z.inj_xI. symmetry.
  apply (Z.div_unique (2 * Z.pos q + 1) 2 (Z.pos q) 1); lia.
Qed.

Lemma mod2_xI q : Z.pos q~1 mod 2 = 1.
Proof.
  rewrite Pos2Z.inj_xI. symmetry.
  apply (Z.mod_unique (2 * Z.pos q + 1) 2 (Z.pos q) 1); lia.
Qed.

Lemma shr_1_half q l :
  let r := shr_1 (shr_record_of_loc (Zpos q) l) in
  (2 <= Zpos q -> shr_m r = Zpos q / 2) /\
  (l = loc_Exact -> Zpos q mod 2 = 0 -> loc_of_shr_record r = loc_Exact).
Proof.
  cbv zeta. split.
  - intros Hq.
    destruct q as [q|q|]; [rewrite div2_xI | rewrite div2_xO | lia];
      destruct l as [|[| |]]; reflexivity.
  - intros -> Hm. destruct q as [q|q|].
    + rewrite mod2_xI in Hm. discriminate.
    + reflexivity.
    + discriminate.
Qed.

(** The second normalisation of [binary_round_aux] keeps the value. *)
Lemma shr_fexp_final m1 e1 :
  2 ^ 52 <= Zpos m1 <= 2 ^ 53 -> -1074 <= e1 ->
  exists m2 e2 mrs,
    shr_fexp 53 1024 (Zpos m1) e1 loc_Exact = (mrs, e2) /\
    shr_m mrs = Zpos m2 /\
    (e2 = e1 /\ m2 = m1 \/ e2 = e1 + 1 /\ Zpos m1 = 2 * Zpos m2).
Proof.
  intros Hm He.
  destruct (Z.eq_dec (Zpos m1) (2 ^ 53)) as [E|E].
  - assert (m1 = 9007199254740992%positive) as -> by (simpl in E; lia).
    exists 4503599627370496%positive, (e1 + 1).
    eexists. rewrite shr_fexp_1 by (reflexivity || lia).
    split; [reflexivity|]. split; [reflexivity|]. right. split; reflexivity.
  - exists m1, e1. eexists. rewrite shr_fexp_0.
    + split; [reflexivity|]. split; [reflexivity|]. left. auto.
    + apply digits2_pos_unique. lia.
    + lia.
Qed.

(** [binary_round_aux] on a quotient of 53 or 54 bits: the result is finite
    and is the truncated mantissa or its successor, the truncated mantissa
    when nothing was lost. *)
Lemma binary_round_aux_quotient q e l n :
  (n = 0 \/ n = 1) -> Zpos (digits2_pos q) = 53 + n ->
  -1000 <= e <= 900 ->
  exists m1 m2 e2,
    binary_round_aux 53 1024 false (Zpos q) e l = S754_finite false m2 e2 /\
    Zpos q / 2 ^ n <= Zpos m1 <= Zpos q / 2 ^ n + 1 /\
    (l = loc_Exact -> Zpos q mod 2 ^ n = 0 -> Zpos m1 = Zpos q / 2 ^ n) /\
    (e2 = e + n /\ m2 = m1 \/ e2 = e + n + 1 /\ Zpos m1 = 2 * Zpos m2).
Proof.
  intros Hn Hd He.
  pose proof (digits2_pos_bounds q) as [B1 B2]. rewrite Hd in B1, B2.
  assert (Hstage : exists mrs,
            shr_fexp 53 1024 (Zpos q) e l = (mrs, e + n) /\
            shr_m mrs = Zpos q / 2 ^ n /\
            (l = loc_Exact -> Zpos q mod 2 ^ n = 0 ->
             loc_of_shr_record mrs = loc_Exact)).
  { destruct Hn as [-> | ->].
    - eexists. rewrite shr_fexp_0 by lia. rewrite Z.add_0_r.
      split; [reflexivity|]. rewrite shr_record_of_loc_m, Z.div_1_r.
      split; [reflexivity|]. intros -> _. reflexivity.
    - eexists. rewrite shr_fexp_1 by lia.
      split; [reflexivity|].
      destruct (shr_1_half q l) as [H1 H2]. split.
      + apply H1. simpl in B1. lia.
      + exact H2. }
  destruct Hstage as (mrs & Hs & Hm & Hl).
  set (m1z := round_nearest_even (shr_m mrs) (loc_of_shr_record mrs)).
  destruct (round_nearest_even_bounds (shr_m mrs) (loc_of_shr_record mrs))
    as [Hb Hex]. fold m1z in Hb, Hex. rewrite Hm in Hb, Hex.
  assert (Hq : 2 ^ 52 <= Zpos q / 2 ^ n < 2 ^ 53).
  { destruct Hn as [-> | ->]; simpl in B1, B2 |- *.
    - rewrite Z.div_1_r. lia.
    - split; [apply Z.div_le_lower_bound | apply Z.div_lt_upper_bound]; lia. }
  assert (Hpos : exists m1, m1z = Zpos m1).
  { destruct m1z as [|p|p]; [simpl in Hq; lia | now exists p | simpl in Hq; lia]. }
  destruct Hpos as [m1 Em1].
  destruct (@shr_fexp_final m1 (e + n)) as (m2 & e2 & mrs2 & Hs2 & Hm2 & Hcase).
  { rewrite <- Em1. simpl in Hq |- *. lia. }
  { lia. }
  exists m1, m2, e2. split; [|split; [|split]].
  - unfold binary_round_aux. rewrite Hs. fold m1z. rewrite Em1, Hs2, Hm2.
    destruct (Z.leb_spec e2 (1024 - 53)); [reflexivity|lia].
  - rewrite <- Em1. exact Hb.
  - intros Hl1 Hl2. rewrite <- Em1. apply Hex. now apply Hl.
  - exact Hcase.
Qed.

(** ** Integers as floats *)

Lemma binary_round_aux_exact m e :
  Zpos (digits2_pos m) = 53 -> -1074 <= e <= 971 ->
  binary_round_aux 53 1024 false (Zpos m) e loc_Exact = S754_finite false m e.
Proof.
  intros Hd He. unfold binary_round_aux.
  rewrite shr_fexp_0 by lia. cbn [shr_record_of_loc shr_m loc_of_shr_record].
  cbn [round_nearest_even]. rewrite shr_fexp_0 by lia.
  cbn [shr_record_of_loc shr_m].
  destruct (Z.leb_spec e (1024 - 53)); [reflexivity|lia].
Qed.

(** [float] of a positive integer below [2^53] is exact: the mantissa is the
    integer shifted to 53 bits. *)
Lemma float_pos p :
  Zpos p < 2 ^ 53 ->
  let d := Zpos (digits2_pos p) in
  exists m, float (Zpos p) = S754_finite false m (d - 53) /\
            Zpos m = Zpos p * 2 ^ (53 - d) /\
            Zpos (digits2_pos m) = 53 /\ 1 <= d <= 53.
Proof.
  intros Hp d.
  pose proof (digits2_pos_bounds p) as [B1 B2]. fold d in B1, B2.
  assert (Hd : 1 <= d <= 53).
  { split; [unfold d; lia|].
    destruct (Z_le_gt_dec d 53); [assumption|].
    assert (2 ^ 53 <= 2 ^ (d - 1)) by (apply Z.pow_le_mono_r; lia). lia. }
  unfold float, binary_normalize, binary_round, shl_align.
  fold d. unfold fexp, emin.
  replace (Z.max (d + 0 - 53) (3 - 1024 - 53) - 0) with (d - 53) by lia.
  replace (Z.max (d + 0 - 53) (3 - 1024 - 53)) with (d - 53) by lia.
  destruct (d - 53) as [|k|k] eqn:E; [|lia|].
  - exists p. rewrite binary_round_aux_exact by (unfold d in *; lia).
    split; [reflexivity|]. replace (53 - d) with 0 by lia.
    split; [lia|]. split; [unfold d in *; lia | exact Hd].
  - assert (Hk : Zpos k = 53 - d) by lia.
    assert (Hm : Zpos (Pos.iter xO p k) = Zpos p * 2 ^ (53 - d)).
    { rewrite Pos_iter_xO, Hk. reflexivity. }
    assert (Hdig : Zpos (digits2_pos (Pos.iter xO p k)) = 53).
    { apply digits2_pos_unique. rewrite Hm.
      assert (P1 : 2 ^ (53 - 1) = 2 ^ (d - 1) * 2 ^ (53 - d)).
      { rewrite <- Z.pow_add_r by lia. f_equal. lia. }
      assert (P2 : 2 ^ 53 = 2 ^ d * 2 ^ (53 - d)).
      { rewrite <- Z.pow_add_r by lia. f_equal. lia. }
      assert (0 < 2 ^ (53 - d)) by (apply Z.pow_pos_nonneg; lia).
      rewrite P1, P2. split.
      - apply Z.mul_le_mono_nonneg_r; lia.
      - apply Z.mul_lt_mono_pos_r; lia. }
    exists (Pos.iter xO p k).
    rewrite binary_round_aux_exact by lia.
    split; [reflexivity|]. split; [exact Hm|]. split; [exact Hdig|exact Hd].
Qed.

(** ** Division *)

Lemma div_eucl_div_mod a b : Z.div_eucl a b = (a / b, a mod b).
Proof. unfold Z.div, Z.modulo. destruct (Z.div_eucl a b). reflexivity. Qed.

Lemma new_location_exact n : new_location n 0 = loc_Exact.
Proof.
  unfold new_location, new_location_even, new_location_odd.
  destruct (Z.even n); reflexivity.
Qed.

Lemma SFdiv_core_binary_53 mx ex my ey :
  Zpos (digits2_pos mx) = 53 -> Zpos (digits2_pos my) = 53 ->
  -100 <= ex - ey <= 100 ->
  SFdiv_core_binary 53 1024 (Zpos mx) ex (Zpos my) ey =
  (Zpos mx * 2 ^ 53 / Zpos my, ex - ey - 53,
   new_location (Zpos my) ((Zpos mx * 2 ^ 53) mod Zpos my)).
Proof.
  intros Hx Hy He. unfold SFdiv_core_binary. simpl Zdigits2.
  rewrite Hx, Hy. unfold fexp, emin.
  replace (Z.min (Z.max (53 + ex - (53 + ey) - 53) (3 - 1024 - 53)) (ex - ey))
    with (ex - ey - 53) by lia.
  replace (ex - ey - (ex - ey - 53)) with 53 by lia.
  cbv iota. rewrite Z.shiftl_mul_pow2 by lia.
  rewrite div_eucl_div_mod. reflexivity.
Qed.

(** ** The ceiling of a rounded quotient *)

Lemma ceil_of_rounded N M T m1 :
  1 <= N -> 1 <= M -> M <= T ->
  N * T / M <= m1 <= N * T / M + 1 ->
  ((N * T) mod M = 0 -> m1 = N * T / M) ->
  - ((- m1) / T) = (N + M - 1) / M.
Proof.
  intros HN HM HT Hm Hex.
  pose proof (Z.div_mod (N + M - 1) M ltac:(lia)) as Dk.
  pose proof (Z.mod_pos_bound (N + M - 1) M ltac:(lia)) as Rk.
  pose proof (Z.div_mod (N * T) M ltac:(lia)) as Dq.
  pose proof (Z.mod_pos_bound (N * T) M ltac:(lia)) as Rq.
  set (k := (N + M - 1) / M) in *. set (r := (N + M - 1) mod M) in *.
  set (q1 := N * T / M) in *. set (r1 := (N * T) mod M) in *.
  assert (Hk1 : N <= M * k) by lia.
  assert (Hk2 : M * (k - 1) + 1 <= N) by lia.
  assert (Hup : m1 <= k * T).
  { assert (N * T <= M * k * T) by (apply Z.mul_le_mono_nonneg_r; lia).
    destruct (Z.eq_dec r1 0) as [E|E].
    - rewrite (Hex E). apply Z.mul_le_mono_pos_l with (p := M); [lia|]. lia.
    - assert (M * q1 < M * (k * T)) by lia.
      assert (q1 < k * T) by (apply Z.mul_lt_mono_pos_l with (p := M); lia).
      lia. }
  assert (Hlo : (k - 1) * T < m1).
  { assert ((M * (k - 1) + 1) * T <= N * T)
      by (apply Z.mul_le_mono_nonneg_r; lia).
    assert (M * ((k - 1) * T) < M * q1) by lia.
    assert ((k - 1) * T < q1) by (apply Z.mul_lt_mono_pos_l with (p := M); lia).
    lia. }
  assert (E : (- m1) / T = - k).
  { symmetry. apply (Z.div_unique (- m1) T (- k) (k * T - m1)); lia. }
  rewrite E. lia.
Qed.

Lemma int_ceil_scaled m1 m2 e2 E :
  1 <= E ->
  (e2 = - E /\ m2 = m1 \/ e2 = - E + 1 /\ Zpos m1 = 2 * Zpos m2) ->
  int_ceil (S754_finite false m2 e2) = Some (- ((- Zpos m1) / 2 ^ E)).
Proof.
  intros HE [[-> ->]|[-> Hm]]; unfold int_ceil, cond_Zopp.
  - destruct (Z.leb_spec 0 (- E)); [lia|]. now rewrite Z.opp_involutive.
  - rewrite Hm.
    replace (2 ^ E) with (2 * 2 ^ (E - 1))
      by (rewrite <- Z.pow_succ_r by lia; f_equal; lia).
    assert (0 < 2 ^ (E - 1)) by (apply Z.pow_pos_nonneg; lia).
    replace (- (2 * Zpos m2)) with (2 * - Zpos m2) by lia.
    rewrite Z.div_mul_cancel_l by lia.
    destruct (Z.leb_spec 0 (- E + 1)).
    + replace (- E + 1) with 0 by lia. replace (E - 1) with 0 by lia.
      rewrite Z.pow_0_r, Z.div_1_r. f_equal. lia.
    + replace (- (- E + 1)) with (E - 1) by lia. reflexivity.
Qed.

(** [int(ceil(float(N) / M))] is the ceiling of the exact quotient. *)
Theorem int_ceil_fdiv N M :
  1 <= N < 2 ^ 52 -> 1 <= M < 2 ^ 53 ->
  int_ceil (fdiv (float N) (float M)) = Some ((N + M - 1) / M).
Proof.
  intros HN HM.
  destruct N as [|pn|pn]; try lia. destruct M as [|pm|pm]; try lia.
  destruct (@float_pos pn) as (mx & Fx & Vx & Dx & Rx); [lia|].
  destruct (@float_pos pm) as (my & Fy & Vy & Dy & Ry); [lia|].
  set (dN := Zpos (digits2_pos pn)) in *.
  set (dM := Zpos (digits2_pos pm)) in *.
  pose proof (digits2_pos_bounds pn) as [BN1 BN2]. fold dN in BN1, BN2.
  pose proof (digits2_pos_bounds pm) as [BM1 BM2]. fold dM in BM1, BM2.
  assert (HdN : dN <= 52).
  { destruct (Z_le_gt_dec dN 52); [assumption|].
    assert (2 ^ 52 <= 2 ^ (dN - 1)) by (apply Z.pow_le_mono_r; lia). lia. }
  pose proof (digits2_pos_bounds mx) as [BX1 BX2]. rewrite Dx in BX1, BX2.
  pose proof (digits2_pos_bounds my) as [BY1 BY2]. rewrite Dy in BY1, BY2.
  unfold fdiv. rewrite Fx, Fy. unfold SFdiv.
  rewrite SFdiv_core_binary_53 by (assumption || lia).
  set (q := Zpos mx * 2 ^ 53 / Zpos my).
  set (e := dN - 53 - (dM - 53) - 53).
  (* the quotient has 53 or 54 bits *)
  assert (Hq : 2 ^ 52 <= q < 2 ^ 54).
  { unfold q. split.
    - apply Z.div_le_lower_bound; [lia|].
      change (53 - 1) with 52 in BX1.
      transitivity (2 ^ 53 * 2 ^ 52); [|nia].
      apply Z.mul_le_mono_nonneg_r; lia.
    - apply Z.div_lt_upper_bound; [lia|].
      change (53 - 1) with 52 in BY1.
      apply Z.lt_le_trans with (2 ^ 53 * 2 ^ 53); [nia|].
      change (2 ^ 54) with (2 ^ 53 * 2). nia. }
  destruct q as [|pq|pq] eqn:Eq; [simpl in Hq; lia| |simpl in Hq; lia].
  set (n := Zpos (digits2_pos pq) - 53).
  assert (Hn : n = 0 \/ n = 1).
  { pose proof (digits2_pos_bounds pq) as [B1 B2]. unfold n.
    destruct (Z.lt_trichotomy (Zpos (digits2_pos pq)) 53) as [L|[L|L]].
    - assert (2 ^ Zpos (digits2_pos pq) <= 2 ^ 52)
        by (apply Z.pow_le_mono_r; lia). lia.
    - lia.
    - destruct (Z_le_gt_dec (Zpos (digits2_pos pq)) 54); [lia|].
      assert (2 ^ 54 <= 2 ^ (Zpos (digits2_pos pq) - 1))
        by (apply Z.pow_le_mono_r; lia). lia. }
  destruct (@binary_round_aux_quotient pq e
              (new_location (Zpos my) ((Zpos mx * 2 ^ 53) mod Zpos my)) n)
    as (m1 & m2 & e2 & Hres & Hb & Hex & Hcase);
    [exact Hn | unfold n; lia | unfold e; lia |].
  change (xorb false false) with false. rewrite Hres.
  set (E := - e - n).
  assert (HE : dM <= E) by (unfold E, e; lia).
  rewrite (@int_ceil_scaled m1 m2 e2 E);
    [|lia | unfold E; destruct Hcase as [[-> ->]|[-> H]];
            [left; split; [lia|reflexivity] | right; split; [lia|exact H]]].
  f_equal.
  (* back to the integers *)
  assert (P0 : 0 < 2 ^ (53 - dM)) by (apply Z.pow_pos_nonneg; lia).
  assert (Pn : 0 < 2 ^ n) by (apply Z.pow_pos_nonneg; lia).
  assert (PE : 0 < 2 ^ E) by (apply Z.pow_pos_nonneg; lia).
  assert (Hnum : Zpos mx * 2 ^ 53 =
                 (Zpos pn * 2 ^ E * 2 ^ n) * 2 ^ (53 - dM)).
  { rewrite Vx. rewrite <- !Z.mul_assoc. f_equal.
    rewrite <- !Z.pow_add_r by lia. f_equal. unfold E, e. lia. }
  assert (Hqv : Zpos pq = Zpos pn * 2 ^ E * 2 ^ n / Zpos pm).
  { rewrite <- Eq. unfold q. rewrite Hnum, Vy.
    apply Z.div_mul_cancel_r; lia. }
  assert (Hq1 : Zpos pq / 2 ^ n = Zpos pn * 2 ^ E / Zpos pm).
  { rewrite Hqv, Z.div_div by lia.
    apply Z.div_mul_cancel_r; lia. }
  apply ceil_of_rounded; try lia.
  - apply Z.le_trans with (2 ^ dM); [lia|].
    apply Z.pow_le_mono_r; lia.
  - intros Hdiv. rewrite <- ?Hq1.
    apply Z.mod_divide in Hdiv; [|lia]. destruct Hdiv as [c Hc].
    apply Hex.
    + replace ((Zpos mx * 2 ^ 53) mod Zpos my) with 0;
        [apply new_location_exact|].
      symmetry. apply Z.mod_divide; [lia|].
      exists (c * 2 ^ n). rewrite Hnum, Vy, Hc. ring.
    + rewrite Hqv, Hc.
      replace (c * Zpos pm * 2 ^ n) with (c * 2 ^ n * Zpos pm) by ring.
      rewrite Z.div_mul by lia. apply Z.mod_mul. lia.
Qed.

(** * The launch of [_ufunc_hack] *)

Lemma launch_geometry_value MAX_THREAD N :
  1 <= MAX_THREAD < 2 ^ 53 -> 0 <= N < 2 ^ 52 ->
  launch_geometry MAX_THREAD N =
  Some (if N >? MAX_THREAD
        then (MAX_THREAD, (N + MAX_THREAD - 1) / MAX_THREAD)
        else (N, 1)).
Proof.
  intros HM HN. unfold launch_geometry.
  destruct (Z.gtb_spec N MAX_THREAD) as [Hgt|Hle]; [|reflexivity].
  rewrite int_ceil_fdiv by lia. reflexivity.
Qed.

Lemma ceil_div_bounds N M :
  1 <= M -> 0 <= N ->
  let b := (N + M - 1) / M in
  M * (b - 1) < N <= M * b.
Proof.
  intros HM HN b.
  pose proof (Z.div_mod (N + M - 1) M ltac:(lia)) as D.
  pose proof (Z.mod_pos_bound (N + M - 1) M ltac:(lia)) as R.
  fold b in D. lia.
Qed.

(** X11.  For [N] elements ([0 <= N < 2^52]) and a device limit
    [MAX_THREAD >= 1], the floating-point computation
    [int(ceil(float(N) / MAX_THREAD))] is the exact ceiling of [N / MAX_THREAD]:
    [_ufunc_hack] launches one block of [N] threads when [N <= MAX_THREAD],
    and otherwise [ceil(N / MAX_THREAD)] blocks of [MAX_THREAD] threads.
    The grid has at least [N] threads, fewer than [N + MAX_THREAD], and no
    block lies entirely beyond the [N] elements. *)
Theorem launch_geometry_covers MAX_THREAD N :
  1 <= MAX_THREAD < 2 ^ 53 -> 0 <= N < 2 ^ 52 ->
  exists threadct blockct,
    launch_geometry MAX_THREAD N = Some (threadct, blockct) /\
    threadct = Z.min N MAX_THREAD /\
    blockct = (if N >? MAX_THREAD
               then (N + MAX_THREAD - 1) / MAX_THREAD else 1) /\
    1 <= blockct /\
    N <= threadct * blockct < N + MAX_THREAD /\
    (1 <= N -> threadct * (blockct - 1) < N).
Proof.
  intros HM HN. rewrite launch_geometry_value by assumption.
  destruct (ceil_div_bounds (proj1 HM) (proj1 HN)) as [B1 B2].
  destruct (Z.gtb_spec N MAX_THREAD) as [Hgt|Hle].
  - exists MAX_THREAD, ((N + MAX_THREAD - 1) / MAX_THREAD).
    split; [reflexivity|].
    split; [lia|]. split; [reflexivity|].
    assert (1 <= (N + MAX_THREAD - 1) / MAX_THREAD) by nia.
    repeat split; lia.
  - exists N, 1.
    split; [reflexivity|].
    split; [lia|]. split; [reflexivity|]. repeat split; lia.
Qed.

(** 2500 elements with at most 1024 threads in a block: 3 blocks. *)
Lemma launch_geometry_2500 :
  exists threadct blockct,
    launch_geometry 1024 2500 = Some (threadct, blockct) /\
    threadct = Z.min 2500 1024 /\
    blockct = (if 2500 >? 1024 then (2500 + 1024 - 1) / 1024 else 1) /\
    1 <= blockct /\
    2500 <= threadct * blockct < 2500 + 1024 /\
    (1 <= 2500 -> threadct * (blockct - 1) < 2500).
Proof.
  apply (@launch_geometry_covers 1024 2500); split; try lia;
    apply Z.pow_gt_lin_r || (now vm_compute).
Defined.

(** X12.  The device computation of [_ufunc_hack] for [N] elements with
    [N + MAX_THREAD <= 2^31]: the launch it configures, with [ct = N] passed
    as a 32-bit integer, leaves in the result array the worker's value on
    the input elements of every index of [0, N), in whichever order the
    threads of the grid run, and writes nowhere else. *)
Theorem ufunc_hack_computes_all worker inputs MAX_THREAD N retary :
  1 <= MAX_THREAD -> 0 <= N -> N + MAX_THREAD <= 2 ^ 31 ->
  exists threadct blockct,
    launch_geometry MAX_THREAD N = Some (threadct, blockct) /\
    forall order, Permutation order (grid threadct blockct) ->
    forall i,
      launch worker inputs (int N) threadct order retary i =
      if (0 <=? i) && (i <? N)
      then worker (map (fun x => x i) inputs) else retary i.
Proof.
  intros HM HN Hfit.
  assert (P31 : 2 ^ 31 < 2 ^ 52) by (now vm_compute).
  assert (P52 : 2 ^ 52 < 2 ^ 53) by (now vm_compute).
  assert (E31 : 2 ^ 31 = int_max + 1) by reflexivity.
  rewrite launch_geometry_value by lia.
  destruct (ceil_div_bounds HM HN) as [B1 B2].
  assert (HiN : int N = N) by (apply int_id; unfold int_max; lia).
  set (tb := if N >? MAX_THREAD
             then (MAX_THREAD, (N + MAX_THREAD - 1) / MAX_THREAD)
             else (N, 1)).
  exists (fst tb), (snd tb). split; [now destruct tb|].
  assert (Hg : 0 <= fst tb /\ N <= fst tb * snd tb <= int_max + 1).
  { unfold tb. destruct (Z.gtb_spec N MAX_THREAD); simpl; lia. }
  intros order HP i.
  rewrite (@launch_grid_at worker inputs (int N) (fst tb) (snd tb) order
                           retary i) by (tauto || lia).
  rewrite HiN.
  destruct (Z.leb_spec 0 i), (Z.ltb_spec i N),
           (Z.ltb_spec i (fst tb * snd tb)); simpl; try lia; reflexivity.
Qed.

(** Ten elements with at most 4 threads in a block: three blocks, run in
    reverse order; element 9 is computed and element 10 is not touched. *)
Lemma ufunc_hack_computes_all_10 :
  exists threadct blockct,
    launch_geometry 4 10 = Some (threadct, blockct) /\
    forall order, Permutation order (grid threadct blockct) ->
    forall i,
      launch sum_kernel ((fun i => i) :: nil) (int 10) threadct order
             (fun _ => -1) i =
      if (0 <=? i) && (i <? 10)
      then sum_kernel (map (fun x => x i) ((fun i => i) :: nil)) else -1.
Proof.
  apply (@ufunc_hack_computes_all sum_kernel ((fun i => i) :: nil) 4 10
                                  (fun _ => -1)); lia.
Defined.

(** * The choice of the kernel in [_ufunc_hack] *)

(** X13.  The loop that picks the kernel for the argument types leaves in
    its variables the first entry of [kernel_list] whose argument types
    equal those of the call; when no entry matches it raises nothing and
    leaves the last entry of the list; only with an empty list are the
    variables left as they were before the loop (unbound). *)
Theorem select_kernel_first_or_last (K R D : Type)
        (eqb : list D -> list D -> bool)
        (kernel_list : list (K * R * list D)) tys cur dflt :
  select_kernel eqb kernel_list tys cur =
  match find (fun k => eqb (snd k) tys) kernel_list with
  | Some k => Some k
  | None => match kernel_list with
            | [] => cur
            | _ => Some (List.last kernel_list dflt)
            end
  end.
Proof.
  revert cur. induction kernel_list as [|k rest IH]; intros cur.
  - reflexivity.
  - simpl select_kernel. simpl find.
    destruct (eqb (snd k) tys) eqn:E; [reflexivity|].
    rewrite IH. destruct (find _ rest); [reflexivity|].
    destruct rest; reflexivity.
Qed.

(** * The Python-level builders *)

Import Vectorize.

Lemma getitem_inr (A : Type) (d : list (String.string * A)) key v :
  getitem d key = inr v -> In (key, v) d.
Proof.
  induction d as [|[k w] d IH]; simpl; [discriminate|].
  destruct (String.eqb_spec k key) as [->|Hne].
  - intros [= ->]. now left.
  - intros H. right. now apply IH.
Qed.

Lemma getitem_inl (A : Type) (d : list (String.string * A)) key e :
  getitem d key = inl e -> e = KeyError key /\ ~ In key (map fst d).
Proof.
  induction d as [|[k w] d IH]; simpl.
  - intros [= <-]. split; [reflexivity|tauto].
  - destruct (String.eqb_spec k key) as [->|Hne]; [discriminate|].
    intros H. destruct (IH H) as [-> Hn]. split; [reflexivity|].
    intros [E|Hin]; [now apply Hne|now apply Hn].
Qed.

Lemma getitem_key (A : Type) (d : list (String.string * A)) key :
  In key (map fst d) -> exists v, getitem d key = inr v.
Proof.
  intros Hin. destruct (getitem d key) as [e|v] eqn:E; [|now exists v].
  apply getitem_inl in E. tauto.
Qed.

Lemma void_not_a_key : ~ In void (map fst _llvm_ty_str_to_numpy).
Proof.
  simpl. intros H. repeat (destruct H as [H|H]; [discriminate H|]). exact H.
Qed.

Section TypeNumbers.

Variable num : NumpyType -> Z.

Lemma get_typenum_inr T z :
  get_typenum num T = inr z ->
  exists t, In (T, t) _llvm_ty_str_to_numpy /\ z = num t.
Proof.
  unfold get_typenum, _llvm_ty_to_numpy, bind.
  destruct (getitem _ T) as [e|t] eqn:E; [discriminate|].
  intros [= <-]. exists t. split; [now apply getitem_inr|reflexivity].
Qed.

Lemma get_typenum_inl T e :
  get_typenum num T = inl e ->
  e = KeyError T /\ ~ In T (map fst _llvm_ty_str_to_numpy).
Proof.
  unfold get_typenum, _llvm_ty_to_numpy, bind.
  destruct (getitem _ T) as [e'|t] eqn:E; [|discriminate].
  intros [= <-]. now apply getitem_inl.
Qed.

Lemma get_typenum_key T :
  In T (map fst _llvm_ty_str_to_numpy) -> exists z, get_typenum num T = inr z.
Proof.
  intros Hin. destruct (getitem_key _ _ Hin) as [t Ht].
  exists (num t). unfold get_typenum, _llvm_ty_to_numpy. now rewrite Ht.
Qed.

Lemma map_exn_inr Ts tys :
  map_exn (get_typenum num) Ts = inr tys ->
  Forall2 (fun T z => exists t, In (T, t) _llvm_ty_str_to_numpy /\ z = num t)
          Ts tys.
Proof.
  revert tys. induction Ts as [|T Ts IH]; simpl; intros tys.
  - intros [= <-]. constructor.
  - unfold bind at 1.
    destruct (get_typenum num T) as [e|z] eqn:E; [discriminate|].
    unfold bind at 1.
    destruct (map_exn _ Ts) as [e|zs]; [discriminate|].
    intros [= <-]. constructor; [now apply get_typenum_inr|now apply IH].
Qed.

Lemma map_exn_inl Ts e :
  map_exn (get_typenum num) Ts = inl e ->
  exists T, In T Ts /\ e = KeyError T /\
            ~ In T (map fst _llvm_ty_str_to_numpy).
Proof.
  induction Ts as [|T Ts IH]; simpl; [discriminate|].
  unfold bind at 1.
  destruct (get_typenum num T) as [e'|z] eqn:E.
  - intros [= <-]. exists T. split; [now left|now apply get_typenum_inl].
  - unfold bind at 1.
    destruct (map_exn _ Ts) as [e'|zs]; [|discriminate].
    intros [= <-]. destruct (IH eq_refl) as (T' & Hin & HT').
    exists T'. split; [now right|exact HT'].
Qed.

Lemma map_exn_keys Ts :
  Forall (fun T => In T (map fst _llvm_ty_str_to_numpy)) Ts ->
  exists tys, map_exn (get_typenum num) Ts = inr tys.
Proof.
  induction 1 as [|T Ts HT _ [tys IH]]; simpl.
  - now exists [].
  - destruct (get_typenum_key HT) as [z Hz]. rewrite Hz, IH. simpl.
    now exists (z :: tys).
Qed.

End TypeNumbers.

Lemma indexed_pylist (LFunc : Type) (l fns : list LFunc) :
  indexed (pylist l) 0 fns -> length fns = length l -> fns = l.
Proof.
  intros Hi Hlen. apply nth_error_ext. intros k.
  destruct (nth_error fns k) as [f|] eqn:E.
  - specialize (Hi k f E). simpl in Hi.
    destruct (nth_error l k); [now injection Hi as ->|discriminate].
  - apply nth_error_None in E. symmetry. apply nth_error_None. lia.
Qed.

Lemma pylist_indexed (LFunc : Type) (l : list LFunc) :
  indexed (pylist l) 0 l.
Proof. intros k f E. simpl. now rewrite E. Qed.

Lemma indexed_tail (LFunc : Type) (it : Iterable LFunc) i f fns :
  indexed it i (f :: fns) <-> subscript it i = inr f /\ indexed it (S i) fns.
Proof.
  unfold indexed. split.
  - intros H. split.
    + specialize (H 0%nat f eq_refl). now rewrite Nat.add_0_r in H.
    + intros k g E. specialize (H (S k) g E).
      now rewrite Nat.add_succ_r in H.
  - intros [H0 H] [|k] g E.
    + injection E as <-. now rewrite Nat.add_0_r.
    + rewrite Nat.add_succ_r. now apply (H k g).
Qed.

Section FromFunc.

Variables LFunc SPUF Engine : Type.
Variable pointee : LFunc -> FunctionType.
Variable get_pointer_to_function : Engine -> SPUF -> Z.
Variable num : NumpyType -> Z.
Variable lfunclist : Iterable LFunc.
Variable engine : Engine.

Local Abbreviation loop :=
  (ufunc_loop pointee get_pointer_to_function num lfunclist engine).
Local Abbreviation argct f := (Z.of_nat (length (args (pointee f)))).
Local Abbreviation types f := (args (pointee f) ++ [return_type (pointee f)]).
Local Abbreviation fptr spuf := (get_pointer_to_function engine spuf).
Local Abbreviation keys := (map fst _llvm_ty_str_to_numpy).

(** One iteration after the first. *)
Lemma loop_step i spuf rest st n :
  inct st = Some n ->
  loop (S i) (spuf :: rest) st =
  match subscript lfunclist (S i) with
  | inl e => inl e
  | inr f =>
      if negb (argct f =? n) then inl TypeError
      else if String.eqb (return_type (pointee f)) void
           then inl AssertionError
           else match map_exn (get_typenum num) (types f) with
                | inl e => inl e
                | inr tys =>
                    loop (S (S i)) rest
                         {| inct := inct st; outct := outct st;
                            ptrlist := ptrlist st ++ [fptr spuf];
                            tyslist := tyslist st ++ [tys];
                            datlist := datlist st ++ [None] |}
                end
  end.
Proof.
  intros Hn. simpl ufunc_loop.
  destruct (subscript lfunclist (S i)) as [e|f]; [reflexivity|]. simpl.
  rewrite Hn. simpl.
  destruct (negb (argct f =? n)); [reflexivity|]. simpl.
  destruct (String.eqb (return_type (pointee f)) void); [reflexivity|]. simpl.
  destruct (map_exn _ _) as [e|tys]; [reflexivity|]. simpl.
  rewrite ?Hn. reflexivity.
Qed.

Lemma loop_tail_inr spuflist : forall i st n st',
  inct st = Some n ->
  loop (S i) spuflist st = inr st' ->
  exists fns rows,
    length fns = length spuflist /\
    indexed lfunclist (S i) fns /\
    Forall (fun f => argct f = n) fns /\
    Forall2 (fun f tys => typenums num (pointee f) tys) fns rows /\
    st' = {| inct := inct st; outct := outct st;
             ptrlist := ptrlist st ++ map (fun spuf => fptr spuf) spuflist;
             tyslist := tyslist st ++ rows;
             datlist := datlist st ++ repeat None (length spuflist) |}.
Proof.
  induction spuflist as [|spuf rest IH]; intros i st n st' Hn.
  - simpl. intros [= <-]. exists [], [].
    split; [reflexivity|]. split; [intros [|k] f E; discriminate E|].
    split; [constructor|]. split; [constructor|].
    rewrite !app_nil_r. now destruct st.
  - rewrite (loop_step _ _ _ _ Hn).
    destruct (subscript lfunclist (S i)) as [e|f] eqn:Ef; [discriminate|].
    destruct (Z.eqb_spec (argct f) n) as [Ha|Ha]; [|discriminate]. simpl negb.
    cbv iota.
    destruct (String.eqb _ void); [discriminate|].
    destruct (map_exn _ _) as [e|tys] eqn:Etys; [discriminate|].
    intros H. apply IH with (n := n) in H; [|exact Hn].
    destruct H as (fns & rows & Hlen & Hidx & Hall & Hrows & ->). simpl.
    exists (f :: fns), (tys :: rows).
    split; [simpl; now rewrite Hlen|].
    split; [now apply indexed_tail|].
    split; [now constructor|].
    split; [constructor; [now apply map_exn_inr|exact Hrows]|].
    now rewrite <- !app_assoc.
Qed.

Lemma loop_tail_total spuflist : forall i st n fns,
  inct st = Some n ->
  length fns = length spuflist ->
  indexed lfunclist (S i) fns ->
  Forall (fun f => argct f = n) fns ->
  Forall (fun f => Forall (fun T => In T keys) (types f)) fns ->
  exists st', loop (S i) spuflist st = inr st'.
Proof.
  induction spuflist as [|spuf rest IH]; intros i st n fns Hn Hlen Hidx Hct Hty.
  - now exists st.
  - destruct fns as [|f fns]; [discriminate|].
    apply indexed_tail in Hidx as [Hf Hidx].
    rewrite (loop_step _ _ _ _ Hn), Hf.
    inversion Hct as [|? ? Ha Hct']; subst.
    inversion Hty as [|? ? Hk Hty']; subst.
    rewrite Z.eqb_refl. simpl negb. cbv iota.
    destruct (String.eqb_spec (return_type (pointee f)) void) as [Ev|_].
    { exfalso. apply void_not_a_key. rewrite <- Ev.
      rewrite Forall_forall in Hk. apply Hk, in_or_app. right. now left. }
    destruct (map_exn_keys num Hk) as [tys ->].
    apply IH with (n := argct f) (fns := fns);
      [exact Hn|simpl in Hlen; lia|exact Hidx|exact Hct'|exact Hty'].
Qed.

Lemma loop_tail_inl spuflist : forall i st n e,
  inct st = Some n ->
  loop (S i) spuflist st = inl e ->
  exists k, (k < length spuflist)%nat /\
    (subscript lfunclist (S i + k) = inl e \/
     exists f, subscript lfunclist (S i + k) = inr f /\
       (e = TypeError /\ argct f <> n \/
        e = AssertionError /\ return_type (pointee f) = void \/
        exists T, In T (types f) /\ e = KeyError T /\ ~ In T keys)).
Proof.
  induction spuflist as [|spuf rest IH]; intros i st n e Hn.
  - discriminate.
  - rewrite (loop_step _ _ _ _ Hn).
    destruct (subscript lfunclist (S i)) as [e'|f] eqn:Ef.
    { intros [= <-]. exists 0%nat. split; [simpl; lia|]. left.
      now rewrite Nat.add_0_r. }
    assert (Hhere : forall P : Prop, P ->
              (P -> e = TypeError /\ argct f <> n \/
                    e = AssertionError /\ return_type (pointee f) = void \/
                    exists T, In T (types f) /\ e = KeyError T /\
                              ~ In T keys) ->
              exists k, (k < length (spuf :: rest))%nat /\
                (subscript lfunclist (S i + k) = inl e \/
                 exists f, subscript lfunclist (S i + k) = inr f /\
                   (e = TypeError /\ argct f <> n \/
                    e = AssertionError /\ return_type (pointee f) = void \/
                    exists T, In T (types f) /\ e = KeyError T /\
                              ~ In T keys))).
    { intros P HP H. exists 0%nat. split; [simpl; lia|]. right. exists f.
      split; [now rewrite Nat.add_0_r|]. now apply H. }
    destruct (Z.eqb_spec (argct f) n) as [Ha|Ha]; simpl negb; cbv iota.
    2:{ intros [= <-]. apply (Hhere True I). intros _. now left. }
    destruct (String.eqb_spec (return_type (pointee f)) void) as [Ev|Ev].
    { intros [= <-]. apply (Hhere True I). intros _. right. now left. }
    destruct (map_exn _ _) as [e'|tys] eqn:Etys.
    { intros [= <-]. apply (Hhere True I). intros _. right. right.
      destruct (map_exn_inl _ _ Etys) as (T & Hin & HT).
      exists T. split; [exact Hin|exact HT]. }
    intros H. apply IH with (n := n) in H; [|exact Hn].
    destruct H as (k & Hk & H). exists (S k). split; [simpl; lia|].
    replace (S i + S k)%nat with (S (S i) + k)%nat by lia. exact H.
Qed.

End FromFunc.

Section FromFuncCall.

Variables LFunc SPUF Engine : Type.
Variable pointee : LFunc -> FunctionType.
Variable def_spuf : LFunc -> String.string + SPUF.
Variable get_pointer_to_function : Engine -> SPUF -> Z.
Variable num : NumpyType -> Z.
Variable engine : Engine.

Local Abbreviation from_func :=
  (parallel_vectorize_from_func pointee def_spuf get_pointer_to_function num).
Local Abbreviation loop :=
  (ufunc_loop pointee get_pointer_to_function num).
Local Abbreviation argct f := (Z.of_nat (length (args (pointee f)))).
Local Abbreviation types f := (args (pointee f) ++ [return_type (pointee f)]).
Local Abbreviation fptr spuf := (get_pointer_to_function engine spuf).
Local Abbreviation keys := (map fst _llvm_ty_str_to_numpy).
Local Abbreviation built :=
  (Forall2 (fun (lfunc : LFunc) (spuf : SPUF) => def_spuf lfunc = inr spuf)).

(** The first loop. *)
Lemma build_spufs_inr l spuflist :
  map_exn (build_spuf def_spuf) l = inr spuflist <-> built l spuflist.
Proof.
  revert spuflist. induction l as [|f l IH]; intros spuflist; simpl.
  - split; [intros [= <-]; constructor|intros H; now inversion H].
  - unfold build_spuf at 1, bind at 1.
    destruct (def_spuf f) as [name|spuf] eqn:Ef.
    + split; [discriminate|]. intros H. inversion H; subst. congruence.
    + unfold bind at 1.
      destruct (map_exn _ l) as [e|spufs] eqn:El.
      * split; [discriminate|]. intros H. inversion H as [|? ? ? ? _ Hl]; subst.
        apply IH in Hl. discriminate.
      * split.
        -- intros [= <-]. constructor; [exact Ef|now apply IH].
        -- intros H. inversion H as [|? s ? ss Hs Hl]; subst.
           apply IH in Hl. congruence.
Qed.

Lemma build_spufs_inl l e :
  map_exn (build_spuf def_spuf) l = inl e ->
  exists lfunc name, In lfunc l /\ def_spuf lfunc = inl name /\
                     e = LibraryError name.
Proof.
  induction l as [|f l IH]; simpl; [discriminate|].
  unfold build_spuf at 1, bind at 1.
  destruct (def_spuf f) as [name|spuf] eqn:Ef.
  - intros [= <-]. exists f, name. split; [now left|]. now split.
  - unfold bind at 1. destruct (map_exn _ l) as [e'|spufs]; [|discriminate].
    intros [= <-]. destruct (IH eq_refl) as (g & name & Hg & Hn).
    exists g, name. split; [now right|exact Hn].
Qed.

(** The first iteration binds [inct] and [outct]. *)
Lemma from_func_first fs spuf0 rest :
  built (elements (listify fs)) (spuf0 :: rest) ->
  from_func fs (Some engine) =
  match subscript (listify fs) 0 with
  | inl e => inl e
  | inr f0 =>
      if String.eqb (return_type (pointee f0)) void then inl AssertionError
      else
        match map_exn (get_typenum num) (types f0) with
        | inl e => inl e
        | inr tys =>
            match loop (listify fs) engine 1 rest
                       {| inct := Some (argct f0); outct := Some 1;
                          ptrlist := [fptr spuf0]; tyslist := [tys];
                          datlist := [None] |} with
            | inl e => inl e
            | inr st =>
                match inct st, outct st with
                | Some i, Some o =>
                    inr (fromfunc (ptrlist st) (tyslist st) i o (datlist st))
                | None, _ => inl (UnboundLocalError "inct"%string)
                | Some _, None => inl (UnboundLocalError "outct"%string)
                end
            end
        end
  end.
Proof.
  intros E. apply build_spufs_inr in E.
  unfold parallel_vectorize_from_func. rewrite E. clear E. simpl bind.
  simpl ufunc_loop.
  destruct (subscript (listify fs) 0) as [e|f0]; [reflexivity|]. simpl.
  destruct (String.eqb (return_type (pointee f0)) void); [reflexivity|]. simpl.
  destruct (map_exn _ _) as [e|tys]; [reflexivity|]. simpl.
  destruct (ufunc_loop _ _ _ _ _ _ _ _) as [e|st]; [reflexivity|]. simpl.
  destruct (inct st); [|reflexivity]. simpl.
  destruct (outct st); reflexivity.
Qed.

Lemma from_func_empty fs :
  elements (listify fs) = [] ->
  from_func fs (Some engine) = inl (UnboundLocalError "inct"%string).
Proof.
  intros E. unfold parallel_vectorize_from_func. now rewrite E.
Qed.

Lemma from_func_inr fs r :
  from_func fs (Some engine) = inr r ->
  exists spuflist f0 fns tys rows,
    built (elements (listify fs)) spuflist /\
    length (f0 :: fns) = length spuflist /\
    indexed (listify fs) 0 (f0 :: fns) /\
    Forall (fun f => argct f = argct f0) fns /\
    typenums num (pointee f0) tys /\
    Forall2 (fun f tys => typenums num (pointee f) tys) fns rows /\
    r = fromfunc (map (fun spuf => fptr spuf) spuflist) (tys :: rows)
                 (argct f0) 1 (repeat None (length spuflist)).
Proof.
  destruct (map_exn (build_spuf def_spuf) (elements (listify fs)))
    as [e|spuflist] eqn:E1.
  { unfold parallel_vectorize_from_func. rewrite E1. discriminate. }
  apply build_spufs_inr in E1.
  destruct spuflist as [|spuf0 rest].
  { inversion E1 as [E0|]. rewrite from_func_empty by congruence.
    discriminate. }
  rewrite (from_func_first _ E1).
  destruct (subscript (listify fs) 0) as [e|f0] eqn:Ef; [discriminate|].
  destruct (String.eqb _ void); [discriminate|].
  destruct (map_exn (get_typenum num) _) as [e|tys] eqn:Etys; [discriminate|].
  destruct (ufunc_loop _ _ _ _ _ _ _ _) as [e|st] eqn:El; [discriminate|].
  apply loop_tail_inr with (n := argct f0) in El; [|reflexivity].
  destruct El as (fns & rows & Hlen & Hidx & Hall & Hrows & ->). simpl.
  intros [= <-]. exists (spuf0 :: rest), f0, fns, tys, rows.
  split; [exact E1|]. split; [simpl; now rewrite Hlen|].
  split; [now apply indexed_tail|]. split; [exact Hall|].
  split; [now apply map_exn_inr|]. split; [exact Hrows|reflexivity].
Qed.

Lemma from_func_total fs spuflist f0 fns :
  built (elements (listify fs)) spuflist ->
  length (f0 :: fns) = length spuflist ->
  indexed (listify fs) 0 (f0 :: fns) ->
  Forall (fun f => argct f = argct f0) fns ->
  Forall (fun f => Forall (fun T => In T keys) (types f)) (f0 :: fns) ->
  exists r, from_func fs (Some engine) = inr r.
Proof.
  intros E Hlen Hidx Hct Hty.
  destruct spuflist as [|spuf0 rest]; [discriminate|].
  apply indexed_tail in Hidx as [Hf0 Hidx].
  rewrite (from_func_first _ E), Hf0.
  inversion Hty as [|? ? Hk Hty']; subst.
  destruct (String.eqb_spec (return_type (pointee f0)) void) as [Ev|_].
  { exfalso. apply void_not_a_key. rewrite <- Ev.
    rewrite Forall_forall in Hk. apply Hk, in_or_app. right. now left. }
  destruct (map_exn_keys num Hk) as [tys ->].
  destruct (@loop_tail_total _ _ _ pointee get_pointer_to_function
              num (listify fs) engine rest 0%nat
              {| inct := Some (argct f0); outct := Some 1;
                 ptrlist := [fptr spuf0]; tyslist := [tys];
                 datlist := [None] |} (argct f0) fns)
    as [st Hst];
    [reflexivity|simpl in Hlen; lia|exact Hidx|exact Hct|exact Hty'|].
  rewrite Hst.
  pose proof Hst as Hst'.
  apply loop_tail_inr with (n := argct f0) in Hst'; [|reflexivity].
  destruct Hst' as (? & rows & _ & _ & _ & _ & ->). simpl. eauto.
Qed.

Lemma from_func_inl fs e :
  from_func fs (Some engine) = inl e ->
  (exists lfunc name, In lfunc (elements (listify fs)) /\
                      def_spuf lfunc = inl name /\ e = LibraryError name) \/
  (exists spuflist, built (elements (listify fs)) spuflist) /\
  ((e = UnboundLocalError "inct"%string /\ elements (listify fs) = []) \/
   exists k, (k < length (elements (listify fs)))%nat /\
     (subscript (listify fs) k = inl e \/
      exists f, subscript (listify fs) k = inr f /\
        ((e = TypeError /\
          exists f0, subscript (listify fs) 0 = inr f0 /\
                     argct f <> argct f0) \/
         (e = AssertionError /\ return_type (pointee f) = void) \/
         (exists T, In T (types f) /\ e = KeyError T /\ ~ In T keys)))).
Proof.
  destruct (map_exn (build_spuf def_spuf) (elements (listify fs)))
    as [e'|spuflist] eqn:E1.
  { unfold parallel_vectorize_from_func. rewrite E1. simpl.
    intros [= <-]. left. now apply build_spufs_inl. }
  apply build_spufs_inr in E1. intros H. right.
  split; [now exists spuflist|]. revert H.
  destruct spuflist as [|spuf0 rest].
  { inversion E1 as [E0|]. rewrite from_func_empty by congruence.
    intros [= <-]. left. split; [reflexivity|congruence]. }
  assert (Hlen : length (elements (listify fs)) = S (length rest)).
  { rewrite (Forall2_length E1). reflexivity. }
  rewrite (from_func_first _ E1). intros H. right. revert H.
  destruct (subscript (listify fs) 0) as [e'|f0] eqn:Ef.
  { intros [= <-]. exists 0%nat. split; [lia|]. now left. }
  destruct (String.eqb_spec (return_type (pointee f0)) void) as [Ev|Ev].
  { intros [= <-]. exists 0%nat. split; [lia|]. right. exists f0.
    split; [exact Ef|]. right. now left. }
  destruct (map_exn (get_typenum num) _) as [e'|tys] eqn:Etys.
  { intros [= <-]. exists 0%nat. split; [lia|]. right. exists f0.
    split; [exact Ef|]. right. right.
    destruct (map_exn_inl _ _ Etys) as (T & Hin & HT).
    exists T. split; [exact Hin|exact HT]. }
  destruct (ufunc_loop _ _ _ _ _ _ _ _) as [e'|st] eqn:El.
  - intros [= <-].
    apply loop_tail_inl with (n := argct f0) in El; [|reflexivity].
    destruct El as (k & Hk & [Hs|(f & Hf & Hc)]).
    + exists (S k). split; [lia|]. now left.
    + exists (S k). split; [lia|]. right. exists f. split; [exact Hf|].
      destruct Hc as [[He Hne]|[Hc|Hc]].
      * left. split; [exact He|]. exists f0. now split.
      * right. now left.
      * right. now right.
  - apply loop_tail_inr with (n := argct f0) in El; [|reflexivity].
    destruct El as (? & rows & _ & _ & _ & _ & ->). simpl. discriminate.
Qed.

End FromFuncCall.

Lemma typenums_keys num fntype tys :
  typenums num fntype tys ->
  Forall (fun T => In T (map fst _llvm_ty_str_to_numpy))
         (args fntype ++ [return_type fntype]).
Proof.
  unfold typenums. induction 1 as [|T z Ts zs (t & Ht & _) _ IH];
    constructor; [|exact IH].
  change T with (fst (T, t)). now apply in_map.
Qed.

Lemma typenums_row num fntype tys :
  typenums num fntype tys ->
  Z.of_nat (length tys) = Z.of_nat (length (args fntype)) + 1 /\
  Forall (fun z => In z (map num (map snd _llvm_ty_str_to_numpy))) tys.
Proof.
  unfold typenums. intros H. split.
  - rewrite <- (Forall2_length H), length_app. simpl. lia.
  - induction H as [|T z Ts zs (t & Ht & ->) _ IH]; constructor; [|exact IH].
    apply in_map. change t with (snd (T, t)). now apply in_map.
Qed.

Lemma built_exists (LFunc SPUF : Type)
      (def_spuf : LFunc -> String.string + SPUF) l :
  Forall (fun f => exists spuf, def_spuf f = inr spuf) l <->
  exists spuflist, Forall2 (fun f spuf => def_spuf f = inr spuf) l spuflist.
Proof.
  split.
  - induction 1 as [|f l [spuf Hf] _ [spufs IH]].
    + exists []. constructor.
    + exists (spuf :: spufs). now constructor.
  - intros [spufs H]. induction H as [|f spuf l spufs Hf _ IH];
      constructor; [now exists spuf|exact IH].
Qed.

Lemma unindexable_subscript (LFunc : Type) (l : list LFunc) k :
  subscript (unindexable l) k = inl TypeError.
Proof. reflexivity. Qed.

(** X14.  With an engine, [parallel_vectorize_from_func] reaches the call
    of [fromfunc] exactly when building the specialized ufunc succeeds for
    every function that iterating over the argument yields, there is at
    least one, every subscript [lfunclist[i]] of the second loop yields a
    function, each of these has as many arguments as [lfunclist[0]], and
    all their argument and return types are among the six keys of
    [_llvm_ty_str_to_numpy].  For a single function or a list these are
    conditions on the functions given; for an iterable that cannot be
    subscripted (a set, a generator) the call never succeeds. *)
Theorem from_func_builds_iff (LFunc SPUF Engine : Type)
        (pointee : LFunc -> FunctionType)
        (def_spuf : LFunc -> String.string + SPUF)
        (get_pointer_to_function : Engine -> SPUF -> Z)
        (num : NumpyType -> Z) (lfunclist : Functions LFunc)
        (engine : Engine) :
  ((exists r,
      parallel_vectorize_from_func pointee def_spuf get_pointer_to_function
                                   num lfunclist (Some engine) = inr r) <->
   exists spuflist f0 fns,
     Forall2 (fun lfunc spuf => def_spuf lfunc = inr spuf)
             (elements (listify lfunclist)) spuflist /\
     length (f0 :: fns) = length spuflist /\
     indexed (listify lfunclist) 0 (f0 :: fns) /\
     Forall (fun f => length (args (pointee f)) = length (args (pointee f0)))
            fns /\
     Forall (fun f => Forall (fun T => In T (map fst _llvm_ty_str_to_numpy))
                             (args (pointee f) ++ [return_type (pointee f)]))
            (f0 :: fns)) /\
  (forall l, listify lfunclist = pylist l ->
     ((exists r,
      parallel_vectorize_from_func pointee def_spuf get_pointer_to_function
                                   num lfunclist (Some engine) = inr r) <->
      exists f0 rest,
        l = f0 :: rest /\
        Forall (fun f => exists spuf, def_spuf f = inr spuf) l /\
        Forall (fun f => length (args (pointee f)) =
                         length (args (pointee f0))) rest /\
        Forall (fun f =>
                  Forall (fun T => In T (map fst _llvm_ty_str_to_numpy))
                         (args (pointee f) ++ [return_type (pointee f)]))
               l)) /\
  (forall l r, listify lfunclist = unindexable l ->
     parallel_vectorize_from_func pointee def_spuf get_pointer_to_function
                                  num lfunclist (Some engine) <> inr r).
Proof.
  set (built := exists r,
      parallel_vectorize_from_func pointee def_spuf get_pointer_to_function
                                   num lfunclist (Some engine) = inr r).
  assert (General : built <->
    exists spuflist f0 fns,
     Forall2 (fun lfunc spuf => def_spuf lfunc = inr spuf)
             (elements (listify lfunclist)) spuflist /\
     length (f0 :: fns) = length spuflist /\
     indexed (listify lfunclist) 0 (f0 :: fns) /\
     Forall (fun f => length (args (pointee f)) = length (args (pointee f0)))
            fns /\
     Forall (fun f => Forall (fun T => In T (map fst _llvm_ty_str_to_numpy))
                             (args (pointee f) ++ [return_type (pointee f)]))
            (f0 :: fns)).
  { split.
    - intros [r Hr]. apply from_func_inr in Hr.
      destruct Hr as (spuflist & f0 & fns & tys & rows & E & Hlen & Hidx &
                      Hct & Ht0 & Hrows & _).
      exists spuflist, f0, fns. split; [exact E|]. split; [exact Hlen|].
      split; [exact Hidx|]. split.
      + eapply Forall_impl; [|exact Hct]. simpl. intros f Hf. lia.
      + constructor; [now apply typenums_keys with (1 := Ht0)|].
        clear - Hrows. induction Hrows as [|f tys rest rows Hf _ IH];
          constructor; [now apply typenums_keys with (1 := Hf)|exact IH].
    - intros (spuflist & f0 & fns & E & Hlen & Hidx & Hct & Hty).
      apply from_func_total with (spuflist := spuflist) (f0 := f0)
                                 (fns := fns);
        [exact E|exact Hlen|exact Hidx| |exact Hty].
      eapply Forall_impl; [|exact Hct]. simpl. intros f Hf. now rewrite Hf. }
  split; [exact General|]. split.
  - intros l El. rewrite General, El. simpl elements. split.
    + intros (spuflist & f0 & fns & E & Hlen & Hidx & Hct & Hty).
      assert (Efns : f0 :: fns = l).
      { apply indexed_pylist; [exact Hidx|].
        rewrite Hlen. symmetry. exact (Forall2_length E). }
      exists f0, fns. split; [now symmetry|].
      split; [apply built_exists; now exists spuflist|].
      split; [exact Hct|]. now rewrite <- Efns.
    + intros (f0 & rest & -> & Hb & Hct & Hty).
      apply built_exists in Hb as [spuflist E].
      exists spuflist, f0, rest. split; [exact E|].
      split; [exact (Forall2_length E)|].
      split; [apply pylist_indexed|]. now split.
  - intros l r El Hr.
    assert (Hb : built) by (now exists r). apply General in Hb.
    destruct Hb as (spuflist & f0 & fns & _ & _ & Hidx & _).
    specialize (Hidx 0%nat f0 eq_refl). rewrite El in Hidx. discriminate.
Qed.

(** X15.  What [fromfunc] is called with: one pointer, one row of type
    numbers and one [None] per function, in the order of the functions;
    the pointers are those of the specialized ufuncs built in the first
    loop, the rows those of the functions [lfunclist[i]], which for a single
    function or a list are the functions given; [inct] is the number of
    arguments of every function and [outct] is 1; every row has
    [inct + outct] entries, those of the argument types followed by that of
    the return type, and each entry is the type number of one of the six
    NumPy types of the dictionary. *)
Theorem from_func_arguments (LFunc SPUF Engine : Type)
        (pointee : LFunc -> FunctionType)
        (def_spuf : LFunc -> String.string + SPUF)
        (get_pointer_to_function : Engine -> SPUF -> Z)
        (num : NumpyType -> Z) (lfunclist : Functions LFunc)
        (engine : Engine) (r : Result SPUF) :
  parallel_vectorize_from_func pointee def_spuf get_pointer_to_function
                               num lfunclist (Some engine) = inr r ->
  exists spuflist fns tyslist inct outct,
    Forall2 (fun lfunc spuf => def_spuf lfunc = inr spuf)
            (elements (listify lfunclist)) spuflist /\
    length fns = length spuflist /\
    indexed (listify lfunclist) 0 fns /\
    (forall l, listify lfunclist = pylist l -> fns = l) /\
    r = fromfunc (map (fun spuf => get_pointer_to_function engine spuf)
                      spuflist)
                 tyslist inct outct (repeat None (length spuflist)) /\
    outct = 1 /\
    spuflist <> [] /\
    Forall (fun f => Z.of_nat (length (args (pointee f))) = inct) fns /\
    Forall2 (fun f tys => typenums num (pointee f) tys) fns tyslist /\
    Forall (fun tys =>
              Z.of_nat (length tys) = inct + outct /\
              Forall (fun z => In z (map num
                                         (map snd _llvm_ty_str_to_numpy)))
                     tys)
           tyslist.
Proof.
  intros Hr. apply from_func_inr in Hr.
  destruct Hr as (spuflist & f0 & fns & tys & rows & E & Hlen & Hidx & Hct &
                  Ht0 & Hrows & ->).
  exists spuflist, (f0 :: fns), (tys :: rows),
         (Z.of_nat (length (args (pointee f0)))), 1.
  split; [exact E|]. split; [exact Hlen|]. split; [exact Hidx|].
  split.
  { intros l El. rewrite El in Hidx, E. simpl in E.
    apply indexed_pylist; [exact Hidx|].
    rewrite Hlen. symmetry. exact (Forall2_length E). }
  split; [reflexivity|]. split; [reflexivity|].
  split; [destruct spuflist; [discriminate Hlen|discriminate]|].
  split; [now constructor|]. split; [now constructor|].
  constructor.
  - exact (typenums_row Ht0).
  - clear - Hct Hrows. revert Hct.
    induction Hrows as [|f t rest rows Hf _ IH]; intros Hct; constructor.
    + inversion Hct as [|? ? Hf0 _]; subst. rewrite <- Hf0.
      exact (typenums_row Hf).
    + apply IH. now inversion Hct.
Qed.

(** An [i32] and a [double] function of two arguments, in a list. *)
Lemma from_func_arguments_i32_double :
  exists spuflist fns tyslist inct outct,
    Forall2 (fun lfunc spuf => sample_def_spuf lfunc = inr spuf)
            [binary "i32"%string; binary "double"%string] spuflist /\
    length fns = length spuflist /\
    indexed (pylist [binary "i32"%string; binary "double"%string]) 0 fns /\
    (forall l, pylist [binary "i32"%string; binary "double"%string] =
               pylist l -> fns = l) /\
    @fromfunc FunctionType [3; 6] [[5; 5; 5]; [12; 12; 12]] 2 1
              [None; None] =
    fromfunc (map (fun spuf => sample_pointer tt spuf) spuflist)
             tyslist inct outct (repeat None (length spuflist)) /\
    outct = 1 /\
    spuflist <> [] /\
    Forall (fun f => Z.of_nat (length (args f)) = inct) fns /\
    Forall2 (fun f tys => typenums linux_num f tys) fns tyslist /\
    Forall (fun tys =>
              Z.of_nat (length tys) = inct + outct /\
              Forall (fun z => In z (map linux_num
                                         (map snd _llvm_ty_str_to_numpy)))
                     tys)
           tyslist.
Proof.
  apply (@from_func_arguments
           FunctionType FunctionType unit (fun f => f) sample_def_spuf
           sample_pointer linux_num
           (iterable (pylist [binary "i32"%string; binary "double"%string]))
           tt
           (fromfunc [3; 6] [[5; 5; 5]; [12; 12; 12]] 2 1 [None; None])).
  reflexivity.
Defined.

(** X16.  The exceptions of [parallel_vectorize_from_func] with an engine,
    and their causes.  Either building the specialized ufunc of one of the
    functions raised in the first loop; or every specialized ufunc was
    built, and the exception is [UnboundLocalError] for [inct] when there is
    no function, the exception of a subscript [lfunclist[k]], [TypeError]
    when [lfunclist[k]] differs from [lfunclist[0]] in its number of
    arguments, [AssertionError] when [lfunclist[k]] returns [void], or
    [KeyError] for a type of [lfunclist[k]] that is not a key of the
    dictionary.  For a single function or a list no subscript raises, so
    [IndexError] is not raised, and [AssertionError] is raised only for a
    function that returns [void] and whose specialized ufunc was built. *)
Theorem from_func_raises (LFunc SPUF Engine : Type)
        (pointee : LFunc -> FunctionType)
        (def_spuf : LFunc -> String.string + SPUF)
        (get_pointer_to_function : Engine -> SPUF -> Z)
        (num : NumpyType -> Z) (lfunclist : Functions LFunc)
        (engine : Engine) (e : Exn) :
  parallel_vectorize_from_func pointee def_spuf get_pointer_to_function
                               num lfunclist (Some engine) = inl e ->
  ((exists lfunc name, In lfunc (elements (listify lfunclist)) /\
                       def_spuf lfunc = inl name /\ e = LibraryError name) \/
   Forall (fun f => exists spuf, def_spuf f = inr spuf)
          (elements (listify lfunclist)) /\
   ((e = UnboundLocalError "inct"%string /\
     elements (listify lfunclist) = []) \/
    exists k, (k < length (elements (listify lfunclist)))%nat /\
      (subscript (listify lfunclist) k = inl e \/
       exists f, subscript (listify lfunclist) k = inr f /\
         ((e = TypeError /\
           exists f0, subscript (listify lfunclist) 0 = inr f0 /\
                      length (args (pointee f)) <>
                      length (args (pointee f0))) \/
          (e = AssertionError /\ return_type (pointee f) = void) \/
          (exists T, In T (args (pointee f) ++ [return_type (pointee f)]) /\
                     e = KeyError T /\
                     ~ In T (map fst _llvm_ty_str_to_numpy)))))) /\
  (forall l, listify lfunclist = pylist l ->
     e <> IndexError /\
     (e = AssertionError ->
      exists f spuf, In f l /\ return_type (pointee f) = void /\
                     def_spuf f = inr spuf)).
Proof.
  intros He. apply from_func_inl in He.
  assert (General :
    (exists lfunc name, In lfunc (elements (listify lfunclist)) /\
                        def_spuf lfunc = inl name /\ e = LibraryError name) \/
    Forall (fun f => exists spuf, def_spuf f = inr spuf)
           (elements (listify lfunclist)) /\
    ((e = UnboundLocalError "inct"%string /\
      elements (listify lfunclist) = []) \/
     exists k, (k < length (elements (listify lfunclist)))%nat /\
       (subscript (listify lfunclist) k = inl e \/
        exists f, subscript (listify lfunclist) k = inr f /\
          ((e = TypeError /\
            exists f0, subscript (listify lfunclist) 0 = inr f0 /\
                       length (args (pointee f)) <>
                       length (args (pointee f0))) \/
           (e = AssertionError /\ return_type (pointee f) = void) \/
           (exists T, In T (args (pointee f) ++ [return_type (pointee f)]) /\
                      e = KeyError T /\
                      ~ In T (map fst _llvm_ty_str_to_numpy)))))).
  { destruct He as [H|[Hb H]]; [now left|]. right.
    split; [now apply built_exists|].
    destruct H as [H|(k & Hk & [H|(f & Hf & H)])]; [now left|right..].
    - exists k. split; [exact Hk|]. now left.
    - exists k. split; [exact Hk|]. right. exists f. split; [exact Hf|].
      destruct H as [(-> & f0 & Hf0 & Hne)|[H|H]].
      + left. split; [reflexivity|]. exists f0. split; [exact Hf0|].
        intros Heq. apply Hne. now rewrite Heq.
      + right. now left.
      + right. now right. }
  split; [exact General|].
  intros l El. rewrite El in General. simpl elements in General.
  assert (Hsub : forall k, (k < length l)%nat ->
                           exists f, subscript (pylist l) k = inr f /\
                                     nth_error l k = Some f).
  { intros k Hk. simpl. destruct (nth_error l k) as [f|] eqn:E.
    - now exists f.
    - apply nth_error_None in E. lia. }
  destruct General as [(f & name & _ & _ & ->)|[Hb H]].
  { split; [discriminate|]. discriminate. }
  destruct H as [[-> _]|(k & Hk & H)].
  { split; [discriminate|]. discriminate. }
  destruct (Hsub k Hk) as (g & Hg & Hnth).
  destruct H as [H|(f & Hf & H)]; [rewrite Hg in H; discriminate|].
  rewrite Hg in Hf. injection Hf as <-.
  assert (Hin : In g l) by (eapply nth_error_In; exact Hnth).
  destruct H as [[-> _]|[[-> Hv]|(T & _ & -> & _)]].
  - split; [discriminate|]. discriminate.
  - split; [discriminate|]. intros _.
    rewrite Forall_forall in Hb. destruct (Hb g Hin) as [spuf Hs].
    now exists g, spuf.
  - split; [discriminate|]. discriminate.
Qed.

(** A function of one argument after a function of two, in a list. *)
Lemma from_func_raises_unary_after_binary :
  let l := [binary "i32"%string; unary "double"%string] in
  ((exists lfunc name, In lfunc l /\
                       sample_def_spuf lfunc = inl name /\
                       TypeError = LibraryError name) \/
   Forall (fun f => exists spuf, sample_def_spuf f = inr spuf) l /\
   ((TypeError = UnboundLocalError "inct"%string /\ l = []) \/
    exists k, (k < length l)%nat /\
      (subscript (pylist l) k = inl TypeError \/
       exists f, subscript (pylist l) k = inr f /\
         ((TypeError = TypeError /\
           exists f0, subscript (pylist l) 0 = inr f0 /\
                      length (args f) <> length (args f0)) \/
          (TypeError = AssertionError /\ return_type f = void) \/
          (exists T, In T (args f ++ [return_type f]) /\
                     TypeError = KeyError T /\
                     ~ In T (map fst _llvm_ty_str_to_numpy)))))) /\
  (forall l', pylist l = pylist l' ->
     TypeError <> IndexError /\
     (TypeError = AssertionError ->
      exists f spuf, In f l' /\ return_type f = void /\
                     sample_def_spuf f = inr spuf)).
Proof.
  apply (@from_func_raises
           FunctionType FunctionType unit (fun f => f) sample_def_spuf
           sample_pointer linux_num
           (iterable (pylist [binary "i32"%string; unary "double"%string]))
           tt TypeError).
  reflexivity.
Defined.

Section Adds.

Variables PyFunc Signature Translate : Type.
Variable translate : PyFunc -> Signature -> Translate.

Lemma adds_translates sigs : forall self : ParallelVectorize PyFunc Translate,
  pyfunc (fold_left (add translate) sigs self) = pyfunc self /\
  translates (fold_left (add translate) sigs self) =
  translates self ++ map (translate (pyfunc self)) sigs.
Proof.
  induction sigs as [|sig sigs IH]; intros self; simpl.
  - now rewrite app_nil_r.
  - destruct (IH (add translate self sig)) as [-> ->]. simpl.
    now rewrite <- app_assoc.
Qed.

End Adds.

(** X17.  [ParallelVectorize]: after [add] has been called for the
    signatures [sigs], [build_ufunc] raises [AssertionError] when there is
    none; otherwise it is [parallel_vectorize_from_func] on the list of the
    functions of the translations, in the order they were added, with the
    engine of the first.  It never returns bare LLVM definitions and never
    raises [UnboundLocalError] or [IndexError]; the ufunc it builds has one
    loop for each signature. *)
Theorem build_ufunc_after_adds
        (LFunc SPUF Engine PyFunc Signature Translate : Type)
        (pointee : LFunc -> FunctionType)
        (def_spuf : LFunc -> String.string + SPUF)
        (get_pointer_to_function : Engine -> SPUF -> Z)
        (num : NumpyType -> Z)
        (translate : PyFunc -> Signature -> Translate)
        (lfunc : Translate -> LFunc) (_get_ee : Translate -> Engine)
        (func : PyFunc) (sigs : list Signature) :
  let self := fold_left (add translate) sigs (__init__ Translate func) in
  let result := build_ufunc pointee def_spuf get_pointer_to_function num
                            lfunc _get_ee self in
  translates self = map (translate func) sigs /\
  result =
  match sigs with
  | [] => inl AssertionError
  | sig0 :: _ =>
      parallel_vectorize_from_func
        pointee def_spuf get_pointer_to_function num
        (iterable (pylist (map (fun sig => lfunc (translate func sig)) sigs)))
        (Some (_get_ee (translate func sig0)))
  end /\
  (forall name, result <> inl (UnboundLocalError name)) /\
  result <> inl IndexError /\
  (forall r, result = inr r ->
             exists ptrlist tyslist inct outct datlist,
               r = fromfunc ptrlist tyslist inct outct datlist /\
               length ptrlist = length sigs /\
               length tyslist = length sigs /\
               length datlist = length sigs).
Proof.
  intros self result.
  destruct (adds_translates translate sigs (__init__ Translate func))
    as [_ Htr].
  simpl in Htr. fold self in Htr.
  assert (Hres : result =
                 match sigs with
                 | [] => inl AssertionError
                 | sig0 :: _ =>
                     parallel_vectorize_from_func
                       pointee def_spuf get_pointer_to_function num
                       (iterable
                          (pylist (map (fun sig => lfunc (translate func sig))
                                       sigs)))
                       (Some (_get_ee (translate func sig0)))
                 end).
  { unfold result, build_ufunc, _get_lfunc_list. rewrite Htr.
    destruct sigs as [|sig0 sigs']; [reflexivity|]. simpl map.
    now rewrite map_map. }
  split; [exact Htr|]. split; [exact Hres|].
  rewrite Hres. clear Hres result Htr self.
  destruct sigs as [|sig0 sigs'].
  { split; [discriminate|]. split; discriminate. }
  set (l := map (fun sig => lfunc (translate func sig)) (sig0 :: sigs')).
  assert (Hsub : forall k e, (k < length l)%nat ->
                             subscript (pylist l) k <> inl e).
  { intros k e Hk. simpl. destruct (nth_error l k) eqn:E; [discriminate|].
    apply nth_error_None in E. lia. }
  split; [|split].
  - intros name He. apply from_func_inl in He.
    destruct He as [(f & n & _ & _ & He)|[_ [[_ He]|(k & Hk & He)]]];
      [discriminate|discriminate|].
    destruct He as [He|(f & _ & [[He _]|[[He _]|(T & _ & He & _)]])];
      [now apply Hsub in He|discriminate..].
  - intros He. apply from_func_inl in He.
    destruct He as [(f & n & _ & _ & He)|[_ [[He _]|(k & Hk & He)]]];
      [discriminate|discriminate|].
    destruct He as [He|(f & _ & [[He _]|[[He _]|(T & _ & He & _)]])];
      [now apply Hsub in He|discriminate..].
  - intros r Hr. apply from_func_inr in Hr.
    destruct Hr as (spuflist & f0 & fns & tys & rows & E & Hlen & _ & _ & _ &
                    Hrows & ->).
    apply Forall2_length in E. simpl in E. unfold l in E.
    rewrite length_map in E.
    apply Forall2_length in Hrows.
    do 5 eexists. split; [reflexivity|].
    rewrite length_map, repeat_length. simpl in Hlen, E |- *. lia.
Qed.

(** Two signatures: the ufunc has two loops. *)
Example two_signatures_built :
  let self := fold_left (add (fun (_ : unit) (T : LType) => binary T))
                        ["i32"%string; "double"%string]
                        (__init__ FunctionType tt) in
  build_ufunc (fun f : FunctionType => f) sample_def_spuf sample_pointer
              linux_num (fun t : FunctionType => t) (fun _ => tt) self =
  inr (fromfunc [3; 6] [[5; 5; 5]; [12; 12; 12]] 2 1 [None; None]).
Proof. reflexivity. Qed.
